(** * ch-tools: ClickHouse configuration assembly and query client

    A shallow embedding of [src/common/clickhouse.py] and the properties
    its specification states about it.

    Python values are modelled as the code uses them:
    - [str] is [string]; a character stands for a code point below 256;
    - [None]-or-[str] arguments are [option string];
    - a [dict] is an association list with unique keys in insertion order;
    - objects that are mutated or shared live in a heap of objects and are
      referred to by address;
    - a call that may raise returns an [outcome]. *)

From Stdlib Require Import String Ascii ZArith QArith Qminmax Bool Lia.
From Stdlib Require Import DecimalString.
From stdpp Require Import base list.

Open Scope string_scope.
Open Scope list_scope.

(** ** Python string primitives *)

Module PyStr.

(** [str.isspace] on one code point below 256 (also what [\s] matches in
    [re] for a [str] pattern). *)
Definition isspace (c : ascii) : bool :=
  let n := nat_of_ascii c in
  ((9 <=? n) && (n <=? 13) || (28 <=? n) && (n <=? 32)
   || (n =? 133) || (n =? 160))%nat.

Fixpoint lstrip (s : string) : string :=
  match s with
  | EmptyString => EmptyString
  | String c s' => if isspace c then lstrip s' else s
  end.

Fixpoint rstrip (s : string) : string :=
  match s with
  | EmptyString => EmptyString
  | String c s' =>
      match rstrip s' with
      | EmptyString => if isspace c then EmptyString else String c EmptyString
      | r => String c r
      end
  end.

(** [s.strip()] *)
Definition strip (s : string) : string := rstrip (lstrip s).

(** [ch.lower()] on one code point below 256: A-Z and the Latin-1 capitals
    (0xC0-0xDE except the multiplication sign 0xD7) move up by 32. *)
Definition lower_char (c : ascii) : ascii :=
  let n := nat_of_ascii c in
  if ((65 <=? n) && (n <=? 90)
      || (192 <=? n) && (n <=? 222) && negb (n =? 215))%nat
  then ascii_of_nat (n + 32) else c.

(** [s.lower()] *)
Fixpoint lower (s : string) : string :=
  match s with
  | EmptyString => EmptyString
  | String c s' => String (lower_char c) (lower s')
  end.

(** [s.find(c)] for a one-character needle: the first index, or -1. *)
Fixpoint find (c : ascii) (s : string) : Z :=
  match s with
  | EmptyString => (-1)%Z
  | String d s' =>
      if Ascii.eqb d c then 0%Z
      else let r := find c s' in if (r <? 0)%Z then (-1)%Z else (r + 1)%Z
  end.

(** [s.split(c)] for a one-character separator. *)
Fixpoint split (c : ascii) (s : string) : list string :=
  match s with
  | EmptyString => [EmptyString]
  | String d s' =>
      if Ascii.eqb d c then EmptyString :: split c s'
      else match split c s' with
           | h :: t => String d h :: t
           | [] => [String d EmptyString]
           end
  end.

(** [sep.join(items)] *)
Definition join (sep : string) (items : list string) : string :=
  String.concat sep items.

(** [s.startswith(c)] for a one-character prefix. *)
Definition startswith (c : ascii) (s : string) : bool :=
  match s with
  | String d _ => Ascii.eqb d c
  | EmptyString => false
  end.

(** The characters of a string. *)
Definition chars (s : string) : list ascii := list_ascii_of_string s.

(** [re.sub(r'\s*\n\s*', ' ', s)].  A match starts at the first position
    from which a run of whitespace reaches a newline; being greedy on both
    sides of the newline it covers the whole maximal run of whitespace.
    [span_space s] splits off that run and tells whether it holds a
    newline. *)
Fixpoint span_space (s : string) : bool * string :=
  match s with
  | EmptyString => (false, EmptyString)
  | String c s' =>
      if isspace c then
        let '(nl, rest) := span_space s' in
        (Ascii.eqb c "010"%char || nl, rest)
      else (false, s)
  end.

Fixpoint sub_newline_runs (fuel : nat) (s : string) : string :=
  match fuel with
  | O => s
  | S fuel' =>
      match s with
      | EmptyString => EmptyString
      | String c s' =>
          match span_space s with
          | (true, rest) => String " "%char (sub_newline_runs fuel' rest)
          | (false, _) => String c (sub_newline_runs fuel' s')
          end
      end
  end.

Definition re_sub_newlines (s : string) : string :=
  sub_newline_runs (String.length s) s.

End PyStr.

(** ** Exceptions and the state-and-exception monad *)

(** An HTTP response, as far as the code looks at it. *)
Record response : Type := {
  status_code : Z;
  text : string
}.

(** The exceptions the modelled code raises or lets through. *)
Inductive exn : Type :=
| ConnectionError (msg : string)   (* requests.exceptions.ConnectionError *)
| TransportError (msg : string)    (* any other exception of the HTTP call *)
| ClickhouseError (query : string) (resp : response)
| JSONDecodeError
| ValueError
| TemplateError (msg : string)
| AttributeError
| KeyError (key : string)
| TypeError
| StopIteration
| RecursionError
| FileNotFoundError (path : string)
| ParseError (path : string)
| UnparseError.

Inductive outcome (A : Type) : Type :=
| Return (a : A)
| Raise (e : exn).
Arguments Return {A} a.
Arguments Raise {A} e.

(** A computation over a mutable state [S]: the state survives a raise. *)
Definition M (S A : Type) : Type := S -> outcome A * S.

Definition ret {S A} (a : A) : M S A := fun s => (Return a, s).
Definition raise {S A} (e : exn) : M S A := fun s => (Raise e, s).
Definition bind {S A B} (m : M S A) (k : A -> M S B) : M S B :=
  fun s => match m s with
           | (Return a, s') => k a s'
           | (Raise e, s') => (Raise e, s')
           end.
Definition get_state {S} : M S S := fun s => (Return s, s).
Definition put_state {S} (s : S) : M S unit := fun _ => (Return tt, s).
Definition modify {S} (f : S -> S) : M S unit := fun s => (Return tt, f s).

Declare Scope py_scope.
Delimit Scope py_scope with py.
Notation "'do' x <- m ; k" := (bind m (fun x => k))
  (at level 10, x name, m at level 100, k at level 200) : py_scope.
Notation "'do' ' p <- m ; k" := (bind m (fun x => let 'p := x in k))
  (at level 10, p pattern, m at level 100, k at level 200) : py_scope.
Notation "'exec' m ; k" := (bind m (fun _ => k))
  (at level 10, m at level 100, k at level 200) : py_scope.
Open Scope py_scope.

(** [for x in xs: body(x)] *)
Fixpoint for_each {S A} (xs : list A) (body : A -> M S unit) : M S unit :=
  match xs with
  | [] => ret tt
  | x :: xs' => bind (body x) (fun _ => for_each xs' body)
  end.

(** ** Python dicts: association lists in insertion order *)

Module Dict.
Section Ops.
Context {V : Type}.

(** [d.get(k)] *)
Fixpoint get (k : string) (d : list (string * V)) : option V :=
  match d with
  | [] => None
  | (k', v) :: d' => if String.eqb k' k then Some v else get k d'
  end.

(** [k in d] *)
Definition mem (k : string) (d : list (string * V)) : bool :=
  match get k d with Some _ => true | None => false end.

(** [d[k] = v]: an existing key keeps its place, a new one goes last. *)
Fixpoint set (k : string) (v : V) (d : list (string * V))
  : list (string * V) :=
  match d with
  | [] => [(k, v)]
  | (k', v') :: d' =>
      if String.eqb k' k then (k', v) :: d' else (k', v') :: set k v d'
  end.

(** [del d[k]] *)
Fixpoint del (k : string) (d : list (string * V)) : list (string * V) :=
  match d with
  | [] => []
  | (k', v') :: d' =>
      if String.eqb k' k then d' else (k', v') :: del k d'
  end.

Definition keys (d : list (string * V)) : list string := map fst d.
End Ops.
End Dict.

(** ** Documents and the object heap *)

(** What [xmltodict.parse] yields: [None] for an empty element, a string,
    a dict of children and attributes (attribute keys start with [@]), or
    a list where an element name repeats. *)
#[local] Set Warnings "-register-all".

Inductive doc : Type :=
| DNone
| DStr (s : string)
| DDict (items : list (string * doc))
| DList (elems : list doc).

(** Python objects that are mutated in place are kept in a heap; a value is
    [None], a string, or a reference to a dict or list object. *)
Notation addr := nat (only parsing).

Inductive val : Type :=
| VNone
| VStr (s : string)
| VRef (a : addr).

Inductive obj : Type :=
| ODict (items : list (string * val))
| OList (elems : list val).

Notation heap := (list obj) (only parsing).

(** Building the objects of a document: children first, then the
    container itself at the next free address. *)
Fixpoint alloc (t : doc) (h : heap) : val * heap :=
  match t with
  | DNone => (VNone, h)
  | DStr s => (VStr s, h)
  | DDict items =>
      let '(vs, h') :=
        (fix alloc_items (items : list (string * doc)) (h : heap)
           : list (string * val) * heap :=
           match items with
           | [] => ([], h)
           | (k, t') :: rest =>
               let '(v, h1) := alloc t' h in
               let '(vs, h2) := alloc_items rest h1 in
               ((k, v) :: vs, h2)
           end) items h in
      (VRef (length h'), h' ++ [ODict vs])
  | DList elems =>
      let '(vs, h') :=
        (fix alloc_elems (elems : list doc) (h : heap) : list val * heap :=
           match elems with
           | [] => ([], h)
           | t' :: rest =>
               let '(v, h1) := alloc t' h in
               let '(vs, h2) := alloc_elems rest h1 in
               (v :: vs, h2)
           end) elems h in
      (VRef (length h'), h' ++ [OList vs])
  end.

Fixpoint alloc_items (items : list (string * doc)) (h : heap)
  : list (string * val) * heap :=
  match items with
  | [] => ([], h)
  | (k, t') :: rest =>
      let '(v, h1) := alloc t' h in
      let '(vs, h2) := alloc_items rest h1 in
      ((k, v) :: vs, h2)
  end.

Fixpoint alloc_elems (elems : list doc) (h : heap) : list val * heap :=
  match elems with
  | [] => ([], h)
  | t' :: rest =>
      let '(v, h1) := alloc t' h in
      let '(vs, h2) := alloc_elems rest h1 in
      (v :: vs, h2)
  end.

(** Reading the document a value stands for, following references at most
    [fuel] levels deep. *)
Fixpoint read (fuel : nat) (h : heap) (v : val) : option doc :=
  match fuel with
  | O => None
  | S n =>
      match v with
      | VNone => Some DNone
      | VStr s => Some (DStr s)
      | VRef a =>
          match h !! a with
          | Some (ODict items) =>
              DDict <$> mapM (fun kv => pair kv.1 <$> read n h kv.2) items
          | Some (OList elems) => DList <$> mapM (read n h) elems
          | None => None
          end
      end
  end.

(** Nesting depth of a document: the levels [read] goes through. *)
Fixpoint depth (t : doc) : nat :=
  match t with
  | DNone | DStr _ => 1
  | DDict items => S (foldr (fun kt n => Nat.max (depth kt.2) n) 0 items)
  | DList elems => S (foldr (fun t' n => Nat.max (depth t') n) 0 elems)
  end.

(** Keys are unique in every dict of the document. *)
Fixpoint nodup_keys (ks : list string) : bool :=
  match ks with
  | [] => true
  | k :: ks' => negb (existsb (String.eqb k) ks') && nodup_keys ks'
  end.

Fixpoint wf_doc (t : doc) : bool :=
  match t with
  | DNone | DStr _ => true
  | DDict items =>
      nodup_keys (map fst items) && forallb (fun kt => wf_doc kt.2) items
  | DList elems => forallb wf_doc elems
  end.

(** [isinstance(v, dict)] *)
Definition is_dict (h : heap) (v : val) : bool :=
  match v with
  | VRef a => match h !! a with Some (ODict _) => true | _ => false end
  | _ => false
  end.

(** Truth value of a Python value ([if v:]). *)
Definition truthy (h : heap) (v : val) : bool :=
  match v with
  | VNone => false
  | VStr s => negb (String.eqb s "")
  | VRef a =>
      match h !! a with
      | Some (ODict []) | Some (OList []) => false
      | _ => true
      end
  end.

(** ** Configuration files *)

Definition CLICKHOUSE_SERVER_PREPROCESSED_CONFIG_PATH :=
  "/var/lib/clickhouse/preprocessed_configs/config.xml".
Definition CLICKHOUSE_SERVER_MAIN_CONFIG_PATH :=
  "/etc/clickhouse-server/config.xml".
Definition CLICKHOUSE_SERVER_CLUSTER_CONFIG_PATH :=
  "/etc/clickhouse-server/cluster.xml".
Definition CLICKHOUSE_SERVER_CONFIGD_PATH := "/etc/clickhouse-server/config.d".
Definition CLICKHOUSE_KEEPER_CONFIG_PATH := "/etc/clickhouse-keeper/config.xml".
Definition CLICKHOUSE_USERS_CONFIG_PATH := "/etc/clickhouse-server/users.xml".

(** The file system as the code observes it.  [fs_listdir] gives the
    entries of a directory in the order [os.listdir] returns them, which
    the operating system chooses. *)
Record filesystem : Type := {
  fs_exists : string -> bool;
  fs_read : string -> option string;
  fs_listdir : string -> option (list string)
}.

(** The XML library: [xmltodict.parse] (a document has one root element, so
    the result is a dict) and [xmltodict.unparse]. *)
Class XmlLib : Type := {
  xml_parse : string -> option (list (string * doc));
  xml_unparse : doc -> option string
}.

(** [os.path.join(dir, file)] for a relative [file]. *)
Definition path_join (dir file : string) : string :=
  (dir ++ "/" ++ file)%string.

(** Modelled from the spec: [deep_merge] is imported from
    [cloud.mdb.internal.python.utils] and is not part of the sources.  For
    each key of the source: a key absent from the destination is inserted;
    where both values are mappings the merge recurses; otherwise the
    source's value replaces the destination's. *)
Fixpoint merge_value (src dest : doc) : doc :=
  match src, dest with
  | DDict s, DDict d =>
      DDict (fold_left
               (fun acc ksv =>
                  match Dict.get ksv.1 acc with
                  | None => Dict.set ksv.1 ksv.2 acc
                  | Some dv => Dict.set ksv.1 (merge_value ksv.2 dv) acc
                  end) s d)
  | _, _ => src
  end.

Definition merge_item (acc : list (string * doc)) (ksv : string * doc)
  : list (string * doc) :=
  match Dict.get ksv.1 acc with
  | None => Dict.set ksv.1 ksv.2 acc
  | Some dv => Dict.set ksv.1 (merge_value ksv.2 dv) acc
  end.

Definition deep_merge (dest src : list (string * doc))
  : list (string * doc) :=
  fold_left merge_item src dest.

Section Config.
Context `{XmlLib}.

(** [_load_config]: the parsed content of a file. *)
Definition _load_config (fs : filesystem) (config_path : string)
  : outcome (list (string * doc)) :=
  match fs_read fs config_path with
  | None => Raise (FileNotFoundError config_path)
  | Some content =>
      match xml_parse content with
      | None => Raise (ParseError config_path)
      | Some d => Return d
      end
  end.

(** The loop of [load] over the override directory: each file is loaded
    and merged into [config], in the order given. *)
Fixpoint merge_files (fs : filesystem) (config : list (string * doc))
    (files : list string) : outcome (list (string * doc)) :=
  match files with
  | [] => Return config
  | file :: rest =>
      match _load_config fs (path_join CLICKHOUSE_SERVER_CONFIGD_PATH file)
      with
      | Raise e => Raise e
      | Return d => merge_files fs (deep_merge config d) rest
      end
  end.

(** Lines 223-226 of [ClickhouseConfig.load]: main config, cluster
    config, then the files of the override directory as [os.listdir]
    lists them. *)
Definition assemble (fs : filesystem) : outcome (list (string * doc)) :=
  match _load_config fs CLICKHOUSE_SERVER_MAIN_CONFIG_PATH with
  | Raise e => Raise e
  | Return config =>
      match _load_config fs CLICKHOUSE_SERVER_CLUSTER_CONFIG_PATH with
      | Raise e => Raise e
      | Return cluster =>
          match fs_listdir fs CLICKHOUSE_SERVER_CONFIGD_PATH with
          | None => Raise (FileNotFoundError CLICKHOUSE_SERVER_CONFIGD_PATH)
          | Some files => merge_files fs (deep_merge config cluster) files
          end
      end
  end.
End Config.

(** ** Include resolution (lines 228-243 of [ClickhouseConfig.load]) *)

(** Reading and writing the dict object at an address. *)
Definition load_dict (a : addr) : M heap (list (string * val)) :=
  fun h => match h !! a with
           | Some (ODict d) => (Return d, h)
           | _ => (Raise AttributeError, h)
           end.

Definition store_dict (a : addr) (d : list (string * val)) : M heap unit :=
  modify (fun h : heap => <[a := ODict d]> h).

(** One round of the loop, for the pair [(key, config_section)] taken from
    the copy of the root section; [r] is the address of [root_section]. *)
Definition include_step (r : addr) (kv : string * val) : M heap unit :=
  let '(key, config_section) := kv in
  fun h =>
  match config_section with
  | VRef a =>
      match h !! a with
      | Some (ODict section) =>
          match Dict.get "@incl" section with
          | None => (Return tt, h)
          | Some include =>
              if negb (truthy h include) then (Return tt, h)
              else
                match include with
                | VStr incl =>
                    (do root_section <- load_dict r;
                     exec (if negb (String.eqb incl key) then
                             match Dict.get incl root_section with
                             | Some target =>
                                 store_dict r
                                   (Dict.del incl
                                      (Dict.set key target root_section))
                             | None => ret tt
                             end
                           else ret tt);
                     do section' <- load_dict a;
                     if Dict.mem "@incl" section'
                     then store_dict a (Dict.del "@incl" section')
                     else raise (KeyError "@incl")) h
                | _ => (Raise TypeError, h)
                end
          end
      | _ => (Return tt, h)
      end
  | _ => (Return tt, h)
  end.

(** The whole pass over the config object at [config]. *)
Definition process_includes (config : val) : M heap unit :=
  match config with
  | VRef c =>
      do top <- load_dict c;
      match top with
      | [] => raise StopIteration
      | (root_key, root_val) :: _ =>
          match root_val with
          | VRef r =>
              do root_section <- load_dict r;
              for_each root_section (include_step r)
          | _ => raise AttributeError
          end
      end
  | _ => raise AttributeError
  end.

(** ** Secret masking and dumps *)

Definition MASK := "*****".
Definition SECRET_KEYS : list string :=
  ["password"; "secret_access_key"; "header"; "identity"].
Definition is_secret_key (key : string) : bool :=
  existsb (String.eqb key) SECRET_KEYS.

(** One round of the loop of [_mask_secrets] over [list(config.items())];
    [a] is the address of [config] and [recur] the recursive call. *)
Definition mask_step (recur : val -> M heap unit) (a : addr)
    (kv : string * val) : M heap unit :=
  let '(key, value) := kv in
  fun h =>
    if is_dict h value then
      (do config <- load_dict a;
       match Dict.get key config with
       | Some v => recur v
       | None => raise (KeyError key)
       end) h
    else if is_secret_key key then
      (do config <- load_dict a;
       store_dict a (Dict.set key (VStr MASK) config)) h
    else (Return tt, h).

(** [_mask_secrets(config)]; [fuel] bounds the recursion depth. *)
Fixpoint _mask_secrets (fuel : nat) (config : val) : M heap unit :=
  match fuel with
  | O => raise RecursionError
  | S n =>
      match config with
      | VRef a =>
          fun h =>
            match h !! a with
            | Some (ODict items) =>
                for_each items (mask_step (_mask_secrets n) a) h
            | _ => (Return tt, h)
            end
      | _ => ret tt
      end
  end.

(** A new object at the next free address. *)
Definition new_obj (o : obj) : M heap val :=
  fun h => (Return (VRef (length h)), h ++ [o]).

(** [[f(x) for x in xs]] with effects. *)
Fixpoint map_m {S A B} (f : A -> M S B) (xs : list A) : M S (list B) :=
  match xs with
  | [] => ret []
  | x :: xs' => do y <- f x; do ys <- map_m f xs'; ret (y :: ys)
  end.

(** [copy.deepcopy] on a tree of dicts, lists, strings and [None]. *)
Fixpoint deepcopy (fuel : nat) (v : val) : M heap val :=
  match fuel with
  | O => raise RecursionError
  | S n =>
      match v with
      | VRef a =>
          fun h =>
            match h !! a with
            | Some (ODict items) =>
                (do vs <- map_m (fun kv => do v' <- deepcopy n kv.2;
                                            ret (kv.1, v')) items;
                 new_obj (ODict vs)) h
            | Some (OList elems) =>
                (do vs <- map_m (deepcopy n) elems; new_obj (OList vs)) h
            | None => (Return v, h)
            end
      | _ => ret v
      end
  end.

Inductive dump_result : Type :=
| DumpTree (v : val)
| DumpXml (s : string).

Section Dump.
Context `{XmlLib}.

Definition _dump_config (fuel : nat) (config : val)
    (mask_secrets xml_format : bool) : M heap dump_result :=
  do result <- deepcopy fuel config;
  exec (if mask_secrets then _mask_secrets fuel result else ret tt);
  if xml_format then
    fun h =>
      match read fuel h result with
      | None => (Raise RecursionError, h)
      | Some t =>
          match xml_unparse t with
          | Some s => (Return (DumpXml s), h)
          | None => (Raise UnparseError, h)
          end
      end
  else ret (DumpTree result).
End Dump.

(** ** Config views *)

Record ClickhouseConfig : Type := {
  cfg_config : val;            (* self._config *)
  preprocessed : bool
}.

Record ClickhouseUsersConfig : Type := {
  users_config : val
}.

Record ClickhouseKeeperConfig : Type := {
  keeper_config : val;
  keeper_config_path : string
}.

Definition alloc_m (t : doc) : M heap val :=
  fun h => let '(v, h') := alloc t h in (Return v, h').

Definition lift_outcome {S A} (o : outcome A) : M S A :=
  fun s => (o, s).

Section Views.
Context `{XmlLib}.


(** [ClickhouseConfig.load] *)
Definition ClickhouseConfig_load (fs : filesystem)
  : M heap ClickhouseConfig :=
  if fs_exists fs CLICKHOUSE_SERVER_PREPROCESSED_CONFIG_PATH then
    do d <- lift_outcome
              (_load_config fs CLICKHOUSE_SERVER_PREPROCESSED_CONFIG_PATH);
    do config <- alloc_m (DDict d);
    ret {| cfg_config := config; preprocessed := true |}
  else
    do d <- lift_outcome (assemble fs);
    do config <- alloc_m (DDict d);
    exec process_includes config;
    ret {| cfg_config := config; preprocessed := false |}.

(** [ClickhouseUsersConfig.load] *)
Definition ClickhouseUsersConfig_load (fs : filesystem)
  : M heap ClickhouseUsersConfig :=
  do d <- lift_outcome (_load_config fs CLICKHOUSE_USERS_CONFIG_PATH);
  do config <- alloc_m (DDict d);
  ret {| users_config := config |}.

(** [ClickhouseKeeperConfig.load] *)
Definition ClickhouseKeeperConfig_load (fs : filesystem)
  : M heap ClickhouseKeeperConfig :=
  let config_path :=
    if fs_exists fs CLICKHOUSE_KEEPER_CONFIG_PATH
    then CLICKHOUSE_KEEPER_CONFIG_PATH
    else CLICKHOUSE_SERVER_PREPROCESSED_CONFIG_PATH in
  do d <- lift_outcome (_load_config fs config_path);
  do config <- alloc_m (DDict d);
  ret {| keeper_config := config; keeper_config_path := config_path |}.

(** [dump] and [dump_xml] of the three views. *)
Definition ClickhouseConfig_dump (fuel : nat) (self : ClickhouseConfig)
    (mask_secrets : bool) : M heap dump_result :=
  _dump_config fuel (cfg_config self) mask_secrets false.
Definition ClickhouseConfig_dump_xml (fuel : nat) (self : ClickhouseConfig)
    (mask_secrets : bool) : M heap dump_result :=
  _dump_config fuel (cfg_config self) mask_secrets true.

Definition ClickhouseUsersConfig_dump (fuel : nat)
    (self : ClickhouseUsersConfig) (mask_secrets : bool)
  : M heap dump_result :=
  _dump_config fuel (users_config self) mask_secrets false.
Definition ClickhouseUsersConfig_dump_xml (fuel : nat)
    (self : ClickhouseUsersConfig) (mask_secrets : bool)
  : M heap dump_result :=
  _dump_config fuel (users_config self) mask_secrets true.

Definition ClickhouseKeeperConfig_dump (fuel : nat)
    (self : ClickhouseKeeperConfig) (mask_secrets : bool)
  : M heap dump_result :=
  _dump_config fuel (keeper_config self) mask_secrets false.
Definition ClickhouseKeeperConfig_dump_xml (fuel : nat)
    (self : ClickhouseKeeperConfig) (mask_secrets : bool)
  : M heap dump_result :=
  _dump_config fuel (keeper_config self) mask_secrets true.
End Views.

(** ** Accessors of the views *)

(** The result of [d.get(key, {})]: a value found in [d], or the fresh
    empty dict given as default. *)
Inductive section_ref : Type :=
| Found (v : val)
| EmptyDefault.

(** The items of a section when it is a dict; what Python raises on
    [.get] or [.items] otherwise. *)
Definition section_items (h : heap) (s : section_ref)
  : outcome (list (string * val)) :=
  match s with
  | EmptyDefault => Return []
  | Found (VRef a) =>
      match h !! a with
      | Some (ODict d) => Return d
      | _ => Raise AttributeError
      end
  | Found _ => Raise AttributeError
  end.

(** [s.get(key, {})] *)
Definition section_get (h : heap) (s : section_ref) (key : string)
  : outcome section_ref :=
  match section_items h s with
  | Raise e => Raise e
  | Return d =>
      Return match Dict.get key d with
             | Some v => Found v
             | None => EmptyDefault
             end
  end.

(** [s.get(key)]: [None] when the key is missing. *)
Definition section_get_value (h : heap) (s : section_ref) (key : string)
  : outcome val :=
  match section_items h s with
  | Raise e => Raise e
  | Return d =>
      Return match Dict.get key d with
             | Some v => v
             | None => VNone
             end
  end.

(** [config.get('clickhouse', config.get('yandex', {}))], shared by
    [ClickhouseConfig._config_root] and [ClickhouseKeeperConfig._clickhouse]. *)
Definition config_root (h : heap) (config : val) : outcome section_ref :=
  match section_items h (Found config) with
  | Raise e => Raise e
  | Return top =>
      Return match Dict.get "clickhouse" top with
             | Some v => Found v
             | None =>
                 match Dict.get "yandex" top with
                 | Some v => Found v
                 | None => EmptyDefault
                 end
             end
  end.

Definition _config_root (h : heap) (self : ClickhouseConfig)
  : outcome section_ref :=
  config_root h (cfg_config self).

(** [ClickhouseConfig.macros] *)
Definition macros (h : heap) (self : ClickhouseConfig)
  : outcome (list (string * val)) :=
  match _config_root h self with
  | Raise e => Raise e
  | Return root =>
      match section_get h root "macros" with
      | Raise e => Raise e
      | Return m =>
          match section_items h m with
          | Raise e => Raise e
          | Return items =>
              Return (List.filter
                        (fun kv => negb (PyStr.startswith "@" kv.1)) items)
          end
      end
  end.

(** [ClickhouseConfig.cluster_name] *)
Definition cluster_name (h : heap) (self : ClickhouseConfig) : outcome val :=
  match macros h self with
  | Raise e => Raise e
  | Return m =>
      match Dict.get "cluster" m with
      | Some v => Return v
      | None => Raise (KeyError "cluster")
      end
  end.

(** [ClickhouseZookeeperConfig] *)
Record ClickhouseZookeeperConfig : Type := {
  zk_config : section_ref
}.

(** [ClickhouseConfig.zookeeper] *)
Definition zookeeper (h : heap) (self : ClickhouseConfig)
  : outcome ClickhouseZookeeperConfig :=
  match _config_root h self with
  | Raise e => Raise e
  | Return root =>
      match section_get h root "zookeeper" with
      | Raise e => Raise e
      | Return z => Return {| zk_config := z |}
      end
  end.

(** [ClickhouseZookeeperConfig.nodes]: [self._config['node']], as a list.
    Subscripting [None], a string or a list with a string key raises
    [TypeError]. *)
Definition zk_nodes (h : heap) (self : ClickhouseZookeeperConfig)
  : outcome (list val) :=
  let lookup (d : list (string * val)) :=
    match Dict.get "node" d with
    | None => Raise (KeyError "node")
    | Some (VRef a) =>
        match h !! a with
        | Some (OList elems) => Return elems
        | _ => Return [VRef a]
        end
    | Some value => Return [value]
    end in
  match zk_config self with
  | EmptyDefault => lookup []
  | Found (VRef a) =>
      match h !! a with
      | Some (ODict d) => lookup d
      | _ => Raise TypeError
      end
  | Found _ => Raise TypeError
  end.

(** [ClickhouseZookeeperConfig.root] and [.identity] *)
Definition zk_root (h : heap) (self : ClickhouseZookeeperConfig)
  : outcome val :=
  section_get_value h (zk_config self) "root".

Definition zk_identity (h : heap) (self : ClickhouseZookeeperConfig)
  : outcome val :=
  section_get_value h (zk_config self) "identity".

(** [name in container] for a string [name]: key membership in a dict,
    element membership in a list, substring test in a string; [None] is not
    iterable. *)
Definition val_eqb_str (name : string) (v : val) : bool :=
  match v with
  | VStr s => String.eqb s name
  | _ => false
  end.

Definition is_substring (needle hay : string) : bool :=
  match String.index 0 needle hay with
  | Some _ => true
  | None => false
  end.

Definition contains (h : heap) (name : string) (container : section_ref)
  : outcome bool :=
  match container with
  | EmptyDefault => Return false
  | Found VNone => Raise TypeError
  | Found (VStr s) => Return (is_substring name s)
  | Found (VRef a) =>
      match h !! a with
      | Some (ODict d) => Return (Dict.mem name d)
      | Some (OList elems) => Return (existsb (val_eqb_str name) elems)
      | None => Raise TypeError
      end
  end.

(** [ClickhouseConfig.has_disk] *)
Definition has_disk (h : heap) (self : ClickhouseConfig) (name : string)
  : outcome bool :=
  match _config_root h self with
  | Raise e => Raise e
  | Return root =>
      match section_get h root "storage_configuration" with
      | Raise e => Raise e
      | Return storage_configuration =>
          match section_get h storage_configuration "disks" with
          | Raise e => Raise e
          | Return disks => contains h name disks
          end
      end
  end.

(** [ClickhouseKeeperConfig] accessors *)
Definition _clickhouse (h : heap) (self : ClickhouseKeeperConfig)
  : outcome section_ref :=
  config_root h (keeper_config self).

Definition keeper_server_value (h : heap) (self : ClickhouseKeeperConfig)
    (key : string) : outcome val :=
  match _clickhouse h self with
  | Raise e => Raise e
  | Return root =>
      match section_get h root "keeper_server" with
      | Raise e => Raise e
      | Return ks => section_get_value h ks key
      end
  end.

Definition keeper_port h self := keeper_server_value h self "tcp_port".
Definition keeper_snapshots_dir h self :=
  keeper_server_value h self "snapshot_storage_path".
Definition keeper_storage_dir h self :=
  keeper_server_value h self "storage_path".

(** [ClickhouseKeeperConfig.separated] *)
Definition separated (self : ClickhouseKeeperConfig) : bool :=
  String.eqb (keeper_config_path self) CLICKHOUSE_KEEPER_CONFIG_PATH.

(** ** The query client *)

(** [_format_str_match] *)
Definition _format_str_match (value : option string) : option string :=
  match value with
  | None => None
  | Some value =>
      if (PyStr.find "," value <? 0)%Z then
        Some ("LIKE '" ++ value ++ "'")%string
      else
        Some ("IN (" ++
              PyStr.join ","
                (map (fun item => "'" ++ PyStr.strip item ++ "'")%string
                     (PyStr.split "," value)) ++ ")")%string
  end.

(** [_format_str_imatch] *)
Definition _format_str_imatch (value : option string) : option string :=
  match value with
  | None => None
  | Some value => _format_str_match (Some (PyStr.lower value))
  end.

(** What [query] returns: [None] (dry run), the response text, or the
    parsed JSON document. *)
Inductive qresult : Type :=
| QNone
| QText (s : string)
| QJson (d : doc).

(** The [requests.Session] of the client. *)
Record session : Type := {
  verify : option string;              (* [None] stands for [False] *)
  headers : list (string * string)
}.

Record request : Type := {
  req_session : session;
  req_url : string;
  req_params : list (string * string);
  req_json : option doc;
  req_timeout : Z
}.

Inductive post_result : Type :=
| PostRaises (e : exn)
| PostReturns (r : response).

Record ClickhouseClient : Type := {
  _session : session;
  _url : string;
  _settings : list (string * string);
  _timeout : Z;
  _ch_version : qresult
}.

(** The client object together with what its calls leave in the world:
    the requests posted, the lines printed, and the upper bound of each
    random back-off wait. *)
Record cstate : Type := {
  client : ClickhouseClient;
  posts : list request;
  stdout : list string;
  waits : list Q
}.

(** A template at work, as the client sees it: it may call the three
    functions registered in [env.globals] and ends with the rendered text
    or a template error. *)
Inductive tmpl : Type :=
| TOut (rendered : string)
| TFail (msg : string)
| TVersionGe (version : string) (k : bool -> tmpl)
| TStrMatch (value : option string) (k : option string -> tmpl)
| TStrIMatch (value : option string) (k : option string -> tmpl).

(** The collaborators of the client: the server behind the session (the
    answer to the [n]-th request posted), the template library, the
    imported [version_ge], [response.json()] and [int()]. *)
Class Net : Type := {
  transport : nat -> request -> post_result;
  jinja : string -> list (string * doc) -> tmpl;
  version_ge : qresult -> string -> bool;
  json_loads : string -> option doc;
  parse_int : string -> option Z
}.

(** [ClickhouseClient._create_session] *)
Definition _create_session (user : option string) (insecure : bool)
  : session :=
  let verify :=
    if insecure then None
    else Some "/etc/clickhouse-server/ssl/allCAs.pem" in
  match user with
  | Some u =>
      if String.eqb u "" then {| verify := verify; headers := [] |}
      else {| verify := verify;
              headers := Dict.set "X-ClickHouse-User" u [] |}
  | None => {| verify := verify; headers := [] |}
  end.

(** Decimal text of a port number, for [f'https://{host}:{port}']. *)
Definition str_of_Z (z : Z) : string :=
  DecimalString.NilZero.string_of_int (Z.to_int z).

(** [ClickhouseClient.__init__] *)
Definition ClickhouseClient_init (host : string) (port : option Z)
    (user : option string) (settings : option (list (string * string)))
    (timeout : option Z) (insecure : bool) : ClickhouseClient :=
  let port := match port with None => 8443%Z | Some p => p end in
  let timeout := match timeout with None => 60%Z | Some t => t end in
  let settings := match settings with None => [] | Some s => s end in
  {| _session := _create_session user insecure;
     _url := ("https://" ++ host ++ ":" ++ str_of_Z port)%string;
     _settings := settings;
     _timeout := timeout;
     _ch_version := QNone |}.

(** [ClickhouseError.__init__]: the query is stripped and every run of
    whitespace around a newline becomes one space. *)
Definition ClickhouseError_init (query : string) (resp : response) : exn :=
  ClickhouseError (PyStr.re_sub_newlines (PyStr.strip query)) resp.

(** [str(e)] for a [ClickhouseError]. *)
Definition ClickhouseError_message (query : string) (resp : response)
  : string :=
  (PyStr.strip (text resp) ++ String "010" (String "010" "Query: ")
   ++ query)%string.

(** [response.raise_for_status()] raises for the 4xx and 5xx codes. *)
Definition is_http_error (resp : response) : bool :=
  ((400 <=? status_code resp) && (status_code resp <? 600))%Z.

(** [retry]: the policy given to [tenacity.retry]. *)
Definition is_connection_error (e : exn) : bool :=
  match e with
  | ConnectionError _ => true
  | _ => false
  end.

(** The upper bound of [wait_random_exponential(multiplier=0.5, max=m)]
    before the retry that follows attempt [attempt_number]. *)
Definition wait_high (max_interval : Q) (attempt_number : nat) : Q :=
  Qmax 0 (Qmin ((1 # 2) * inject_Z (2 ^ Z.of_nat (attempt_number - 1)))
               max_interval).

Definition log_wait (w : Q) (st : cstate) : cstate :=
  {| client := client st; posts := posts st; stdout := stdout st;
     waits := waits st ++ [w] |}.

(** The loop of [tenacity]: run the function; an exception of the retried
    kind leads to another attempt unless [attempt_number] has reached
    [max_attempts]; with [reraise=True] the last exception is raised as it
    is.  [more] is [max_attempts - attempt_number]; the third component of
    the result is the number of attempts made. *)
Fixpoint retry_loop {A} (exception_types : exn -> bool) (max_interval : Q)
    (more attempt_number : nat) (f : M cstate A)
  : cstate -> outcome A * cstate * nat :=
  fun st =>
    match f st with
    | (Return a, st') => (Return a, st', attempt_number)
    | (Raise e, st') =>
        if exception_types e then
          match more with
          | O => (Raise e, st', attempt_number)
          | S more' =>
              retry_loop exception_types max_interval more'
                (S attempt_number) f
                (log_wait (wait_high max_interval attempt_number) st')
          end
        else (Raise e, st', attempt_number)
    end.

Definition retry_stats {A} (exception_types : exn -> bool)
    (max_attempts : nat) (max_interval : Q) (f : M cstate A)
  : cstate -> outcome A * cstate * nat :=
  retry_loop exception_types max_interval (max_attempts - 1) 1 f.

Definition retry {A} (exception_types : exn -> bool)
    (max_attempts : nat) (max_interval : Q) (f : M cstate A) : M cstate A :=
  fun st => fst (retry_stats exception_types max_attempts max_interval f st).

Section Client.
Context `{Net}.

(** [self._session.post(...)]: the request is recorded and answered by
    the transport. *)
Definition session_post (rq : request) : M cstate response :=
  fun st =>
    let st' := {| client := client st; posts := posts st ++ [rq];
                  stdout := stdout st; waits := waits st |} in
    match transport (length (posts st)) rq with
    | PostRaises e => (Raise e, st')
    | PostReturns r => (Return r, st')
    end.

Definition print (line : string) : M cstate unit :=
  modify (fun st => {| client := client st; posts := posts st;
                       stdout := stdout st ++ [line]; waits := waits st |}).

Definition set_ch_version (v : qresult) : M cstate unit :=
  modify (fun st =>
    {| client := {| _session := _session (client st);
                    _url := _url (client st);
                    _settings := _settings (client st);
                    _timeout := _timeout (client st);
                    _ch_version := v |};
       posts := posts st; stdout := stdout st; waits := waits st |}).

(** Lines 92-93: the query is rendered when arguments are given. *)
Definition render_args
    (render : string -> list (string * doc) -> M cstate string)
    (query : string) (query_args : option (list (string * doc)))
  : M cstate string :=
  match query_args with
  | Some ((_ :: _) as args) => render query args
  | _ => ret query
  end.

(** Lines 95-96: the format directive. *)
Definition with_format (query : string) (format : option string) : string :=
  match format with
  | Some f => if String.eqb f "" then query
              else (query ++ " FORMAT " ++ f)%string
  | None => query
  end.

(** Lines 104-116: the request posted. *)
Definition make_request (self : ClickhouseClient) (query : string)
    (post_data : option doc) (timeout : option Z) : request :=
  {| req_session := _session self;
     req_url := _url self;
     req_params := Dict.set "query" query (_settings self);
     req_json := post_data;
     req_timeout :=
       Z.max (_timeout self)
             (match timeout with Some t => t | None => 0%Z end) |}.

(** Lines 118-123: what is made of a response. *)
Definition handle_response (query : string) (format : option string)
    (resp : response) : M cstate qresult :=
  if is_http_error resp then raise (ClickhouseError_init query resp)
  else
    match format with
    | Some f =>
        if String.eqb f "JSON" || String.eqb f "JSONCompact" then
          match json_loads (text resp) with
          | Some d => ret (QJson d)
          | None => raise JSONDecodeError
          end
        else ret (QText (PyStr.strip (text resp)))
    | None => ret (QText (PyStr.strip (text resp)))
    end.

(** The body of [ClickhouseClient.query], one attempt.  [render] is
    [self.render_query]. *)
Definition query_body
    (render : string -> list (string * doc) -> M cstate string)
    (query : string) (query_args : option (list (string * doc)))
    (format : option string) (post_data : option doc)
    (timeout : option Z) (echo dry_run : bool) : M cstate qresult :=
  do query <- render_args render query query_args;
  let query := with_format query format in
  exec (if echo
        then print (query ++ " " ++ String "010" (String "010" ""))%string
        else ret tt);
  if dry_run then ret QNone
  else
    do st <- get_state;
    do resp <- session_post
                 (make_request (client st) query post_data timeout);
    handle_response query format resp.

(** [query] under its decorator [@retry(ConnectionError)], for a given
    [render_query]. *)
Definition query_with
    (render : string -> list (string * doc) -> M cstate string)
    (query : string) (query_args : option (list (string * doc)))
    (format : option string) (post_data : option doc)
    (timeout : option Z) (echo dry_run : bool) : M cstate qresult :=
  retry is_connection_error 5 5
    (query_body render query query_args format post_data timeout
       echo dry_run).

(** [self.query('SELECT version()')]: no arguments are passed, so the
    renderer is not reached. *)
Definition version_query : M cstate qresult :=
  query_with (fun q _ => ret q) "SELECT version()" None None None None
    false false.

(** [ClickhouseClient.get_clickhouse_version] *)
Definition get_clickhouse_version : M cstate qresult :=
  do st <- get_state;
  match _ch_version (client st) with
  | QNone =>
      do v <- version_query;
      exec set_ch_version v;
      ret v
  | v => ret v
  end.

(** Running a template with the three globals of [render_query]. *)
Fixpoint run_template (t : tmpl) : M cstate string :=
  match t with
  | TOut rendered => ret rendered
  | TFail msg => raise (TemplateError msg)
  | TVersionGe version k =>
      do current <- get_clickhouse_version;
      run_template (k (version_ge current version))
  | TStrMatch value k => run_template (k (_format_str_match value))
  | TStrIMatch value k => run_template (k (_format_str_imatch value))
  end.

(** [ClickhouseClient.render_query] *)
Definition render_query (query : string) (kwargs : list (string * doc))
  : M cstate string :=
  run_template (jinja query kwargs).

(** [ClickhouseClient.query] *)
Definition query := query_with render_query.

(** The number of attempts [query] makes. *)
Definition query_attempts
    (query : string) (query_args : option (list (string * doc)))
    (format : option string) (post_data : option doc)
    (timeout : option Z) (echo dry_run : bool) (st : cstate) : nat :=
  snd (retry_stats is_connection_error 5 5
         (query_body render_query query query_args format post_data
            timeout echo dry_run) st).

(** [ClickhouseClient.get_uptime], in seconds. *)
Definition get_uptime : M cstate Z :=
  do r <- query "SELECT uptime()" None None None None false false;
  match r with
  | QText s =>
      match parse_int s with
      | Some seconds => ret seconds
      | None => raise ValueError
      end
  | _ => raise TypeError
  end.
End Client.

(** ** What the specification says, for comparison *)

(** Masking as the code performs it, on documents: inside a dict a value
    that is itself a dict is visited, any other value under a secret key
    becomes the mask; nothing else is touched, and lists are not entered. *)
Fixpoint mask_doc (t : doc) : doc :=
  match t with
  | DDict items =>
      DDict (map (fun kt =>
                    match kt.2 with
                    | DDict _ => (kt.1, mask_doc kt.2)
                    | _ => if is_secret_key kt.1 then (kt.1, DStr MASK)
                           else kt
                    end) items)
  | _ => t
  end.

(** Masking as the specification words it: every container is visited,
    lists included, and the value of a secret key becomes the mask
    whatever its type. *)
Fixpoint mask_claimed (t : doc) : doc :=
  match t with
  | DDict items =>
      DDict (map (fun kt =>
                    if is_secret_key kt.1 then (kt.1, DStr MASK)
                    else (kt.1, mask_claimed kt.2)) items)
  | DList elems => DList (map mask_claimed elems)
  | _ => t
  end.

(** File names in lexicographic order, as the specification has the
    override directory merged. *)
Fixpoint insert_sorted (name : string) (names : list string) : list string :=
  match names with
  | [] => [name]
  | n :: names' =>
      if String.leb name n then name :: names
      else n :: insert_sorted name names'
  end.

Definition sort_names (names : list string) : list string :=
  foldr insert_sorted [] names.

(** The value found by following a path of keys through nested dicts. *)
Fixpoint lookup_path (path : list string) (t : doc) : option doc :=
  match path with
  | [] => Some t
  | k :: path' =>
      match t with
      | DDict items =>
          match Dict.get k items with
          | Some t' => lookup_path path' t'
          | None => None
          end
      | _ => None
      end
  end.

Definition is_mapping (t : doc) : bool :=
  match t with DDict _ => true | _ => false end.

(** A document leaves a path alone when, following the path, it runs into
    a dict that lacks the next key. *)
Fixpoint leaves_alone (path : list string) (t : doc) : bool :=
  match path with
  | [] => false
  | k :: path' =>
      match t with
      | DDict items =>
          match Dict.get k items with
          | Some t' => leaves_alone path' t'
          | None => true
          end
      | _ => false
      end
  end.

(** The state in which attempt [k+1] of [f] starts when the attempts
    before it all ended in a retried exception: after each of them the
    back-off bound of its number is recorded. *)
Fixpoint attempt_start {A} (max_interval : Q) (f : M cstate A) (k : nat)
    (st : cstate) : cstate :=
  match k with
  | O => st
  | S k' =>
      log_wait (wait_high max_interval (S k'))
               (snd (f (attempt_start max_interval f k' st)))
  end.

(** Attempt [k+1] ends in an exception of the retried kind. *)
Definition attempt_retried {A} (ex : exn -> bool) (mi : Q) (f : M cstate A)
    (st : cstate) (k : nat) : Prop :=
  exists e, fst (f (attempt_start mi f k st)) = Raise e /\ ex e = true.

(** Attempt [k+1] ends the call: it returns, or raises an exception that
    is not retried. *)
Definition attempt_final {A} (ex : exn -> bool) (mi : Q) (f : M cstate A)
    (st : cstate) (k : nat) : Prop :=
  match fst (f (attempt_start mi f k st)) with
  | Return _ => True
  | Raise e => ex e = false
  end.

(** What a call may leave behind: requests that satisfy [P] and back-off
    bounds between 0 and 5 seconds, while the timeout of the client stays
    as it is. *)
Definition extends (P : request -> Prop) (st st' : cstate) : Prop :=
  _timeout (client st') = _timeout (client st)
  /\ (exists ps, posts st' = posts st ++ ps /\ Forall P ps)
  /\ (exists ws, waits st' = waits st ++ ws
                 /\ Forall (fun w => 0 <= w /\ w <= 5)%Q ws).

Definition keeps (d : Z) (P : request -> Prop) {A} (m : M cstate A) : Prop :=
  forall st, _timeout (client st) = d -> extends P st (snd (m st)).

(** [max(self._timeout, timeout or 0)] under client default [d]: a
    missing override counts as 0. *)
Definition effective_timeout (d : Z) (timeout : option Z) : Z :=
  Z.max d (match timeout with Some t => t | None => 0 end).

(** A request of the version query that rendering may issue: a call of
    [query] of its own, made without override under client default [d]. *)
Definition nested_version_request (d : Z) (rq : request) : Prop :=
  Dict.get "query" (req_params rq) = Some "SELECT version()"
  /\ req_timeout rq = effective_timeout d None.

(** The query text of a request. *)
Definition req_query (rq : request) : option string :=
  Dict.get "query" (req_params rq).

(** A status in the 2xx range. *)
Definition is_2xx (resp : response) : bool :=
  ((200 <=? status_code resp) && (status_code resp <? 300))%Z.

(** ** Documents in the heap *)

(** [rep h t v lo hi]: in the heap [h] the value [v] stands for the
    document [t], and the objects it is made of lie at addresses from [lo]
    up to (not including) [hi], the objects of different children at
    disjoint ranges: a tree without sharing, as a parser or a deep copy
    builds it. *)
Inductive rep (h : list obj) : doc -> val -> nat -> nat -> Prop :=
| rep_none lo hi : lo <= hi -> rep h DNone VNone lo hi
| rep_str s lo hi : lo <= hi -> rep h (DStr s) (VStr s) lo hi
| rep_dict items vs lo a hi :
    reps_items h items vs lo a -> a < hi -> h !! a = Some (ODict vs) ->
    rep h (DDict items) (VRef a) lo hi
| rep_list elems vs lo a hi :
    reps_elems h elems vs lo a -> a < hi -> h !! a = Some (OList vs) ->
    rep h (DList elems) (VRef a) lo hi
with reps_items (h : list obj)
  : list (string * doc) -> list (string * val) -> nat -> nat -> Prop :=
| reps_items_nil lo hi : lo <= hi -> reps_items h [] [] lo hi
| reps_items_cons k t v items vs lo mid hi :
    rep h t v lo mid -> reps_items h items vs mid hi ->
    reps_items h ((k, t) :: items) ((k, v) :: vs) lo hi
with reps_elems (h : list obj)
  : list doc -> list val -> nat -> nat -> Prop :=
| reps_elems_nil lo hi : lo <= hi -> reps_elems h [] [] lo hi
| reps_elems_cons t v elems vs lo mid hi :
    rep h t v lo mid -> reps_elems h elems vs mid hi ->
    reps_elems h (t :: elems) (v :: vs) lo hi.

Scheme rep_mut := Minimality for rep Sort Prop
  with reps_items_mut := Minimality for reps_items Sort Prop
  with reps_elems_mut := Minimality for reps_elems Sort Prop.
Combined Scheme rep_mutind from rep_mut, reps_items_mut, reps_elems_mut.

(** What masking makes of one entry of a dict. *)
Definition mask_entry (kt : string * doc) : string * doc :=
  match kt.2 with
  | DDict _ => (kt.1, mask_doc kt.2)
  | _ => if is_secret_key kt.1 then (kt.1, DStr MASK) else kt
  end.

(** Two heaps hold the same objects at the addresses of the first. *)
Definition preserved (h h' : list obj) : Prop :=
  forall a o, h !! a = Some o -> h' !! a = Some o.

(** ** Sections and their include markers *)

(** The addresses of the values of a dict that are objects. *)
Definition refs (d : list (string * val)) : list nat :=
  flat_map (fun kv => match kv.2 with VRef c => [c] | _ => [] end) d.

Fixpoint nodup_addrs (l : list nat) : bool :=
  match l with
  | [] => true
  | a :: l' => negb (existsb (Nat.eqb a) l') && nodup_addrs l'
  end.

(** The marker a section carries: the string under [@incl] of a dict
    section, when it is not empty. *)
Definition marker (h : list obj) (v : val) : option string :=
  match v with
  | VRef a =>
      match h !! a with
      | Some (ODict section) =>
          match Dict.get "@incl" section with
          | Some (VStr incl) => if String.eqb incl "" then None else Some incl
          | _ => None
          end
      | _ => None
      end
  | _ => None
  end.

(** XML attributes are strings: under [@incl] a dict section has a string
    or nothing. *)
Definition attr_ok (h : list obj) (v : val) : bool :=
  match v with
  | VRef a =>
      match h !! a with
      | Some (ODict section) =>
          match Dict.get "@incl" section with
          | Some (VStr _) | None => true
          | _ => false
          end
      | _ => true
      end
  | _ => true
  end.

(** A value that is not a dict with an [@incl] key. *)
Definition has_no_marker (h : list obj) (v : val) : bool :=
  match v with
  | VRef a =>
      match h !! a with
      | Some (ODict section) => negb (Dict.mem "@incl" section)
      | _ => true
      end
  | _ => true
  end.

(** The root section as a parser leaves it: unique keys, children that are
    objects of their own (none shared, none the root itself), string
    attributes. *)
Definition wf_sections (h : list obj) (r : nat) (root : list (string * val))
  : bool :=
  nodup_keys (Dict.keys root) && nodup_addrs (r :: refs root)
  && forallb (fun kv => attr_ok h kv.2) root.

(** What the pass needs of an entry other than [key] for the section
    [key] and its target [incl] to be left in peace: when the entry is
    marked, its marker names neither of the two and it is not [incl]
    itself. *)
Definition other_ok (h : list obj) (key incl : string) (kv : string * val)
  : Prop :=
  kv.1 <> key /\ attr_ok h kv.2 = true
  /\ forall m, marker h kv.2 = Some m -> m <> incl /\ m <> key /\ kv.1 <> incl.

(** ** Further notions used in the properties *)

(** A string that starts, or ends, with whitespace. *)
Definition head_space (s : string) : bool :=
  match s with
  | String c _ => PyStr.isspace c
  | EmptyString => false
  end.

Fixpoint last_space (s : string) : bool :=
  match s with
  | EmptyString => false
  | String c EmptyString => PyStr.isspace c
  | String _ s' => last_space s'
  end.

(** The number of occurrences of a character. *)
Definition count_char (c : ascii) (s : string) : nat :=
  count_occ ascii_dec (PyStr.chars s) c.

(** A request for the server version. *)
Definition is_version_request (rq : request) : Prop :=
  Dict.get "query" (req_params rq) = Some "SELECT version()".

(** The formats whose response is parsed as JSON. *)
Definition is_json_format (format : option string) : bool :=
  match format with
  | Some f => String.eqb f "JSON" || String.eqb f "JSONCompact"
  | None => false
  end.

(** The line [print(query, '\n')] writes. *)
Definition echo_line (query : string) : string :=
  (query ++ " " ++ String "010" (String "010" ""))%string.

(** The sum of a list of waits. *)
Definition Qsum (ws : list Q) : Q := fold_right Qplus 0%Q ws.

(** The three value accessors of [ClickhouseKeeperConfig], each with the
    key of [keeper_server] it reads. *)
Definition keeper_accessors
  : list ((heap -> ClickhouseKeeperConfig -> outcome val) * string) :=
  [(keeper_port, "tcp_port");
   (keeper_snapshots_dir, "snapshot_storage_path");
   (keeper_storage_dir, "storage_path")].

(** The value [config.get('clickhouse', config.get('yandex', {}))] finds,
    [None] standing for the default. *)
Definition root_value (top : list (string * val)) : option val :=
  match Dict.get "clickhouse" top with
  | Some v => Some v
  | None => Dict.get "yandex" top
  end.

(** ** Sample collaborators, for the examples *)

(** A server that refuses the first four connections and then answers. *)
Definition flaky_net : Net := {|
  transport := fun n _ =>
    if (n <? 4)%nat then PostRaises (ConnectionError "refused")
    else PostReturns {| status_code := 200; text := "ok " |};
  jinja := fun q _ => TOut q;
  version_ge := fun _ _ => true;
  json_loads := fun _ => None;
  parse_int := fun _ => None
|}.

(** A server that refuses every connection. *)
Definition down_net : Net := {|
  transport := fun _ _ => PostRaises (ConnectionError "refused");
  jinja := fun q _ => TOut q;
  version_ge := fun _ _ => true;
  json_loads := fun _ => None;
  parse_int := fun _ => None
|}.

(** A server that answers every request with the given status and text. *)
Definition fixed_net (status : Z) (body : string) : Net := {|
  transport := fun _ _ =>
    PostReturns {| status_code := status; text := body |};
  jinja := fun q _ => TOut q;
  version_ge := fun _ _ => true;
  json_loads := fun _ => None;
  parse_int := fun _ => None
|}.

(** A server that fails the first request with status 500 and answers the
    later ones with its version. *)
Definition recovering_net : Net := {|
  transport := fun n _ =>
    if (n =? 0)%nat
    then PostReturns {| status_code := 500; text := "busy" |}
    else PostReturns {| status_code := 200; text := "22.3.2.1" |};
  jinja := fun q _ => TVersionGe "22.1" (fun b => TOut (if b then q else ""));
  version_ge := fun _ _ => true;
  json_loads := fun _ => None;
  parse_int := fun _ => None
|}.

(** A freshly constructed client that has done nothing yet. *)
Definition fresh_state : cstate := {|
  client := ClickhouseClient_init "localhost" None (Some "_admin") None None
              false;
  posts := [];
  stdout := [];
  waits := []
|}.

(** A parser that knows a handful of files by their content. *)
Definition sample_files : list (string * list (string * doc)) :=
  [("<clickhouse><x>0</x></clickhouse>",
    [("clickhouse", DDict [("x", DStr "0")])]);
   ("<clickhouse><y>1</y></clickhouse>",
    [("clickhouse", DDict [("y", DStr "1")])]);
   ("<clickhouse><x>a</x></clickhouse>",
    [("clickhouse", DDict [("x", DStr "a")])]);
   ("<clickhouse><x>b</x></clickhouse>",
    [("clickhouse", DDict [("x", DStr "b")])])].

Definition sample_xml : XmlLib := {|
  xml_parse := fun content => Dict.get content sample_files;
  xml_unparse := fun _ => None
|}.

(** A server without preprocessed config whose override directory holds
    [a.xml] and [b.xml], listed in the given order. *)
Definition sample_fs (listing : list string) : filesystem := {|
  fs_exists := fun path =>
    String.eqb path CLICKHOUSE_SERVER_MAIN_CONFIG_PATH
    || String.eqb path CLICKHOUSE_SERVER_CLUSTER_CONFIG_PATH;
  fs_read := fun path =>
    Dict.get path
      [(CLICKHOUSE_SERVER_MAIN_CONFIG_PATH,
        "<clickhouse><x>0</x></clickhouse>");
       (CLICKHOUSE_SERVER_CLUSTER_CONFIG_PATH,
        "<clickhouse><y>1</y></clickhouse>");
       (path_join CLICKHOUSE_SERVER_CONFIGD_PATH "a.xml",
        "<clickhouse><x>a</x></clickhouse>");
       (path_join CLICKHOUSE_SERVER_CONFIGD_PATH "b.xml",
        "<clickhouse><x>b</x></clickhouse>")];
  fs_listdir := fun path =>
    if String.eqb path CLICKHOUSE_SERVER_CONFIGD_PATH then Some listing
    else None
|}.

(** The view over a document placed in an empty heap. *)
Definition view_of (t : doc) : heap * ClickhouseConfig :=
  let '(v, h) := alloc t [] in
  (h, {| cfg_config := v; preprocessed := false |}).

(** A small server config, and two documents on which masking stops short
    of what the specification says. *)
Definition sample_config : doc :=
  DDict [("clickhouse",
          DDict [("password", DStr "secret123"); ("tcp_port", DStr "9000")])].

Definition replicas_config : doc :=
  DDict [("replica",
          DList [DDict [("host", DStr "a"); ("password", DStr "p1")];
                 DDict [("host", DStr "b"); ("password", DStr "p2")]])].

Definition nested_header_config : doc :=
  DDict [("header", DDict [("name", DStr "X-Token"); ("value", DStr "t0k")])].

(** Configs for the include pass: one section that includes a sibling, and
    two sections that name the same sibling. *)
Definition include_config : doc :=
  DDict [("clickhouse",
          DDict [("foo", DDict [("@incl", DStr "bar"); ("y", DStr "2")]);
                 ("bar", DDict [("x", DStr "1")]);
                 ("baz", DStr "text")])].

Definition shared_include_config : doc :=
  DDict [("clickhouse",
          DDict [("a", DDict [("@incl", DStr "c")]);
                 ("b", DDict [("@incl", DStr "c")]);
                 ("c", DDict [("x", DStr "1")])])].

(** The same server with a text file beside the two overrides: it can be
    read, but it is not XML. *)
Definition notes_fs : filesystem := {|
  fs_exists := fs_exists (sample_fs ["a.xml"; "NOTES"; "b.xml"]);
  fs_read := fun path =>
    if String.eqb path (path_join CLICKHOUSE_SERVER_CONFIGD_PATH "NOTES")
    then Some "see the wiki"
    else fs_read (sample_fs ["a.xml"; "NOTES"; "b.xml"]) path;
  fs_listdir := fs_listdir (sample_fs ["a.xml"; "NOTES"; "b.xml"])
|}.

(** * Properties *)

(** ** Strings *)

Module PyStrFacts.
Import PyStr.

Lemma find_ge (c : ascii) (s : string) : (-1 <= find c s)%Z.
Proof.
  induction s as [|d s IH]; simpl; [lia|].
  destruct (Ascii.eqb d c); [lia|].
  destruct (find c s <? 0)%Z eqn:E; lia.
Qed.

Lemma find_neg_iff (c : ascii) (s : string) :
  (find c s < 0)%Z <-> ~ In c (chars s).
Proof.
  induction s as [|d s IH]; simpl.
  - split; [tauto | lia].
  - destruct (Ascii.eqb d c) eqn:E.
    + apply Ascii.eqb_eq in E. split; [lia | tauto].
    + apply Ascii.eqb_neq in E. pose proof (find_ge c s).
      destruct (find c s <? 0)%Z eqn:F.
      * apply Z.ltb_lt in F. split; [|lia].
        intros _ [?|?]; [done|]. apply IH in F. done.
      * apply Z.ltb_ge in F. split; [lia|].
        intros Hn. exfalso. apply Hn. right.
        destruct (in_dec ascii_dec c (chars s)) as [?|Hn']; [done|].
        apply IH in Hn'. lia.
Qed.

Lemma split_nonempty (c : ascii) (s : string) : split c s <> [].
Proof.
  induction s as [|d s IH]; simpl; [done|].
  destruct (Ascii.eqb d c); [done|]. destruct (split c s); done.
Qed.

Lemma concat_cons (sep x : string) (xs : list string) :
  xs <> [] ->
  String.concat sep (x :: xs) = (x ++ sep ++ String.concat sep xs)%string.
Proof. destruct xs; [done|]. reflexivity. Qed.

Lemma concat_head (sep : string) (d : ascii) (p : string)
    (ps : list string) :
  String.concat sep (String d p :: ps) = String d (String.concat sep (p :: ps)).
Proof. destruct ps; reflexivity. Qed.

(** Joining the pieces of a split with the separator gives the string
    back. *)
Lemma join_split (c : ascii) (s : string) :
  join (String c "") (split c s) = s.
Proof.
  unfold join. induction s as [|d s IH]; simpl; [done|].
  destruct (Ascii.eqb d c) eqn:E.
  - apply Ascii.eqb_eq in E. subst d.
    rewrite concat_cons by apply split_nonempty. simpl. by rewrite IH.
  - pose proof (split_nonempty c s) as Hne.
    destruct (split c s) as [|p ps]; [done|].
    rewrite concat_head. by rewrite IH.
Qed.

(** No piece of a split holds the separator. *)
Lemma split_no_sep (c : ascii) (s : string) :
  Forall (fun p => ~ In c (chars p)) (split c s).
Proof.
  induction s as [|d s IH]; simpl.
  - constructor; [simpl; tauto | constructor].
  - destruct (Ascii.eqb d c) eqn:E.
    + constructor; [simpl; tauto | done].
    + apply Ascii.eqb_neq in E.
      pose proof (split_nonempty c s) as Hne.
      destruct (split c s) as [|p ps]; [done|]. inversion IH; subst.
      constructor; [|done]. simpl. intros [?|?]; done.
Qed.

Lemma span_space_length (s : string) :
  String.length (snd (span_space s)) <= String.length s.
Proof.
  induction s as [|c s IH]; simpl; [lia|].
  destruct (isspace c); simpl; [|lia].
  destruct (span_space s); simpl in *. lia.
Qed.

Lemma span_space_true_length (c : ascii) (s : string) :
  fst (span_space (String c s)) = true ->
  String.length (snd (span_space (String c s))) <= String.length s.
Proof.
  simpl. destruct (isspace c); simpl; [|done].
  pose proof (span_space_length s). destruct (span_space s); simpl in *. lia.
Qed.

Lemma span_space_false_head (c : ascii) (s : string) :
  fst (span_space (String c s)) = false -> c <> "010"%char.
Proof.
  simpl. destruct (isspace c) eqn:E; simpl.
  - destruct (span_space s); simpl.
    intros Hor. apply orb_false_iff in Hor as [Hc _].
    by apply Ascii.eqb_neq in Hc.
  - intros _ ->. vm_compute in E. done.
Qed.

Lemma span_space_true_newline (s : string) :
  fst (span_space s) = true -> In "010"%char (chars s).
Proof.
  induction s as [|c s IH]; simpl; [done|].
  destruct (isspace c); simpl; [|done].
  destruct (span_space s); simpl in *.
  intros Hor. apply orb_true_iff in Hor as [Hc|Hnl].
  - apply Ascii.eqb_eq in Hc. by left.
  - right. by apply IH.
Qed.

Lemma sub_newline_runs_cons (fuel : nat) (c : ascii) (s : string) :
  sub_newline_runs (S fuel) (String c s) =
  match span_space (String c s) with
  | (true, rest) => String " "%char (sub_newline_runs fuel rest)
  | (false, _) => String c (sub_newline_runs fuel s)
  end.
Proof. reflexivity. Qed.

(** After the substitution no newline is left. *)
Lemma sub_newline_runs_no_newline (fuel : nat) (s : string) :
  String.length s <= fuel ->
  ~ In "010"%char (chars (sub_newline_runs fuel s)).
Proof.
  revert s. induction fuel as [|fuel IH]; intros s Hlen.
  - destruct s; simpl in *; [tauto | lia].
  - destruct s as [|c s]; [simpl; tauto|].
    rewrite sub_newline_runs_cons.
    pose proof (span_space_true_length c s) as Hlt.
    pose proof (span_space_false_head c s) as Hhd.
    destruct (span_space (String c s)) as [[|] rest]; simpl in Hlt, Hhd.
    + simpl. intros [Hc|Hin]; [discriminate|].
      revert Hin. apply IH. simpl in Hlen. specialize (Hlt eq_refl). lia.
    + simpl. intros [Hc|Hin]; [by apply Hhd|].
      revert Hin. apply IH. simpl in Hlen. lia.
Qed.

Lemma re_sub_newlines_no_newline (s : string) :
  ~ In "010"%char (chars (re_sub_newlines s)).
Proof. by apply sub_newline_runs_no_newline. Qed.

(** A string without newline is left as it is. *)
Lemma sub_newline_runs_id (fuel : nat) (s : string) :
  ~ In "010"%char (chars s) -> sub_newline_runs fuel s = s.
Proof.
  revert s. induction fuel as [|fuel IH]; intros s Hs; [done|].
  destruct s as [|c s]; [done|]. rewrite sub_newline_runs_cons.
  pose proof (span_space_true_newline (String c s)) as Hnl.
  destruct (span_space (String c s)) as [[|] rest]; simpl in Hnl.
  - by destruct Hs; apply Hnl.
  - f_equal. apply IH. intros Hin. apply Hs. by right.
Qed.

Lemma re_sub_newlines_id (s : string) :
  ~ In "010"%char (chars s) -> re_sub_newlines s = s.
Proof. apply sub_newline_runs_id. Qed.

End PyStrFacts.

(** ** String-match helpers *)

(** C8: [_format_str_match] gives no clause for [None], [LIKE '<value>']
    for a value without a comma, and otherwise [IN ('<a>','<b>',...)] over
    the comma-separated items, each stripped of surrounding whitespace;
    [_format_str_imatch] is the same on the lowercased value. *)
Theorem format_str_match_spec :
  _format_str_match None = None
  /\ (forall v, ~ In ","%char (PyStr.chars v) ->
        _format_str_match (Some v) = Some ("LIKE '" ++ v ++ "'")%string)
  /\ (forall v, In ","%char (PyStr.chars v) ->
        exists items,
          PyStr.join "," items = v
          /\ Forall (fun i => ~ In ","%char (PyStr.chars i)) items
          /\ _format_str_match (Some v) =
             Some ("IN (" ++
                   PyStr.join ","
                     (map (fun i => "'" ++ PyStr.strip i ++ "'")%string items)
                   ++ ")")%string)
  /\ _format_str_imatch None = None
  /\ (forall v, _format_str_imatch (Some v) =
                _format_str_match (Some (PyStr.lower v)))
  /\ _format_str_match (Some "abc") = Some "LIKE 'abc'"
  /\ _format_str_match (Some "a, b,c") = Some "IN ('a','b','c')".
Proof.
  repeat split; try reflexivity.
  - intros v Hv. apply PyStrFacts.find_neg_iff in Hv.
    unfold _format_str_match. apply Z.ltb_lt in Hv. by rewrite Hv.
  - intros v Hv. exists (PyStr.split "," v).
    split; [apply PyStrFacts.join_split|].
    split; [apply PyStrFacts.split_no_sep|].
    unfold _format_str_match.
    destruct (PyStr.find "," v <? 0)%Z eqn:E; [|done].
    apply Z.ltb_lt, PyStrFacts.find_neg_iff in E. done.
Qed.

Lemma format_str_match_spec_witness :
  _format_str_match (Some "x y") = Some "LIKE 'x y'"
  /\ exists items,
       PyStr.join "," items = "k , l"
       /\ Forall (fun i => ~ In ","%char (PyStr.chars i)) items
       /\ _format_str_match (Some "k , l") =
          Some ("IN (" ++
                PyStr.join ","
                  (map (fun i => "'" ++ PyStr.strip i ++ "'")%string items)
                ++ ")")%string.
Proof.
  destruct format_str_match_spec as (_ & Hlike & Hin & _).
  split.
  - apply (Hlike "x y"). vm_compute. intros [?|[?|[?|?]]]; done.
  - apply (Hin "k , l"). vm_compute. tauto.
Defined.

(** ** Dicts *)

Module DictFacts.
Section Facts.
Context {V : Type}.
Implicit Types (d : list (string * V)) (k : string) (v : V).

Lemma get_set_eq k v d : Dict.get k (Dict.set k v d) = Some v.
Proof.
  induction d as [|[k' v'] d IH]; simpl.
  - by rewrite String.eqb_refl.
  - destruct (String.eqb k' k) eqn:E; simpl; rewrite E; done.
Qed.

Lemma get_set_ne k k' v d :
  k <> k' -> Dict.get k' (Dict.set k v d) = Dict.get k' d.
Proof.
  intros Hne. induction d as [|[k0 v0] d IH]; simpl.
  - apply String.eqb_neq in Hne. by rewrite Hne.
  - destruct (String.eqb k0 k) eqn:E; simpl.
    + apply String.eqb_eq in E. subst k0.
      apply String.eqb_neq in Hne. by rewrite Hne.
    + by rewrite IH.
Qed.

Lemma get_del_ne k k' d :
  k <> k' -> Dict.get k' (Dict.del k d) = Dict.get k' d.
Proof.
  intros Hne. induction d as [|[k0 v0] d IH]; simpl; [done|].
  destruct (String.eqb k0 k) eqn:E; simpl.
  - apply String.eqb_eq in E. subst k0.
    apply String.eqb_neq in Hne. by rewrite Hne.
  - by rewrite IH.
Qed.

Lemma get_None_keys k d : Dict.get k d = None <-> ~ In k (Dict.keys d).
Proof.
  induction d as [|[k0 v0] d IH]; simpl; [tauto|].
  destruct (String.eqb k0 k) eqn:E.
  - apply String.eqb_eq in E. split; [done | tauto].
  - apply String.eqb_neq in E. rewrite IH. tauto.
Qed.

Lemma get_del_eq k d :
  NoDup (Dict.keys d) -> Dict.get k (Dict.del k d) = None.
Proof.
  induction d as [|[k0 v0] d IH]; simpl; [done|].
  intros Hnd. apply NoDup_cons in Hnd as [Hnin Hnd].
  destruct (String.eqb k0 k) eqn:E; simpl.
  - apply String.eqb_eq in E. subst k0.
    apply get_None_keys. by rewrite <- list_elem_of_In.
  - rewrite E. by apply IH.
Qed.

Lemma keys_set_in k v d :
  In k (Dict.keys d) -> Dict.keys (Dict.set k v d) = Dict.keys d.
Proof.
  induction d as [|[k0 v0] d IH]; simpl; [done|].
  intros Hin. destruct (String.eqb k0 k) eqn:E; simpl; [done|].
  apply String.eqb_neq in E. f_equal. apply IH. tauto.
Qed.

Lemma keys_set_notin k v d :
  ~ In k (Dict.keys d) -> Dict.keys (Dict.set k v d) = Dict.keys d ++ [k].
Proof.
  induction d as [|[k0 v0] d IH]; simpl; [done|].
  intros Hin. destruct (String.eqb k0 k) eqn:E; simpl.
  - apply String.eqb_eq in E. tauto.
  - f_equal. apply IH. tauto.
Qed.

Lemma NoDup_keys_set k v d :
  NoDup (Dict.keys d) -> NoDup (Dict.keys (Dict.set k v d)).
Proof.
  intros Hnd. destruct (in_dec string_dec k (Dict.keys d)) as [Hin|Hin].
  - by rewrite keys_set_in.
  - rewrite keys_set_notin by done. apply NoDup_app. split; [done|].
    split; [|apply NoDup_singleton].
    intros x Hx Hx'. apply list_elem_of_In in Hx.
    apply list_elem_of_singleton in Hx'. by subst.
Qed.

Lemma keys_del_sub k k' d : In k' (Dict.keys (Dict.del k d)) -> In k' (Dict.keys d).
Proof.
  induction d as [|[k0 v0] d IH]; simpl; [done|].
  destruct (String.eqb k0 k); simpl; tauto.
Qed.

Lemma NoDup_keys_del k d :
  NoDup (Dict.keys d) -> NoDup (Dict.keys (Dict.del k d)).
Proof.
  induction d as [|[k0 v0] d IH]; simpl; [done|].
  intros Hnd. apply NoDup_cons in Hnd as [Hnin Hnd].
  destruct (String.eqb k0 k); simpl; [done|].
  apply NoDup_cons. split; [|by apply IH].
  rewrite list_elem_of_In in *. intros Hin. apply Hnin.
  by apply keys_del_sub in Hin.
Qed.
End Facts.
End DictFacts.

(** ** The retry policy *)

Section RetryFacts.
Context {A : Type}.
Implicit Types (f : M cstate A) (st : cstate) (ex : exn -> bool).

Lemma retry_loop_skip ex mi f st more k :
  k <= more ->
  (forall j, j < k -> attempt_retried ex mi f st j) ->
  retry_loop ex mi more 1 f st =
  retry_loop ex mi (more - k) (S k) f (attempt_start mi f k st).
Proof.
  induction k as [|k IH]; intros Hk Hfail.
  - by rewrite Nat.sub_0_r.
  - rewrite IH by (try lia; intros; apply Hfail; lia).
    destruct (Hfail k) as (e & He & Hex); [lia|].
    replace (more - k) with (S (more - S k)) by lia.
    simpl. destruct (f (attempt_start mi f k st)) as [o st'] eqn:E.
    simpl in He. subst o. by rewrite Hex.
Qed.

(** The first attempt that is final gives the result of the call. *)
Lemma retry_stats_final ex mi f st n k :
  S k <= n ->
  (forall j, j < k -> attempt_retried ex mi f st j) ->
  attempt_final ex mi f st k ->
  retry_stats ex n mi f st = (f (attempt_start mi f k st), S k).
Proof.
  intros Hk Hfail Hfin. unfold retry_stats.
  rewrite (retry_loop_skip ex mi f st (n - 1) k) by (done || lia).
  unfold attempt_final in Hfin.
  destruct (n - 1 - k); simpl;
    destruct (f (attempt_start mi f k st)) as [[a|e] st'];
    simpl in *; try rewrite Hfin; done.
Qed.

(** When every allowed attempt is retried, the last exception is raised
    as it is. *)
Lemma retry_stats_exhausted ex mi f st n :
  (forall j, j < S n -> attempt_retried ex mi f st j) ->
  retry_stats ex (S n) mi f st = (f (attempt_start mi f n st), S n).
Proof.
  intros Hfail. unfold retry_stats.
  rewrite (retry_loop_skip ex mi f st (S n - 1) n)
    by (try lia; intros; apply Hfail; lia).
  destruct (Hfail n) as (e & He & Hex); [lia|].
  replace (S n - 1 - n) with 0 by lia. simpl.
  destruct (f (attempt_start mi f n st)) as [o st'].
  simpl in He. subst o. by rewrite Hex.
Qed.

(** Never more attempts than allowed, and at least one. *)
Lemma retry_loop_attempts ex mi f st more n :
  n <= snd (retry_loop ex mi more n f st) <= n + more.
Proof.
  revert n st. induction more as [|more IH]; intros n st; simpl.
  - destruct (f st) as [[a|e] st']; simpl; [lia|].
    destruct (ex e); simpl; lia.
  - destruct (f st) as [[a|e] st']; simpl; [lia|].
    destruct (ex e); simpl; [|lia].
    specialize (IH (S n) (log_wait (wait_high mi n) st')). lia.
Qed.

(** A value returned by the call was returned by one of its attempts. *)
Lemma retry_loop_return ex mi f more n st a :
  fst (fst (retry_loop ex mi more n f st)) = Return a ->
  exists st0, fst (f st0) = Return a.
Proof.
  revert n st. induction more as [|more IH]; intros n st; simpl.
  - destruct (f st) as [[a'|e] st'] eqn:E; simpl.
    + intros [= ->]. exists st. by rewrite E.
    + destruct (ex e); simpl; done.
  - destruct (f st) as [[a'|e] st'] eqn:E; simpl.
    + intros [= ->]. exists st. by rewrite E.
    + destruct (ex e); simpl; [|done]. apply IH.
Qed.

(** A call is its attempts: the outcome and the final state are those of
    the last attempt made, and every attempt before it was retried. *)
Lemma retry_loop_last ex mi f st0 more :
  forall n st,
    st = attempt_start mi f n st0 ->
    (forall j, j < n -> attempt_retried ex mi f st0 j) ->
    let run := retry_loop ex mi more (S n) f st in
    S n <= snd run
    /\ fst run = f (attempt_start mi f (snd run - 1) st0)
    /\ (forall j, j < snd run - 1 -> attempt_retried ex mi f st0 j).
Proof.
  induction more as [|more IH]; intros n st -> Hfail; simpl.
  - destruct (f (attempt_start mi f n st0)) as [[a|e] st'] eqn:E; simpl.
    + rewrite Nat.sub_0_r, E. done.
    + destruct (ex e); simpl; by rewrite Nat.sub_0_r, E.
  - destruct (f (attempt_start mi f n st0)) as [[a|e] st'] eqn:E; simpl.
    + rewrite Nat.sub_0_r, E. done.
    + destruct (ex e) eqn:Ee; simpl; [|by rewrite Nat.sub_0_r, E].
      destruct (IH (S n) (log_wait (wait_high mi (S n)) st')) as (H1 & H2 & H3).
      * simpl. by rewrite E.
      * intros j Hj. destruct (Nat.eq_dec j n) as [->|Hne].
        -- exists e. by rewrite E.
        -- apply Hfail. lia.
      * split; [lia|]. done.
Qed.

Lemma retry_stats_last ex mi f st n :
  let run := retry_stats ex n mi f st in
  1 <= snd run
  /\ fst run = f (attempt_start mi f (snd run - 1) st)
  /\ (forall j, j < snd run - 1 -> attempt_retried ex mi f st j).
Proof.
  unfold retry_stats. apply (retry_loop_last ex mi f st (n - 1) 0 st).
  - done.
  - intros j Hj. lia.
Qed.
End RetryFacts.

Lemma wait_high_bounds (n : nat) : (0 <= wait_high 5 n /\ wait_high 5 n <= 5)%Q.
Proof.
  unfold wait_high. split.
  - apply Q.le_max_l.
  - apply Q.max_lub; [done|]. apply Q.le_min_r.
Qed.

(** ** The query client *)

Section ClientFacts.
Context `{Net}.
Implicit Types (st : cstate) (P : request -> Prop).

Lemma extends_refl P st : extends P st st.
Proof.
  split; [done|]. split; exists []; by rewrite app_nil_r.
Qed.

Lemma extends_trans P st1 st2 st3 :
  extends P st1 st2 -> extends P st2 st3 -> extends P st1 st3.
Proof.
  intros (Ht & (ps & Hp & HP) & (ws & Hw & HW))
         (Ht' & (ps' & Hp' & HP') & (ws' & Hw' & HW')).
  split; [congruence|]. split.
  - exists (ps ++ ps'). rewrite Hp', Hp, app_assoc. split; [done|].
    by apply Forall_app.
  - exists (ws ++ ws'). rewrite Hw', Hw, app_assoc. split; [done|].
    by apply Forall_app.
Qed.

Lemma extends_log_wait P st n : extends P st (log_wait (wait_high 5 n) st).
Proof.
  split; [done|]. split.
  - exists []. by rewrite app_nil_r.
  - exists [wait_high 5 n]. split; [done|].
    constructor; [apply wait_high_bounds | constructor].
Qed.

Lemma keeps_ret d P {A} (a : A) : keeps d P (ret a).
Proof. intros st _. apply extends_refl. Qed.

Lemma keeps_raise d P {A} (e : exn) : keeps d P (@raise cstate A e).
Proof. intros st _. apply extends_refl. Qed.

Lemma keeps_bind d P {A B} (m : M cstate A) (k : A -> M cstate B) :
  keeps d P m -> (forall a, keeps d P (k a)) -> keeps d P (bind m k).
Proof.
  intros Hm Hk st Hd. unfold bind. specialize (Hm st Hd).
  destruct (m st) as [[a|e] st1]; simpl in *; [|done].
  eapply extends_trans; [exact Hm|]. apply Hk.
  destruct Hm as [Ht _]. congruence.
Qed.

Lemma keeps_print d P line : keeps d P (print line).
Proof.
  intros st _. split; [done|]. split; exists []; by rewrite app_nil_r.
Qed.

Lemma keeps_set_ch_version d P v : keeps d P (set_ch_version v).
Proof.
  intros st _. split; [done|]. split; exists []; by rewrite app_nil_r.
Qed.

Lemma keeps_session_post d P rq : P rq -> keeps d P (session_post rq).
Proof.
  intros HP st _. unfold session_post.
  assert (extends P st
            {| client := client st; posts := posts st ++ [rq];
               stdout := stdout st; waits := waits st |}) as Hext.
  { split; [done|]. split.
    - exists [rq]. split; [done|]. by constructor.
    - exists []. by rewrite app_nil_r. }
  destruct (transport (length (posts st)) rq); exact Hext.
Qed.

Lemma keeps_retry d P {A} (f : M cstate A) ex n :
  keeps d P f -> keeps d P (retry ex n 5 f).
Proof.
  intros Hf. unfold keeps, retry, retry_stats.
  generalize (n - 1) as more. generalize 1 as k.
  intros k more. revert k. induction more as [|more IH]; intros k st Hd.
  - simpl. specialize (Hf st Hd).
    destruct (f st) as [[a|e] st']; simpl in *; [done|].
    destruct (ex e); done.
  - simpl. specialize (Hf st Hd).
    destruct (f st) as [[a|e] st'] eqn:E; simpl in *; [done|].
    destruct (ex e); [|done].
    eapply extends_trans; [exact Hf|].
    eapply extends_trans; [apply (extends_log_wait P st' k)|].
    apply IH. simpl. destruct Hf as [Ht _]. congruence.
Qed.

Lemma keeps_query_tail d P (q2 : string) fmt pd t (echo dry : bool) :
  (forall self, _timeout self = d -> P (make_request self q2 pd t)) ->
  keeps d P
    (exec (if echo
           then print (q2 ++ " " ++ String "010" (String "010" ""))%string
           else ret tt);
     if dry then ret QNone
     else do st0 <- get_state;
          do resp <- session_post (make_request (client st0) q2 pd t);
          handle_response q2 fmt resp).
Proof.
  intros HP.
  apply keeps_bind; [destruct echo; [apply keeps_print | apply keeps_ret]|].
  intros _. destruct dry; [apply keeps_ret|].
  intros st1 Hd1. unfold bind at 1, get_state. cbv beta iota.
  apply (keeps_bind d P
           (session_post (make_request (client st1) q2 pd t))
           (handle_response q2 fmt)); [| |done].
  - apply keeps_session_post. by apply HP.
  - intros resp. unfold handle_response.
    destruct (is_http_error resp); [apply keeps_raise|].
    destruct fmt as [f|]; [|apply keeps_ret].
    destruct (_ || _); [|apply keeps_ret].
    destruct (json_loads _); [apply keeps_ret | apply keeps_raise].
Qed.

Lemma keeps_query_body d P render q args fmt pd t echo dry :
  (forall a, keeps d P (render q a)) ->
  (forall self q1, _timeout self = d -> (args = None -> q1 = q) ->
     P (make_request self (with_format q1 fmt) pd t)) ->
  keeps d P (query_body render q args fmt pd t echo dry).
Proof.
  intros Hr HP st Hd. unfold query_body, bind at 1.
  assert (extends P st (snd (render_args render q args st))) as Hra.
  { unfold render_args. destruct args as [[|a args]|]; try apply extends_refl.
    by apply Hr. }
  destruct (render_args render q args st) as [[q1|e] st1] eqn:E;
    [|exact Hra].
  assert (args = None -> q1 = q) as Hq.
  { intros ->. simpl in E. by inversion E. }
  eapply extends_trans; [exact Hra|].
  apply (keeps_query_tail d P (with_format q1 fmt) fmt pd t echo dry).
  - intros self Hself. by apply HP.
  - destruct Hra as [Ht _]. simpl in Ht. congruence.
Qed.
Lemma keeps_version_query d P :
  (forall self, _timeout self = d ->
     P (make_request self "SELECT version()" None None)) ->
  keeps d P version_query.
Proof.
  intros HP. unfold version_query, query_with. apply keeps_retry.
  apply keeps_query_body.
  - intros a. apply keeps_ret.
  - intros self q1 Hd Hq. rewrite (Hq eq_refl). by apply HP.
Qed.

Lemma keeps_get_clickhouse_version d P :
  (forall self, _timeout self = d ->
     P (make_request self "SELECT version()" None None)) ->
  keeps d P get_clickhouse_version.
Proof.
  intros HP st Hd. unfold get_clickhouse_version, bind at 1, get_state.
  cbv beta iota.
  destruct (_ch_version (client st)); try apply extends_refl.
  revert st Hd. apply keeps_bind; [by apply keeps_version_query|].
  intros v. apply keeps_bind; [apply keeps_set_ch_version|].
  intros _. apply keeps_ret.
Qed.

Lemma keeps_run_template d P (tm : tmpl) :
  (forall self, _timeout self = d ->
     P (make_request self "SELECT version()" None None)) ->
  keeps d P (run_template tm).
Proof.
  intros HP. induction tm as [s|msg|v k IH|v k IH|v k IH]; simpl.
  - apply keeps_ret.
  - apply keeps_raise.
  - apply keeps_bind; [by apply keeps_get_clickhouse_version|].
    intros cur. apply IH.
  - apply IH.
  - apply IH.
Qed.

Lemma keeps_query q args fmt pd t echo dry :
  forall d, keeps d (fun rq => (d <= req_timeout rq)%Z)
              (query q args fmt pd t echo dry).
Proof.
  intros d. unfold query, query_with. apply keeps_retry.
  apply keeps_query_body.
  - intros a. apply keeps_run_template. intros self Hd. simpl. lia.
  - intros self q1 Hd _. simpl. lia.
Qed.

Lemma nested_version_request_make d self :
  _timeout self = d ->
  nested_version_request d (make_request self "SELECT version()" None None).
Proof.
  intros Hd. split; [apply DictFacts.get_set_eq|].
  simpl. by rewrite Hd.
Qed.

Lemma attempt_start_timeout {A} (f : M cstate A) d st :
  keeps d (fun _ => True) f -> _timeout (client st) = d ->
  forall k, _timeout (client (attempt_start 5 f k st)) = d.
Proof.
  intros Hf Hd. induction k as [|k IH]; [done|]. simpl.
  destruct (Hf _ IH) as [Ht _]. congruence.
Qed.

(** One attempt of [query]: rendering posts nothing but version queries
    made without override; when rendering returns and the call is no dry
    run, the attempt posts exactly one request more, its own. *)
Lemma query_body_attempt q args fmt pd t (echo dry : bool) s :
  let d := _timeout (client s) in
  let body := query_body render_query q args fmt pd t echo dry in
  let r := render_args render_query q args s in
  (exists nested,
      posts (snd r) = posts s ++ nested
      /\ Forall (nested_version_request d) nested
      /\ (args = None -> nested = []))
  /\ match fst r with
     | Return q1 =>
         if dry then posts (snd (body s)) = posts (snd r)
         else exists rq,
             posts (snd (body s)) = posts (snd r) ++ [rq]
             /\ req_timeout rq = effective_timeout d t
             /\ req_query rq = Some (with_format q1 fmt)
     | Raise _ => posts (snd (body s)) = posts (snd r)
     end.
Proof.
  intros d body r.
  assert (extends (nested_version_request d) s (snd r)) as Hext.
  { unfold r, render_args. destruct args as [[|a rest]|];
      try apply extends_refl.
    apply (keeps_run_template d (nested_version_request d)
             (jinja q (a :: rest)) (nested_version_request_make d) s eq_refl). }
  split.
  - destruct Hext as (_ & (ps & Hps & HP) & _). exists ps.
    split; [done|]. split; [done|]. intros ->. simpl in Hps.
    rewrite <- (app_nil_r (posts s)) in Hps at 1.
    by apply app_inv_head in Hps.
  - destruct Hext as (Ht & _). unfold body, query_body, bind.
    subst r. destruct (render_args render_query q args s) as [[q1|e] s1];
      simpl in *; [|done].
    destruct echo, dry; simpl; try done;
      unfold session_post; simpl;
      (eexists; split;
       [ destruct (transport _ _) as [e|resp]; simpl;
         try (unfold handle_response; destruct (is_http_error resp); simpl;
              try destruct fmt as [f|]; simpl;
              try destruct (String.eqb f "JSON"
                            || String.eqb f "JSONCompact");
              try destruct (json_loads (text resp)); simpl);
         reflexivity
       | split;
         [ simpl; unfold effective_timeout; by rewrite Ht
         | unfold req_query; simpl; apply DictFacts.get_set_eq ] ]).
Qed.

(** C7: a call to [query] is its attempts, and in every attempt the one
    request the call itself posts (after rendering returned, and unless it
    is a dry run) carries the timeout [max(client default, override)], a
    missing override counting as 0, whatever the query text.  The only
    other requests are those of the version queries that rendering may
    issue, which are calls of their own without override and carry
    [max(client default, 0)].  So no request is ever below the client
    default, which is 60 when none is given at construction. *)
Theorem query_timeout_spec q args fmt pd t echo dry st :
  let d := _timeout (client st) in
  let body := query_body render_query q args fmt pd t echo dry in
  let run := query q args fmt pd t echo dry st in
  let made := query_attempts q args fmt pd t echo dry st in
  (1 <= made
   /\ snd run = snd (body (attempt_start 5 body (made - 1) st))
   /\ forall k, posts (attempt_start 5 body (S k) st)
                = posts (snd (body (attempt_start 5 body k st))))
  /\ (forall k, k < made ->
        let s := attempt_start 5 body k st in
        let r := render_args render_query q args s in
        _timeout (client s) = d
        /\ (exists nested,
              posts (snd r) = posts s ++ nested
              /\ Forall (nested_version_request d) nested
              /\ (args = None -> nested = []))
        /\ match fst r with
           | Return q1 =>
               if dry then posts (snd (body s)) = posts (snd r)
               else exists rq,
                   posts (snd (body s)) = posts (snd r) ++ [rq]
                   /\ req_timeout rq = effective_timeout d t
                   /\ req_query rq = Some (with_format q1 fmt)
           | Raise _ => posts (snd (body s)) = posts (snd r)
           end)
  /\ (exists ps,
        posts (snd run) = posts st ++ ps
        /\ Forall (fun rq => (d <= req_timeout rq)%Z) ps)
  /\ (forall host port user settings insecure,
        _timeout (ClickhouseClient_init host port user settings None
                    insecure) = 60%Z).
Proof.
  intros d body run made. split; [|split; [|split; [|done]]].
  - destruct (retry_stats_last is_connection_error 5 body st 5)
      as (Hmade & Hlast & _).
    split; [exact Hmade|]. split; [|done].
    unfold run, query, query_with, retry, made, query_attempts.
    fold body. by rewrite Hlast.
  - intros k _ s r.
    assert (_timeout (client s) = d) as Hs.
    { apply attempt_start_timeout; [|done].
      apply keeps_query_body.
      - intros a. by apply keeps_run_template.
      - done. }
    split; [exact Hs|].
    pose proof (query_body_attempt q args fmt pd t echo dry s) as Hatt.
    cbv zeta in Hatt. rewrite Hs in Hatt. exact Hatt.
  - destruct (keeps_query q args fmt pd t echo dry d st eq_refl)
      as (_ & (ps & Hps & HP) & _).
    by exists ps.
Qed.
Lemma retried_connection_error {A} (f : M cstate A) st k :
  attempt_retried is_connection_error 5 f st k ->
  exists msg,
    fst (f (attempt_start 5 f k st)) = Raise (ConnectionError msg).
Proof.
  intros (e & He & Hex). destruct e; try discriminate. by eexists.
Qed.

(** C5: [query] makes at most 5 attempts and retries connection errors
    only: the first attempt that does not end in a connection error ends
    the call with its own outcome; after four connection errors a fifth
    attempt that succeeds gives the result, with exactly 5 attempts; when
    all five attempts end in a connection error the fifth error is
    raised as it is, after exactly 5 attempts; and every back-off wait
    is drawn from an interval bounded by 5 seconds. *)
Theorem query_retry_spec q args fmt pd t echo dry st :
  let body := query_body render_query q args fmt pd t echo dry in
  let run := query q args fmt pd t echo dry st in
  let made := query_attempts q args fmt pd t echo dry st in
  let retried := attempt_retried is_connection_error 5 body st in
  (1 <= made <= 5)
  /\ (forall k, k < 5 -> (forall j, j < k -> retried j) ->
        attempt_final is_connection_error 5 body st k ->
        run = body (attempt_start 5 body k st) /\ made = S k)
  /\ (forall r, (forall j, j < 4 -> retried j) ->
        fst (body (attempt_start 5 body 4 st)) = Return r ->
        fst run = Return r /\ made = 5)
  /\ ((forall j, j < 5 -> retried j) ->
        run = body (attempt_start 5 body 4 st) /\ made = 5
        /\ exists msg, fst run = Raise (ConnectionError msg))
  /\ (exists ws, waits (snd run) = waits st ++ ws
                 /\ Forall (fun w => 0 <= w /\ w <= 5)%Q ws).
Proof.
  intros body run made retried.
  assert (forall k, k < 5 -> (forall j, j < k -> retried j) ->
            attempt_final is_connection_error 5 body st k ->
            run = body (attempt_start 5 body k st) /\ made = S k) as Hfinal.
  { intros k Hk Hfail Hfin.
    pose proof (retry_stats_final is_connection_error 5 body st 5 k
                  ltac:(lia) Hfail Hfin) as E.
    unfold run, made, query, query_with, retry, query_attempts.
    fold body. by rewrite E. }
  split; [|split; [exact Hfinal|split; [|split]]].
  - unfold made, query_attempts, retry_stats. fold body.
    pose proof (retry_loop_attempts is_connection_error 5 body st 4 1).
    simpl in *. lia.
  - intros r Hfail Hr.
    destruct (Hfinal 4 ltac:(lia) Hfail) as [E1 E2].
    { unfold attempt_final. by rewrite Hr. }
    by rewrite E1.
  - intros Hfail.
    pose proof (retry_stats_exhausted is_connection_error 5 body st 4 Hfail)
      as E.
    assert (run = body (attempt_start 5 body 4 st)) as Erun.
    { unfold run, query, query_with, retry. fold body. by rewrite E. }
    split; [done|]. split.
    + unfold made, query_attempts. fold body. by rewrite E.
    + rewrite Erun. apply retried_connection_error. apply Hfail. lia.
  - destruct (keeps_query q args fmt pd t echo dry _ st eq_refl)
      as (_ & _ & Hw). exact Hw.
Qed.
End ClientFacts.

Lemma query_retry_spec_witness :
  fst (@query flaky_net "SELECT 1" None None None None false false
         fresh_state) = Return (QText "ok")
  /\ @query_attempts flaky_net "SELECT 1" None None None None false false
       fresh_state = 5.
Proof.
  destruct (@query_retry_spec flaky_net "SELECT 1" None None None None
              false false fresh_state) as (_ & _ & H4 & _).
  apply H4.
  - intros j Hj.
    destruct j as [|[|[|[|j]]]]; try lia;
      (exists (ConnectionError "refused"); split; reflexivity).
  - reflexivity.
Defined.

Lemma query_timeout_spec_witness :
  exists rq,
    posts (snd (@query (fixed_net 200 "23.8") "SELECT version()" None None
                  None (Some 120%Z) false false fresh_state)) = [rq]
    /\ req_timeout rq = 120%Z.
Proof.
  destruct (@query_timeout_spec (fixed_net 200 "23.8") "SELECT version()"
              None None None (Some 120%Z) false false fresh_state)
    as (_ & Hattempt & _).
  destruct (Hattempt 0 ltac:(vm_compute; lia)) as (_ & _ & Hown).
  vm_compute in Hown. destruct Hown as (rq & Hposts & Htimeout & _).
  exists rq. split; [|exact Htimeout].
  vm_compute. exact Hposts.
Defined.

(** ** HTTP errors *)

Section QueryErrors.
Context `{Net}.

Lemma query_body_http_error render q args fmt pd t echo st q1 st1 resp :
  render_args render q args st = (Return q1, st1) ->
  transport (length (posts st1))
    (make_request (client st1) (with_format q1 fmt) pd t) = PostReturns resp ->
  is_http_error resp = true ->
  fst (query_body render q args fmt pd t echo false st) =
  Raise (ClickhouseError_init (with_format q1 fmt) resp).
Proof.
  intros Hr Ht He. unfold query_body, bind. rewrite Hr.
  destruct echo; simpl; unfold session_post; simpl; rewrite Ht; simpl;
    unfold handle_response; by rewrite He.
Qed.

Lemma query_body_http_ok render q args fmt pd t echo st q1 st1 resp :
  render_args render q args st = (Return q1, st1) ->
  transport (length (posts st1))
    (make_request (client st1) (with_format q1 fmt) pd t) = PostReturns resp ->
  is_http_error resp = false ->
  fst (query_body render q args fmt pd t echo false st) =
  (if is_json_format fmt
   then match json_loads (text resp) with
        | Some d => Return (QJson d)
        | None => Raise JSONDecodeError
        end
   else Return (QText (PyStr.strip (text resp)))).
Proof.
  intros Hr Ht He. unfold query_body, bind. rewrite Hr.
  destruct echo; simpl; unfold session_post; simpl; rewrite Ht; simpl;
    unfold handle_response; rewrite He; destruct fmt as [f|]; simpl;
    try done;
    destruct (String.eqb f "JSON" || String.eqb f "JSONCompact");
    try done; by destruct (json_loads (text resp)).
Qed.

(** C6, amended: when the response to the request of an attempt has a 4xx
    or 5xx status (the statuses for which [raise_for_status] raises), the
    call raises [ClickhouseError] with that response and the normalized
    query text (stripped, no newline left, unchanged when the stripped
    text holds no newline), and no further attempt is made.  Every other
    status raises no [ClickhouseError]: the attempt ends the call as a
    success does, with the stripped response text or, for the formats JSON
    and JSONCompact, with the parsed body, a body that is not JSON giving
    the decoder's error. *)
Theorem query_http_error_spec q args fmt pd t echo st k q1 st1 resp :
  let body := query_body render_query q args fmt pd t echo false in
  let q2 := with_format q1 fmt in
  let normalized := PyStr.re_sub_newlines (PyStr.strip q2) in
  k < 5 ->
  (forall j, j < k -> attempt_retried is_connection_error 5 body st j) ->
  render_args render_query q args (attempt_start 5 body k st)
    = (Return q1, st1) ->
  transport (length (posts st1)) (make_request (client st1) q2 pd t)
    = PostReturns resp ->
  (is_http_error resp = true <-> (400 <= status_code resp < 600)%Z)
  /\ (is_http_error resp = true ->
        fst (query q args fmt pd t echo false st)
          = Raise (ClickhouseError normalized resp)
        /\ query_attempts q args fmt pd t echo false st = S k
        /\ ~ In "010"%char (PyStr.chars normalized)
        /\ (~ In "010"%char (PyStr.chars (PyStr.strip q2)) ->
            normalized = PyStr.strip q2))
  /\ (is_http_error resp = false ->
        fst (query q args fmt pd t echo false st)
          = (if is_json_format fmt
             then match json_loads (text resp) with
                  | Some d => Return (QJson d)
                  | None => Raise JSONDecodeError
                  end
             else Return (QText (PyStr.strip (text resp))))
        /\ query_attempts q args fmt pd t echo false st = S k).
Proof.
  intros body q2 normalized Hk Hfail Hr Ht. split; [|split].
  - unfold is_http_error. rewrite andb_true_iff, Z.leb_le, Z.ltb_lt. done.
  - intros He.
    pose proof (query_body_http_error render_query q args fmt pd t echo
                  _ q1 st1 resp Hr Ht He) as Hbody.
    fold body in Hbody.
    assert (attempt_final is_connection_error 5 body st k) as Hfin
      by (unfold attempt_final; by rewrite Hbody).
    pose proof (retry_stats_final is_connection_error 5 body st 5 k
                  ltac:(lia) Hfail Hfin) as E.
    split; [|split; [|split]].
    + unfold query, query_with, retry. fold body. rewrite E. exact Hbody.
    + unfold query_attempts. fold body. by rewrite E.
    + apply PyStrFacts.re_sub_newlines_no_newline.
    + apply PyStrFacts.re_sub_newlines_id.
  - intros He.
    pose proof (query_body_http_ok render_query q args fmt pd t echo
                  _ q1 st1 resp Hr Ht He) as Hbody.
    fold body in Hbody.
    assert (attempt_final is_connection_error 5 body st k) as Hfin.
    { unfold attempt_final. rewrite Hbody.
      destruct (is_json_format fmt); [|done].
      by destruct (json_loads (text resp)). }
    pose proof (retry_stats_final is_connection_error 5 body st 5 k
                  ltac:(lia) Hfail Hfin) as E.
    split.
    + unfold query, query_with, retry. fold body. rewrite E. exact Hbody.
    + unfold query_attempts. fold body. by rewrite E.
Qed.
End QueryErrors.

Lemma query_http_error_spec_witness :
  fst (@query (fixed_net 503 "overloaded")
         (String "010" " SELECT 1  ") None (Some "JSON") None None false false
         fresh_state)
  = Raise (ClickhouseError "SELECT 1   FORMAT JSON"
             {| status_code := 503; text := "overloaded" |}).
Proof.
  refine (proj1 (proj1 (proj2
            (@query_http_error_spec (fixed_net 503 "overloaded")
               (String "010" " SELECT 1  ") None (Some "JSON") None None
               false fresh_state 0 (String "010" " SELECT 1  ")
               fresh_state {| status_code := 503; text := "overloaded" |}
               _ _ _ _)) _)).
  - lia.
  - intros j Hj. lia.
  - reflexivity.
  - reflexivity.
  - reflexivity.
Defined.

(** C6 as stated fails: status 304 is not a 2xx status, yet no error is
    raised and the text of the response is returned. *)
Lemma query_status_304_returns :
  is_2xx {| status_code := 304; text := "Not Modified" |} = false
  /\ fst (@query (fixed_net 304 "Not Modified") "SELECT 1" None None None
            None false false fresh_state)
     = Return (QText "Not Modified").
Proof. split; reflexivity. Qed.

(** ** The cached server version *)

Section VersionCache.
Context `{Net}.

Lemma render_args_plain q st :
  render_args (fun q _ => ret q) q None st = (Return q, st).
Proof. reflexivity. Qed.

(** One attempt of the version query leaves the client object alone. *)
Lemma version_attempt_client st :
  client (snd (query_body (fun q _ => ret q) "SELECT version()" None None
                 None None false false st)) = client st.
Proof.
  unfold query_body, bind. simpl. unfold session_post. simpl.
  destruct (transport _ _) as [e|resp]; simpl; [done|].
  unfold handle_response. destruct (is_http_error resp); done.
Qed.

(** A returning attempt of the version query returns text. *)
Lemma version_attempt_text st v :
  fst (query_body (fun q _ => ret q) "SELECT version()" None None
         None None false false st) = Return v ->
  exists s, v = QText s.
Proof.
  unfold query_body, bind. simpl. unfold session_post. simpl.
  destruct (transport _ _) as [e|resp]; simpl; [done|].
  unfold handle_response. destruct (is_http_error resp); simpl; [done|].
  intros [= <-]. by eexists.
Qed.

Lemma retry_loop_client {A} (f : M cstate A) ex mi more n st :
  (forall st0, client (snd (f st0)) = client st0) ->
  client (snd (fst (retry_loop ex mi more n f st))) = client st.
Proof.
  intros Hf. revert n st. induction more as [|more IH]; intros n st; simpl.
  - specialize (Hf st). destruct (f st) as [[a|e] st']; simpl in *; [done|].
    destruct (ex e); done.
  - specialize (Hf st). destruct (f st) as [[a|e] st']; simpl in *; [done|].
    destruct (ex e); [|done]. rewrite IH. done.
Qed.

Lemma version_query_client st :
  client (snd (version_query st)) = client st.
Proof.
  unfold version_query, query_with, retry, retry_stats.
  apply retry_loop_client. apply version_attempt_client.
Qed.

Lemma version_query_text st v :
  fst (version_query st) = Return v -> exists s, v = QText s.
Proof.
  unfold version_query, query_with, retry, retry_stats. intros Hv.
  apply retry_loop_return in Hv as [st0 Hv].
  by apply version_attempt_text in Hv.
Qed.

Lemma get_clickhouse_version_cached st :
  _ch_version (client st) <> QNone ->
  get_clickhouse_version st = (Return (_ch_version (client st)), st).
Proof.
  intros Hv. unfold get_clickhouse_version, bind, get_state.
  destruct (_ch_version (client st)); done.
Qed.

Lemma run_template_cached (tm : tmpl) st :
  _ch_version (client st) <> QNone -> snd (run_template tm st) = st.
Proof.
  intros Hv. induction tm as [s|msg|v k IH|v k IH|v k IH]; simpl; try done.
  unfold bind. rewrite get_clickhouse_version_cached by done. apply IH.
Qed.

(** C9, amended: the version is fetched only while none is stored.  A call
    that returns has stored what it returns, and that is never [None]; with
    a version stored, [get_clickhouse_version] returns it and
    [render_query] runs, whatever the template, without posting a request
    or changing anything; a call that raises leaves the client without a
    stored version, so the next call queries again; a new client has none
    stored. *)
Theorem version_cache_spec st :
  (forall v st', get_clickhouse_version st = (Return v, st') ->
     _ch_version (client st') = v /\ v <> QNone)
  /\ (_ch_version (client st) <> QNone ->
      get_clickhouse_version st = (Return (_ch_version (client st)), st)
      /\ forall q kwargs, snd (render_query q kwargs st) = st)
  /\ (forall e st', get_clickhouse_version st = (Raise e, st') ->
      _ch_version (client st) = QNone /\ _ch_version (client st') = QNone)
  /\ (forall host port user settings timeout insecure,
      _ch_version (ClickhouseClient_init host port user settings timeout
                     insecure) = QNone).
Proof.
  split; [|split; [|split]].
  - intros v st'. unfold get_clickhouse_version, bind at 1, get_state.
    destruct (_ch_version (client st)) eqn:Ev.
    + unfold bind. pose proof (version_query_text st) as Ht.
      destruct (version_query st) as [[v'|e] st1]; simpl in *; [|done].
      intros [= <- <-]. simpl. split; [done|].
      destruct (Ht v' eq_refl) as [s ->]. done.
    + intros [= <- <-]. by rewrite Ev.
    + intros [= <- <-]. by rewrite Ev.
  - intros Hv. split; [by apply get_clickhouse_version_cached|].
    intros q kwargs. by apply run_template_cached.
  - intros e st'. unfold get_clickhouse_version, bind at 1, get_state.
    destruct (_ch_version (client st)) eqn:Ev; try done.
    unfold bind. pose proof (version_query_client st) as Hc.
    destruct (version_query st) as [[v'|e'] st1]; simpl in *; [done|].
    intros [= <- <-]. by rewrite Hc.
  - done.
Qed.
End VersionCache.

Lemma version_cache_spec_witness :
  let st1 := snd (@get_clickhouse_version recovering_net fresh_state) in
  let st2 := snd (@get_clickhouse_version recovering_net st1) in
  @get_clickhouse_version recovering_net st2
    = (Return (QText "22.3.2.1"), st2)
  /\ snd (@render_query recovering_net "SELECT 1" [] st2) = st2.
Proof.
  intros st1 st2.
  destruct (@version_cache_spec recovering_net st2) as (_ & Hcached & _).
  destruct Hcached as [Hget Hrender]; [vm_compute; discriminate|].
  split; [exact Hget | apply Hrender].
Defined.

(** C9 as stated fails: when the first call ends in an error nothing is
    stored and the next call on the same client issues the query again. *)
Lemma version_query_issued_twice :
  let st1 := snd (@get_clickhouse_version recovering_net fresh_state) in
  let st2 := snd (@get_clickhouse_version recovering_net st1) in
  (exists e, fst (@get_clickhouse_version recovering_net fresh_state)
             = Raise e)
  /\ map req_query (posts st2)
     = [Some "SELECT version()"; Some "SELECT version()"].
Proof. split; [eexists|]; reflexivity. Qed.

(** ** Macros *)

Lemma get_filter_key {V} (p : string -> bool) (k : string)
    (d : list (string * V)) :
  Dict.get k (List.filter (fun kv => p kv.1) d) =
  if p k then Dict.get k d else None.
Proof.
  induction d as [|[k0 v0] d IH]; simpl; [by destruct (p k)|].
  destruct (p k0) eqn:E0; simpl; destruct (String.eqb k0 k) eqn:E.
  - apply String.eqb_eq in E. subst k0. by rewrite E0.
  - exact IH.
  - apply String.eqb_eq in E. subst k0. rewrite E0 in *. exact IH.
  - exact IH.
Qed.

(** C10, amended: when the config root is a mapping and its macros section
    is a mapping or absent, [macros] returns the entries of the section
    whose key does not start with [@], in their order, and an empty mapping
    when the section is absent; [cluster_name] is the [cluster] entry of
    the section, and a [KeyError] without one. *)
Theorem macros_spec h self root root_items :
  _config_root h self = Return root ->
  section_items h root = Return root_items ->
  (Dict.get "macros" root_items = None ->
     macros h self = Return []
     /\ cluster_name h self = Raise (KeyError "cluster"))
  /\ (forall v m,
        Dict.get "macros" root_items = Some v ->
        section_items h (Found v) = Return m ->
        exists result,
          macros h self = Return result
          /\ result
             = List.filter (fun kv => negb (PyStr.startswith "@" kv.1)) m
          /\ (forall k, Dict.get k result =
                        if PyStr.startswith "@" k then None
                        else Dict.get k m)
          /\ cluster_name h self =
             match Dict.get "cluster" m with
             | Some c => Return c
             | None => Raise (KeyError "cluster")
             end).
Proof.
  intros Hroot Hitems. split.
  - intros Hm. unfold cluster_name, macros, section_get.
    rewrite Hroot, Hitems, Hm. done.
  - intros v m Hv Hm. eexists. split; [|split; [reflexivity|split]].
    + unfold macros, section_get. rewrite Hroot, Hitems, Hv, Hm. done.
    + intros k.
      rewrite (get_filter_key (fun k => negb (PyStr.startswith "@" k))).
      by destruct (PyStr.startswith "@" k).
    + unfold cluster_name, macros, section_get.
      rewrite Hroot, Hitems, Hv, Hm.
      by rewrite (get_filter_key (fun k => negb (PyStr.startswith "@" k))).
Qed.

Lemma macros_spec_witness :
  let '(h, self) :=
    view_of (DDict [("yandex",
               DDict [("macros",
                 DDict [("@replace", DStr "1"); ("cluster", DStr "c1");
                        ("shard", DStr "s1")])])]) in
  macros h self = Return [("cluster", VStr "c1"); ("shard", VStr "s1")]
  /\ cluster_name h self = Return (VStr "c1").
Proof.
  pose (t := DDict [("yandex",
               DDict [("macros",
                 DDict [("@replace", DStr "1"); ("cluster", DStr "c1");
                        ("shard", DStr "s1")])])]).
  pose (hs := view_of t).
  destruct (macros_spec (fst hs) (snd hs) (Found (VRef 1))
              [("macros", VRef 0)] eq_refl eq_refl) as [_ Hsome].
  destruct (Hsome (VRef 0)
              [("@replace", VStr "1"); ("cluster", VStr "c1");
               ("shard", VStr "s1")] eq_refl eq_refl)
    as (result & Hm & Hres & _ & Hc).
  change (macros (fst hs) (snd hs)
            = Return [("cluster", VStr "c1"); ("shard", VStr "s1")]
          /\ cluster_name (fst hs) (snd hs) = Return (VStr "c1")).
  split; [|exact Hc]. rewrite Hm, Hres. reflexivity.
Defined.

(** C10 as stated fails: with an empty [<macros/>] element the section is
    [None] and [macros] raises instead of returning a mapping. *)
Lemma macros_empty_element_raises :
  let '(h, self) :=
    view_of (DDict [("clickhouse", DDict [("macros", DNone)])]) in
  macros h self = Raise AttributeError.
Proof. reflexivity. Qed.

(** ** Merging documents *)

Lemma nodup_keys_NoDup (ks : list string) :
  nodup_keys ks = true -> NoDup ks.
Proof.
  induction ks as [|k ks IH]; simpl; [constructor|].
  intros Hb. apply andb_true_iff in Hb as [Hk Hks].
  apply NoDup_cons. split; [|by apply IH].
  intros Hin. apply negb_true_iff in Hk.
  assert (existsb (String.eqb k) ks = true) as Hex; [|congruence].
  apply existsb_exists. exists k. split; [by apply list_elem_of_In|].
  apply String.eqb_refl.
Qed.

Lemma wf_doc_keys (items : list (string * doc)) :
  wf_doc (DDict items) = true -> NoDup (Dict.keys items).
Proof.
  simpl. intros Hb. apply andb_true_iff in Hb as [Hk _].
  by apply nodup_keys_NoDup.
Qed.

Lemma wf_doc_get (items : list (string * doc)) k t :
  wf_doc (DDict items) = true -> Dict.get k items = Some t ->
  wf_doc t = true.
Proof.
  simpl. intros Hb. apply andb_true_iff in Hb as [_ Hall].
  induction items as [|[k0 t0] items IH]; simpl in *; [done|].
  apply andb_true_iff in Hall as [H0 Hall].
  destruct (String.eqb k0 k); [by intros [= <-] | by apply IH].
Qed.

Lemma merge_value_dict (s d : list (string * doc)) :
  merge_value (DDict s) (DDict d) = DDict (deep_merge d s).
Proof. reflexivity. Qed.

(** The entry of a key after a merge. *)
Lemma deep_merge_get (s d : list (string * doc)) (k : string) :
  NoDup (Dict.keys s) ->
  Dict.get k (deep_merge d s) =
  match Dict.get k s with
  | None => Dict.get k d
  | Some sv =>
      match Dict.get k d with
      | None => Some sv
      | Some dv => Some (merge_value sv dv)
      end
  end.
Proof.
  unfold deep_merge. revert d.
  induction s as [|[k0 sv0] s IH]; intros d Hnd; simpl; [done|].
  apply NoDup_cons in Hnd as [Hnin Hnd]. rewrite IH by done.
  destruct (String.eqb k0 k) eqn:E.
  - apply String.eqb_eq in E. subst k0.
    assert (Dict.get k s = None) as ->.
    { apply DictFacts.get_None_keys. by rewrite <- list_elem_of_In. }
    unfold merge_item. simpl.
    destruct (Dict.get k d); by rewrite DictFacts.get_set_eq.
  - apply String.eqb_neq in E.
    assert (Dict.get k (merge_item d (k0, sv0)) = Dict.get k d) as ->; [|done].
    unfold merge_item. simpl.
    destruct (Dict.get k0 d); by rewrite DictFacts.get_set_ne.
Qed.

(** A leaf of the source is a leaf of the merge. *)
Lemma lookup_merge_leaf (path : list string) (s d leaf : doc) :
  wf_doc s = true ->
  lookup_path path s = Some leaf -> is_mapping leaf = false ->
  lookup_path path (merge_value s d) = Some leaf.
Proof.
  revert s d. induction path as [|k path IH]; intros s d Hwf Hs Hleaf.
  - simpl in *. injection Hs as ->. by destruct leaf.
  - destruct s as [| |items|]; try done. simpl in Hs.
    destruct (Dict.get k items) as [sv|] eqn:Ek; [|done].
    destruct d as [| |ditems|]; try (simpl; by rewrite Ek).
    rewrite merge_value_dict. simpl.
    rewrite deep_merge_get by (by apply wf_doc_keys). rewrite Ek.
    destruct (Dict.get k ditems) as [dv|]; [|done].
    apply IH; [|done..]. by eapply wf_doc_get.
Qed.

Lemma leaves_alone_lookup (path : list string) (t : doc) :
  leaves_alone path t = true -> lookup_path path t = None.
Proof.
  revert t. induction path as [|k path IH]; intros t; simpl; [done|].
  destruct t as [| |items|]; try done.
  destruct (Dict.get k items); [apply IH | done].
Qed.

(** What the source leaves alone stays as the destination has it. *)
Lemma lookup_merge_alone (path : list string) (s d : doc) :
  wf_doc s = true -> leaves_alone path s = true ->
  lookup_path path (merge_value s d) = lookup_path path d.
Proof.
  revert s d. induction path as [|k path IH]; intros s d Hwf Hs; [done|].
  destruct s as [| |items|]; try done. simpl in Hs.
  destruct d as [| |ditems|].
  1,2,4: by apply (leaves_alone_lookup (k :: path) (DDict items)).
  rewrite merge_value_dict. simpl.
  rewrite deep_merge_get by (by apply wf_doc_keys).
  destruct (Dict.get k items) as [sv|] eqn:Ek; [|done].
  destruct (Dict.get k ditems) as [dv|].
  - apply IH; [|done]. by eapply wf_doc_get.
  - by apply leaves_alone_lookup.
Qed.

Lemma fold_merge_alone (path : list string) (after : list (list (string * doc)))
    (d : list (string * doc)) :
  Forall (fun d' => wf_doc (DDict d') = true) after ->
  Forall (fun d' => leaves_alone path (DDict d') = true) after ->
  lookup_path path (DDict (fold_left deep_merge after d))
  = lookup_path path (DDict d).
Proof.
  revert d. induction after as [|a after IH]; intros d Hwf Hal; [done|].
  inversion Hwf; inversion Hal; subst. simpl. rewrite IH by done.
  rewrite <- merge_value_dict. by apply lookup_merge_alone.
Qed.

(** Precedence among merged sources: the last source that defines a path
    as a leaf decides it. *)
Lemma fold_merge_last (path : list string)
    (base : list (string * doc)) (before after : list (list (string * doc)))
    (d : list (string * doc)) (leaf : doc) :
  Forall (fun d' => wf_doc (DDict d') = true) (d :: after) ->
  lookup_path path (DDict d) = Some leaf -> is_mapping leaf = false ->
  Forall (fun d' => leaves_alone path (DDict d') = true) after ->
  lookup_path path
    (DDict (fold_left deep_merge (before ++ d :: after) base)) = Some leaf.
Proof.
  intros Hwf Hd Hleaf Hal. inversion Hwf; subst.
  rewrite fold_left_app. simpl. rewrite fold_merge_alone by done.
  rewrite <- merge_value_dict. by apply lookup_merge_leaf.
Qed.

(** ** Assembling the server config *)

Section AssembleFacts.
Context `{XmlLib}.

Lemma merge_files_fold fs config files docs :
  Forall2 (fun f d =>
             _load_config fs (path_join CLICKHOUSE_SERVER_CONFIGD_PATH f)
             = Return d) files docs ->
  merge_files fs config files = Return (fold_left deep_merge docs config).
Proof.
  intros Hload. revert config.
  induction Hload as [|f d files docs Hf _ IH]; intros config; [done|].
  simpl. rewrite Hf. apply IH.
Qed.

(** C2, amended: without a preprocessed file the configuration is the main
    config, with the cluster config merged into it, then every file of the
    override directory in the order [os.listdir] lists them (which is not
    sorted).  For that order the result is determined, and the last source
    that defines a path as a leaf decides its value when the later sources
    leave the path alone. *)
Theorem assemble_spec fs main cluster files docs :
  _load_config fs CLICKHOUSE_SERVER_MAIN_CONFIG_PATH = Return main ->
  _load_config fs CLICKHOUSE_SERVER_CLUSTER_CONFIG_PATH = Return cluster ->
  fs_listdir fs CLICKHOUSE_SERVER_CONFIGD_PATH = Some files ->
  Forall2 (fun f d =>
             _load_config fs (path_join CLICKHOUSE_SERVER_CONFIGD_PATH f)
             = Return d) files docs ->
  Forall (fun d => wf_doc (DDict d) = true) (cluster :: docs) ->
  let config := fold_left deep_merge (cluster :: docs) main in
  assemble fs = Return config
  /\ forall path before d after leaf,
       main :: cluster :: docs = before ++ d :: after ->
       lookup_path path (DDict d) = Some leaf ->
       is_mapping leaf = false ->
       Forall (fun d' => leaves_alone path (DDict d') = true) after ->
       lookup_path path (DDict config) = Some leaf.
Proof.
  intros Hmain Hcluster Hlist Hfiles Hwf config. split.
  - unfold assemble, config. rewrite Hmain, Hcluster, Hlist. simpl.
    by apply merge_files_fold.
  - intros path before d after leaf Hsplit Hd Hleaf Hal. unfold config.
    destruct before as [|b before].
    + simpl in Hsplit. injection Hsplit as <- <-.
      by rewrite fold_merge_alone.
    + simpl in Hsplit. injection Hsplit as <- Hrest. rewrite Hrest.
      apply fold_merge_last; [|done..].
      rewrite Hrest in Hwf. by apply Forall_app in Hwf as [_ Hwf].
Qed.
End AssembleFacts.

Lemma assemble_spec_witness :
  @assemble sample_xml (sample_fs ["b.xml"; "a.xml"])
  = Return [("clickhouse", DDict [("x", DStr "a"); ("y", DStr "1")])]
  /\ lookup_path ["clickhouse"; "x"]
       (DDict (fold_left deep_merge
                 [[("clickhouse", DDict [("y", DStr "1")])];
                  [("clickhouse", DDict [("x", DStr "b")])];
                  [("clickhouse", DDict [("x", DStr "a")])]]
                 [("clickhouse", DDict [("x", DStr "0")])]))
     = Some (DStr "a").
Proof.
  destruct (@assemble_spec sample_xml (sample_fs ["b.xml"; "a.xml"])
              [("clickhouse", DDict [("x", DStr "0")])]
              [("clickhouse", DDict [("y", DStr "1")])]
              ["b.xml"; "a.xml"]
              [[("clickhouse", DDict [("x", DStr "b")])];
               [("clickhouse", DDict [("x", DStr "a")])]])
    as [Hassemble Hlast].
  - reflexivity.
  - reflexivity.
  - reflexivity.
  - repeat constructor.
  - repeat constructor.
  - split; [exact Hassemble|].
    apply (Hlast ["clickhouse"; "x"]
             [[("clickhouse", DDict [("x", DStr "0")])];
              [("clickhouse", DDict [("y", DStr "1")])];
              [("clickhouse", DDict [("x", DStr "b")])]]
             [("clickhouse", DDict [("x", DStr "a")])] []);
      [reflexivity | reflexivity | reflexivity | constructor].
Defined.

(** C2 as stated fails: with the directory listed as [b.xml], [a.xml] the
    code merges in that order and [a.xml] decides [x], whereas the
    lexicographic order [a.xml], [b.xml] would let [b.xml] decide. *)
Lemma assemble_follows_listing_order :
  sort_names ["b.xml"; "a.xml"] = ["a.xml"; "b.xml"]
  /\ @assemble sample_xml (sample_fs ["b.xml"; "a.xml"])
     = Return [("clickhouse", DDict [("x", DStr "a"); ("y", DStr "1")])]
  /\ @assemble sample_xml (sample_fs (sort_names ["b.xml"; "a.xml"]))
     = Return [("clickhouse", DDict [("x", DStr "b"); ("y", DStr "1")])].
Proof. repeat split; reflexivity. Qed.

(** ** Documents in the heap *)

Lemma doc_ind' (P : doc -> Prop) :
  P DNone -> (forall s, P (DStr s)) ->
  (forall items, Forall (fun kt => P kt.2) items -> P (DDict items)) ->
  (forall elems, Forall P elems -> P (DList elems)) ->
  forall t, P t.
Proof.
  intros Hn Hs Hd Hl. fix IH 1. intros [| s | items | elems].
  - exact Hn.
  - apply Hs.
  - apply Hd. induction items as [|[k t] items IHi]; constructor; [apply IH | exact IHi].
  - apply Hl. induction elems as [|t elems IHe]; constructor; [apply IH | exact IHe].
Qed.

Lemma alloc_dict (items : list (string * doc)) (h : heap) :
  alloc (DDict items) h =
  let '(vs, h') := alloc_items items h in
  (VRef (length h'), h' ++ [ODict vs]).
Proof. reflexivity. Qed.

Lemma alloc_list (elems : list doc) (h : heap) :
  alloc (DList elems) h =
  let '(vs, h') := alloc_elems elems h in
  (VRef (length h'), h' ++ [OList vs]).
Proof. reflexivity. Qed.

Lemma rep_le h :
  (forall t v lo hi, rep h t v lo hi -> lo <= hi)
  /\ (forall items vs lo hi, reps_items h items vs lo hi -> lo <= hi)
  /\ (forall elems vs lo hi, reps_elems h elems vs lo hi -> lo <= hi).
Proof. apply rep_mutind; intros; lia. Qed.

(** Only the objects in its range matter to a representation. *)
Lemma rep_frame h :
  (forall t v lo hi, rep h t v lo hi ->
     forall h', (forall a, lo <= a < hi -> h' !! a = h !! a) ->
     rep h' t v lo hi)
  /\ (forall items vs lo hi, reps_items h items vs lo hi ->
     forall h', (forall a, lo <= a < hi -> h' !! a = h !! a) ->
     reps_items h' items vs lo hi)
  /\ (forall elems vs lo hi, reps_elems h elems vs lo hi ->
     forall h', (forall a, lo <= a < hi -> h' !! a = h !! a) ->
     reps_elems h' elems vs lo hi).
Proof.
  apply rep_mutind.
  - intros. by constructor.
  - intros. by constructor.
  - intros items vs lo a hi Hr IH Ha Hobj h' Hag.
    pose proof (proj1 (proj2 (rep_le h)) _ _ _ _ Hr).
    econstructor; [apply IH | done | rewrite Hag; [done | lia]].
    intros b Hb. apply Hag. lia.
  - intros elems vs lo a hi Hr IH Ha Hobj h' Hag.
    pose proof (proj2 (proj2 (rep_le h)) _ _ _ _ Hr).
    econstructor; [apply IH | done | rewrite Hag; [done | lia]].
    intros b Hb. apply Hag. lia.
  - intros. by constructor.
  - intros k t v items vs lo mid hi Hr IHr Hrs IHrs h' Hag.
    pose proof (proj1 (rep_le h) _ _ _ _ Hr).
    pose proof (proj1 (proj2 (rep_le h)) _ _ _ _ Hrs).
    econstructor; [apply IHr | apply IHrs]; intros b Hb; apply Hag; lia.
  - intros. by constructor.
  - intros t v elems vs lo mid hi Hr IHr Hrs IHrs h' Hag.
    pose proof (proj1 (rep_le h) _ _ _ _ Hr).
    pose proof (proj2 (proj2 (rep_le h)) _ _ _ _ Hrs).
    econstructor; [apply IHr | apply IHrs]; intros b Hb; apply Hag; lia.
Qed.

Lemma rep_widen h :
  (forall t v lo hi, rep h t v lo hi ->
     forall lo' hi', lo' <= lo -> hi <= hi' -> rep h t v lo' hi')
  /\ (forall items vs lo hi, reps_items h items vs lo hi ->
     forall lo' hi', lo' <= lo -> hi <= hi' -> reps_items h items vs lo' hi')
  /\ (forall elems vs lo hi, reps_elems h elems vs lo hi ->
     forall lo' hi', lo' <= lo -> hi <= hi' -> reps_elems h elems vs lo' hi').
Proof.
  apply rep_mutind.
  - intros. constructor. lia.
  - intros. constructor. lia.
  - intros items vs lo a hi Hr IH Ha Hobj lo' hi' Hlo Hhi.
    econstructor; [apply IH | | done]; lia.
  - intros elems vs lo a hi Hr IH Ha Hobj lo' hi' Hlo Hhi.
    econstructor; [apply IH | | done]; lia.
  - intros. constructor. lia.
  - intros k t v items vs lo mid hi Hr IHr Hrs IHrs lo' hi' Hlo Hhi.
    apply (reps_items_cons h k t v items vs lo' mid hi');
      [apply IHr | apply IHrs]; lia.
  - intros. constructor. lia.
  - intros t v elems vs lo mid hi Hr IHr Hrs IHrs lo' hi' Hlo Hhi.
    apply (reps_elems_cons h t v elems vs lo' mid hi');
      [apply IHr | apply IHrs]; lia.
Qed.

Lemma lookup_app_below (h new : heap) (a : nat) :
  a < length h -> (h ++ new) !! a = h !! a.
Proof. intros Ha. by apply lookup_app_l. Qed.

Lemma alloc_items_rep (items : list (string * doc)) :
  Forall (fun kt => forall h v h', alloc kt.2 h = (v, h') ->
            (exists new, h' = h ++ new)
            /\ rep h' kt.2 v (length h) (length h')) items ->
  forall h vs h', alloc_items items h = (vs, h') ->
    (exists new, h' = h ++ new)
    /\ reps_items h' items vs (length h) (length h').
Proof.
  induction 1 as [|[k t] items Ht _ IH]; intros h vs h' Ha; simpl in Ha.
  - injection Ha as <- <-. split; [exists []; by rewrite app_nil_r|].
    by constructor.
  - destruct (alloc t h) as [v h1] eqn:E1.
    destruct (alloc_items items h1) as [vs' h2] eqn:E2.
    injection Ha as <- <-.
    destruct (Ht h v h1 E1) as [[n1 ->] Hr].
    destruct (IH _ _ _ E2) as [[n2 ->] Hrs].
    split; [exists (n1 ++ n2); by rewrite app_assoc|].
    econstructor; [|exact Hrs].
    apply (proj1 (rep_frame _) _ _ _ _ Hr).
    intros a Ha. apply lookup_app_below. lia.
Qed.

Lemma alloc_elems_rep (elems : list doc) :
  Forall (fun t => forall h v h', alloc t h = (v, h') ->
            (exists new, h' = h ++ new)
            /\ rep h' t v (length h) (length h')) elems ->
  forall h vs h', alloc_elems elems h = (vs, h') ->
    (exists new, h' = h ++ new)
    /\ reps_elems h' elems vs (length h) (length h').
Proof.
  induction 1 as [|t elems Ht _ IH]; intros h vs h' Ha; simpl in Ha.
  - injection Ha as <- <-. split; [exists []; by rewrite app_nil_r|].
    by constructor.
  - destruct (alloc t h) as [v h1] eqn:E1.
    destruct (alloc_elems elems h1) as [vs' h2] eqn:E2.
    injection Ha as <- <-.
    destruct (Ht h v h1 E1) as [[n1 ->] Hr].
    destruct (IH _ _ _ E2) as [[n2 ->] Hrs].
    split; [exists (n1 ++ n2); by rewrite app_assoc|].
    econstructor; [|exact Hrs].
    apply (proj1 (rep_frame _) _ _ _ _ Hr).
    intros a Ha. apply lookup_app_below. lia.
Qed.

(** Allocation only appends objects, and what it appends represents the
    document. *)
Lemma alloc_rep (t : doc) :
  forall h v h', alloc t h = (v, h') ->
    (exists new, h' = h ++ new) /\ rep h' t v (length h) (length h').
Proof.
  induction t as [|s|items IH|elems IH] using doc_ind'; intros h v h' Ha.
  - injection Ha as <- <-. split; [exists []; by rewrite app_nil_r|].
    by constructor.
  - injection Ha as <- <-. split; [exists []; by rewrite app_nil_r|].
    by constructor.
  - rewrite alloc_dict in Ha.
    destruct (alloc_items items h) as [vs h1] eqn:E.
    injection Ha as <- <-.
    destruct (alloc_items_rep items IH _ _ _ E) as [[n1 ->] Hrs].
    split; [exists (n1 ++ [ODict vs]); by rewrite app_assoc|].
    apply (rep_dict _ items vs (length h) (length (h ++ n1))).
    + apply (proj1 (proj2 (rep_frame _)) _ _ _ _ Hrs).
      intros a Ha. apply lookup_app_below. lia.
    + rewrite !length_app. simpl. lia.
    + by apply list_lookup_middle.
  - rewrite alloc_list in Ha.
    destruct (alloc_elems elems h) as [vs h1] eqn:E.
    injection Ha as <- <-.
    destruct (alloc_elems_rep elems IH _ _ _ E) as [[n1 ->] Hrs].
    split; [exists (n1 ++ [OList vs]); by rewrite app_assoc|].
    apply (rep_list _ elems vs (length h) (length (h ++ n1))).
    + apply (proj2 (proj2 (rep_frame _)) _ _ _ _ Hrs).
      intros a Ha. apply lookup_app_below. lia.
    + rewrite !length_app. simpl. lia.
    + by apply list_lookup_middle.
Qed.

Lemma depth_items_le (items : list (string * doc)) (n : nat) :
  foldr (fun kt m => Nat.max (depth kt.2) m) 0 items <= n ->
  Forall (fun kt => depth kt.2 <= n) items.
Proof.
  induction items as [|kt items IH]; simpl; intros Hn; constructor.
  - lia.
  - apply IH. lia.
Qed.

Lemma depth_elems_le (elems : list doc) (n : nat) :
  foldr (fun t m => Nat.max (depth t) m) 0 elems <= n ->
  Forall (fun t => depth t <= n) elems.
Proof.
  induction elems as [|t elems IH]; simpl; intros Hn; constructor.
  - lia.
  - apply IH. lia.
Qed.

Lemma depth_items_ge (items : list (string * doc)) (n : nat) :
  Forall (fun kt => depth kt.2 <= n) items ->
  foldr (fun kt m => Nat.max (depth kt.2) m) 0 items <= n.
Proof. induction 1; simpl; lia. Qed.

Lemma depth_elems_ge (elems : list doc) (n : nat) :
  Forall (fun t => depth t <= n) elems ->
  foldr (fun t m => Nat.max (depth t) m) 0 elems <= n.
Proof. induction 1; simpl; lia. Qed.

Lemma read_dict (n : nat) (h : heap) (a : nat) (items : list (string * val)) :
  h !! a = Some (ODict items) ->
  read (S n) h (VRef a) =
  DDict <$> mapM (fun kv => pair kv.1 <$> read n h kv.2) items.
Proof. intros Ha. simpl. by rewrite Ha. Qed.

Lemma read_list (n : nat) (h : heap) (a : nat) (elems : list val) :
  h !! a = Some (OList elems) ->
  read (S n) h (VRef a) = DList <$> mapM (read n h) elems.
Proof. intros Ha. simpl. by rewrite Ha. Qed.

(** A represented document is the one read back, given fuel for its
    depth. *)
Lemma rep_read h :
  (forall t v lo hi, rep h t v lo hi ->
     forall fuel, depth t <= fuel -> read fuel h v = Some t)
  /\ (forall items vs lo hi, reps_items h items vs lo hi ->
     forall n, Forall (fun kt => depth kt.2 <= n) items ->
     mapM (fun kv => pair kv.1 <$> read n h kv.2) vs = Some items)
  /\ (forall elems vs lo hi, reps_elems h elems vs lo hi ->
     forall n, Forall (fun t => depth t <= n) elems ->
     mapM (read n h) vs = Some elems).
Proof.
  apply rep_mutind.
  - intros lo hi _ [|n] Hn; [simpl in Hn; lia | done].
  - intros s lo hi _ [|n] Hn; [simpl in Hn; lia | done].
  - intros items vs lo a hi _ IH _ Hobj [|n] Hn; [simpl in Hn; lia|].
    rewrite (read_dict _ _ _ _ Hobj).
    rewrite IH; [done|]. apply depth_items_le. simpl in Hn. lia.
  - intros elems vs lo a hi _ IH _ Hobj [|n] Hn; [simpl in Hn; lia|].
    rewrite (read_list _ _ _ _ Hobj).
    rewrite IH; [done|]. apply depth_elems_le. simpl in Hn. lia.
  - done.
  - intros k t v items vs lo mid hi _ IHr _ IHrs n Hall.
    inversion Hall as [|? ? Ht Hrest]; subst. simpl in *.
    rewrite (IHr n Ht). simpl. rewrite (IHrs n Hrest). done.
  - done.
  - intros t v elems vs lo mid hi _ IHr _ IHrs n Hall.
    inversion Hall as [|? ? Ht Hrest]; subst. simpl in *.
    rewrite (IHr n Ht). simpl. rewrite (IHrs n Hrest). done.
Qed.

Lemma read_inv_dict n h a vs t :
  h !! a = Some (ODict vs) -> read (S n) h (VRef a) = Some t ->
  exists items,
    t = DDict items
    /\ Forall2 (fun kv kt => kt.1 = kv.1 /\ read n h kv.2 = Some kt.2)
         vs items.
Proof.
  intros Ha Hr. rewrite (read_dict _ _ _ _ Ha) in Hr.
  destruct (mapM _ vs) as [items|] eqn:E; [|done].
  injection Hr as <-. exists items. split; [done|].
  apply mapM_Some in E. eapply Forall2_impl; [exact E|].
  intros [k v] [k' t']. simpl.
  destruct (read n h v); simpl; [|done]. by intros [= -> ->].
Qed.

Lemma read_inv_list n h a vs t :
  h !! a = Some (OList vs) -> read (S n) h (VRef a) = Some t ->
  exists elems,
    t = DList elems /\ Forall2 (fun v t' => read n h v = Some t') vs elems.
Proof.
  intros Ha Hr. rewrite (read_list _ _ _ _ Ha) in Hr.
  destruct (mapM _ vs) as [elems|] eqn:E; [|done].
  injection Hr as <-. exists elems. split; [done|]. by apply mapM_Some in E.
Qed.

(** What is read within [fuel] levels is no deeper than [fuel]. *)
Lemma read_depth fuel : forall h v t, read fuel h v = Some t -> depth t <= fuel.
Proof.
  induction fuel as [|n IH]; intros h v t Hr; [done|].
  destruct v as [|s|a].
  - injection Hr as <-. simpl. lia.
  - injection Hr as <-. simpl. lia.
  - destruct (h !! a) as [[vs|vs]|] eqn:Ha.
    + destruct (read_inv_dict _ _ _ _ _ Ha Hr) as (items & -> & Hall).
      simpl. apply le_n_S, depth_items_ge.
      clear Hr Ha. induction Hall as [|kv kt vs items [_ Hkt] _ IHall];
        constructor; [by eapply IH | done].
    + destruct (read_inv_list _ _ _ _ _ Ha Hr) as (elems & -> & Hall).
      simpl. apply le_n_S, depth_elems_ge.
      clear Hr Ha. induction Hall as [|v' t' vs elems Ht _ IHall];
        constructor; [by eapply IH | done].
    + simpl in Hr. by rewrite Ha in Hr.
Qed.

Lemma mapM_read_items n h vs items :
  Forall2 (fun kv kt => kt.1 = kv.1 /\ read n h kv.2 = Some kt.2) vs items ->
  mapM (fun kv : string * val => pair kv.1 <$> read n h kv.2) vs = Some items.
Proof.
  intros Hall. apply mapM_Some. eapply Forall2_impl; [exact Hall|].
  intros [k v] [k' t'] [Hk Hr]. simpl in *. rewrite Hr. simpl. by subst.
Qed.

(** Reading does not depend on objects added or changed elsewhere. *)
Lemma read_preserved fuel :
  forall h h' v t, preserved h h' ->
    read fuel h v = Some t -> read fuel h' v = Some t.
Proof.
  induction fuel as [|n IH]; intros h h' v t Hp Hr; [done|].
  destruct v as [|s|a]; [done..|].
  destruct (h !! a) as [[vs|vs]|] eqn:Ha.
  - destruct (read_inv_dict _ _ _ _ _ Ha Hr) as (items & -> & Hall).
    rewrite (read_dict _ _ _ _ (Hp _ _ Ha)).
    rewrite (mapM_read_items n h' vs items); [done|].
    eapply Forall2_impl; [exact Hall|].
    intros kv kt [Hk Hkt]. split; [done|]. by eapply IH.
  - destruct (read_inv_list _ _ _ _ _ Ha Hr) as (elems & -> & Hall).
    rewrite (read_list _ _ _ _ (Hp _ _ Ha)).
    assert (mapM (read n h') vs = Some elems) as ->; [|done].
    apply mapM_Some. eapply Forall2_impl; [exact Hall|].
    intros v' t' Hv. by eapply IH.
  - simpl in Hr. by rewrite Ha in Hr.
Qed.

Lemma preserved_app (h new : heap) : preserved h (h ++ new).
Proof. intros a o Ha. by apply lookup_app_l_Some. Qed.

Lemma preserved_refl (h : heap) : preserved h h.
Proof. by intros a o Ha. Qed.

Lemma preserved_trans (h1 h2 h3 : heap) :
  preserved h1 h2 -> preserved h2 h3 -> preserved h1 h3.
Proof. intros H12 H23 a o Ha. by apply H23, H12. Qed.

Lemma copy_items_alloc n h vs items :
  (forall v t ext, read n h v = Some t ->
     deepcopy n v (h ++ ext) =
     (let '(v', h') := alloc t (h ++ ext) in (Return v', h'))) ->
  Forall2 (fun kv kt => kt.1 = kv.1 /\ read n h kv.2 = Some kt.2) vs items ->
  forall ext,
    map_m (fun kv : string * val =>
             do v' <- deepcopy n kv.2; ret (kv.1, v')) vs (h ++ ext) =
    (let '(vs', h') := alloc_items items (h ++ ext) in (Return vs', h')).
Proof.
  intros IH Hall. induction Hall as [|[k v] [k' t] vs items [Hk Hr] _ IHall];
    intros ext; [done|].
  simpl in Hk, Hr. subst k'. simpl. unfold bind at 1. unfold bind at 1.
  rewrite (IH _ _ ext Hr).
  destruct (alloc t (h ++ ext)) as [v' h1] eqn:E1.
  destruct (alloc_rep t _ _ _ E1) as [[new ->] _].
  rewrite <- app_assoc. unfold ret at 1. unfold bind at 1.
  rewrite IHall.
  destruct (alloc_items items (h ++ ext ++ new)) as [vs' h2]. done.
Qed.

Lemma copy_elems_alloc n h vs elems :
  (forall v t ext, read n h v = Some t ->
     deepcopy n v (h ++ ext) =
     (let '(v', h') := alloc t (h ++ ext) in (Return v', h'))) ->
  Forall2 (fun v t => read n h v = Some t) vs elems ->
  forall ext,
    map_m (deepcopy n) vs (h ++ ext) =
    (let '(vs', h') := alloc_elems elems (h ++ ext) in (Return vs', h')).
Proof.
  intros IH Hall. induction Hall as [|v t vs elems Hr _ IHall];
    intros ext; [done|].
  simpl. unfold bind at 1.
  rewrite (IH _ _ ext Hr).
  destruct (alloc t (h ++ ext)) as [v' h1] eqn:E1.
  destruct (alloc_rep t _ _ _ E1) as [[new ->] _].
  rewrite <- app_assoc. unfold bind at 1.
  rewrite IHall.
  destruct (alloc_elems elems (h ++ ext ++ new)) as [vs' h2]. done.
Qed.

Lemma deepcopy_dict n (h : heap) a vs :
  h !! a = Some (ODict vs) ->
  deepcopy (S n) (VRef a) h =
  (do vs' <- map_m (fun kv : string * val =>
                      do v' <- deepcopy n kv.2; ret (kv.1, v')) vs;
   new_obj (ODict vs')) h.
Proof. intros Ha. simpl. by rewrite Ha. Qed.

Lemma deepcopy_list n (h : heap) a vs :
  h !! a = Some (OList vs) ->
  deepcopy (S n) (VRef a) h =
  (do vs' <- map_m (deepcopy n) vs; new_obj (OList vs')) h.
Proof. intros Ha. simpl. by rewrite Ha. Qed.

(** A deep copy of a readable value builds the objects of its document
    anew. *)
Lemma deepcopy_alloc fuel :
  forall h v t ext, read fuel h v = Some t ->
    deepcopy fuel v (h ++ ext) =
    (let '(v', h') := alloc t (h ++ ext) in (Return v', h')).
Proof.
  induction fuel as [|n IH]; intros h v t ext Hr; [done|].
  destruct v as [|s|a].
  - by injection Hr as <-.
  - by injection Hr as <-.
  - destruct (h !! a) as [[vs|vs]|] eqn:Ha.
    + destruct (read_inv_dict _ _ _ _ _ Ha Hr) as (items & -> & Hall).
      rewrite (deepcopy_dict _ _ _ _ (lookup_app_l_Some _ _ _ _ Ha)).
      unfold bind at 1.
      rewrite (copy_items_alloc n h vs items (IH h) Hall ext).
      rewrite alloc_dict.
      destruct (alloc_items items (h ++ ext)) as [vs' h']. done.
    + destruct (read_inv_list _ _ _ _ _ Ha Hr) as (elems & -> & Hall).
      rewrite (deepcopy_list _ _ _ _ (lookup_app_l_Some _ _ _ _ Ha)).
      unfold bind at 1.
      rewrite (copy_elems_alloc n h vs elems (IH h) Hall ext).
      rewrite alloc_list.
      destruct (alloc_elems elems (h ++ ext)) as [vs' h']. done.
    + simpl in Hr. by rewrite Ha in Hr.
Qed.

(** ** Masking in the heap *)

Lemma get_app_notin {V} (k : string) (pre d : list (string * V)) :
  ~ In k (Dict.keys pre) -> Dict.get k (pre ++ d) = Dict.get k d.
Proof.
  induction pre as [|[k0 v0] pre IH]; simpl; [done|].
  intros Hn. destruct (String.eqb k0 k) eqn:E.
  - apply String.eqb_eq in E. tauto.
  - apply IH. tauto.
Qed.

Lemma set_app_notin {V} (k : string) (x v : V) (pre rest : list (string * V)) :
  ~ In k (Dict.keys pre) ->
  Dict.set k x (pre ++ (k, v) :: rest) = pre ++ (k, x) :: rest.
Proof.
  induction pre as [|[k0 v0] pre IH]; simpl.
  - by rewrite String.eqb_refl.
  - intros Hn. destruct (String.eqb k0 k) eqn:E.
    + apply String.eqb_eq in E. tauto.
    + rewrite IH; [done | tauto].
Qed.

Lemma NoDup_keys_middle {V} (k : string) (v : V) (pre rest : list (string * V)) :
  NoDup (Dict.keys (pre ++ (k, v) :: rest)) -> ~ In k (Dict.keys pre).
Proof.
  unfold Dict.keys. rewrite map_app. simpl. intros Hnd Hin.
  apply NoDup_app in Hnd as (_ & Hdisj & _).
  apply (Hdisj k); [by apply list_elem_of_In | left].
Qed.

Lemma keys_middle {V} (k : string) (v x : V) (pre rest : list (string * V)) :
  Dict.keys ((pre ++ [(k, x)]) ++ rest) = Dict.keys (pre ++ (k, v) :: rest).
Proof. unfold Dict.keys. rewrite <- app_assoc, !map_app. done. Qed.

Lemma rep_is_dict h t v lo hi :
  rep h t v lo hi -> is_dict h v = is_mapping t.
Proof. intros Hr. inversion Hr; subst; simpl; try done; by rewrite H1. Qed.

Lemma mask_secrets_dict n (h : heap) a vs :
  h !! a = Some (ODict vs) ->
  _mask_secrets (S n) (VRef a) h =
  for_each vs (mask_step (_mask_secrets n) a) h.
Proof. intros Ha. simpl. by rewrite Ha. Qed.

Lemma for_each_cons {S A} (x : A) (xs : list A) (body : A -> M S unit) s :
  for_each (x :: xs) body s =
  match body x s with
  | (Return _, s') => for_each xs body s'
  | (Raise e, s') => (Raise e, s')
  end.
Proof. reflexivity. Qed.

(** The loop of [_mask_secrets] over the entries of a dict, from a point
    where the entries [pre] have been dealt with. *)
Lemma mask_loop n :
  (forall t v h lo hi, rep h t v lo hi -> wf_doc t = true -> depth t <= n ->
     exists h', _mask_secrets n v h = (Return tt, h')
       /\ rep h' (mask_doc t) v lo hi /\ length h' = length h
       /\ (forall b, ~ (lo <= b < hi) -> h' !! b = h !! b)) ->
  forall items vs h lo hi pre a,
    reps_items h items vs lo hi -> hi <= a ->
    h !! a = Some (ODict (pre ++ vs)) ->
    NoDup (Dict.keys (pre ++ vs)) ->
    Forall (fun kt => wf_doc kt.2 = true /\ depth kt.2 <= n) items ->
    exists h' vs',
      for_each vs (mask_step (_mask_secrets n) a) h = (Return tt, h')
      /\ h' !! a = Some (ODict (pre ++ vs'))
      /\ reps_items h' (map mask_entry items) vs' lo hi
      /\ length h' = length h
      /\ (forall b, b <> a -> ~ (lo <= b < hi) -> h' !! b = h !! b).
Proof.
  intros IHn items.
  induction items as [|[k t] items IH];
    intros vs h lo hi pre a Hrs Hhi Ha Hnd Hall;
    inversion Hrs as [|? ? v ? vs_rest ? mid ? Hr Hrest]; subst.
  - exists h, []. split; [done|]. split; [done|].
    split; [by constructor | done].
  - inversion Hall as [|? ? [Hwf Hdepth] Hall']; subst. simpl in Hwf, Hdepth.
    pose proof (NoDup_keys_middle _ _ _ _ Hnd) as Hk.
    pose proof (proj1 (rep_le _) _ _ _ _ Hr) as Hlo.
    pose proof (proj1 (proj2 (rep_le _)) _ _ _ _ Hrest) as Hmid.
    rewrite for_each_cons. unfold mask_step at 1.
    rewrite (rep_is_dict _ _ _ _ _ Hr).
    (* the rest of the loop, from a heap that differs at [a] and in
       [lo, mid) only *)
    assert (forall h1 x t',
              h1 !! a = Some (ODict (pre ++ (k, x) :: vs_rest)) ->
              length h1 = length h ->
              (forall b, b <> a -> ~ (lo <= b < mid) -> h1 !! b = h !! b) ->
              rep h1 t' x lo mid ->
              exists h' vs',
                for_each vs_rest (mask_step (_mask_secrets n) a) h1
                = (Return tt, h')
                /\ h' !! a = Some (ODict (pre ++ vs'))
                /\ reps_items h' ((k, t') :: map mask_entry items) vs' lo hi
                /\ length h' = length h
                /\ (forall b, b <> a -> ~ (lo <= b < hi) -> h' !! b = h !! b))
      as Hcont.
    { intros h1 x t' Ha1 Hlen1 Hfr1 Hr1.
      destruct (IH vs_rest h1 mid hi (pre ++ [(k, x)]) a)
        as (h' & vs' & Hrun & Ha' & Hrs' & Hlen' & Hfr'); try done.
      - apply (proj1 (proj2 (rep_frame _)) _ _ _ _ Hrest).
        intros b Hb. apply Hfr1; lia.
      - by rewrite <- app_assoc.
      - by rewrite (keys_middle k v x).
      - exists h', ((k, x) :: vs'). split; [done|].
        split; [by rewrite <- app_assoc in Ha'|].
        split; [|split; [congruence|]].
        + econstructor; [|exact Hrs'].
          apply (proj1 (rep_frame _) _ _ _ _ Hr1).
          intros b Hb. apply Hfr'; lia.
        + intros b Hba Hb. rewrite Hfr' by (done || lia). apply Hfr1; [done|lia]. }
    destruct (is_mapping t) eqn:Et.
    + (* a dict value: the recursive call *)
      unfold bind, load_dict. rewrite Ha.
      rewrite (get_app_notin _ _ _ Hk). simpl. rewrite String.eqb_refl.
      destruct (IHn t v h lo mid Hr Hwf Hdepth)
        as (h1 & Hrun1 & Hr1 & Hlen1 & Hfr1).
      rewrite Hrun1.
      destruct (Hcont h1 v (mask_doc t)) as (h' & vs' & Hc); try done.
      * rewrite Hfr1 by lia. done.
      * intros b _ Hb. by apply Hfr1.
      * exists h', vs'. unfold mask_entry at 1. simpl.
        destruct t; try done.
    + destruct (is_secret_key k) eqn:Ek.
      * (* a secret that is not a dict: the assignment *)
        unfold bind, load_dict, store_dict, modify. rewrite Ha.
        rewrite (set_app_notin _ _ _ _ _ Hk).
        assert (a < length h) as Halen by (by eapply lookup_lt_Some).
        destruct (Hcont (<[a := ODict (pre ++ (k, VStr MASK) :: vs_rest)]> h)
                    (VStr MASK) (DStr MASK)) as (h' & vs' & Hc).
        -- by apply list_lookup_insert_eq.
        -- by rewrite length_insert.
        -- intros b Hba _. by apply list_lookup_insert_ne.
        -- by constructor.
        -- exists h', vs'. unfold mask_entry at 1. simpl. rewrite Ek.
           destruct t; try done.
      * (* anything else stays *)
        destruct (Hcont h v t) as (h' & vs' & Hc); try done.
        exists h', vs'. unfold mask_entry at 1. simpl. rewrite Ek.
        destruct t; try done.
Qed.

Lemma depth_pos (t : doc) : 1 <= depth t.
Proof. destruct t; simpl; lia. Qed.

Lemma reps_items_keys h items vs lo hi :
  reps_items h items vs lo hi -> Dict.keys vs = Dict.keys items.
Proof.
  revert vs lo. induction items as [|[k t] items IH]; intros vs lo Hrs;
    inversion Hrs; subst; [done|]. simpl. f_equal. by eapply IH.
Qed.

Lemma wf_doc_items (items : list (string * doc)) (n : nat) :
  wf_doc (DDict items) = true -> depth (DDict items) <= S n ->
  Forall (fun kt => wf_doc kt.2 = true /\ depth kt.2 <= n) items.
Proof.
  simpl. intros Hwf Hd. apply andb_true_iff in Hwf as [_ Hwf].
  assert (Forall (fun kt => depth kt.2 <= n) items) as Hdepth
    by (apply depth_items_le; lia).
  clear Hd. induction items as [|kt items IH]; [constructor|].
  simpl in Hwf. apply andb_true_iff in Hwf as [H1 H2].
  inversion Hdepth; subst. constructor; [done | by apply IH].
Qed.

Lemma mask_doc_dict (items : list (string * doc)) :
  mask_doc (DDict items) = DDict (map mask_entry items).
Proof. reflexivity. Qed.

(** [_mask_secrets] on a document held in the heap: it ends, the value
    then stands for the masked document, and no object outside the range
    of the document is touched. *)
Lemma mask_rep n :
  forall t v h lo hi, rep h t v lo hi -> wf_doc t = true -> depth t <= n ->
    exists h', _mask_secrets n v h = (Return tt, h')
      /\ rep h' (mask_doc t) v lo hi /\ length h' = length h
      /\ (forall b, ~ (lo <= b < hi) -> h' !! b = h !! b).
Proof.
  induction n as [|n IH]; intros t v h lo hi Hr Hwf Hd.
  { pose proof (depth_pos t). lia. }
  inversion Hr as [| |items vs ? a ? Hrs Ha Hobj|elems vs ? a ? Hrs Ha Hobj];
    subst.
  - exists h. by repeat split.
  - exists h. by repeat split.
  - rewrite (mask_secrets_dict _ _ _ _ Hobj).
    pose proof (proj1 (proj2 (rep_le _)) _ _ _ _ Hrs) as Hlo.
    destruct (mask_loop n (IH) items vs h lo a [] a Hrs)
      as (h' & vs' & Hrun & Ha' & Hrs' & Hlen & Hfr); try done.
    + simpl. rewrite (reps_items_keys _ _ _ _ _ Hrs). by apply wf_doc_keys.
    + by apply wf_doc_items.
    + exists h'. split; [done|]. split; [|split; [done|]].
      * rewrite mask_doc_dict. by econstructor.
      * intros b Hb. apply Hfr; lia.
  - exists h. simpl. rewrite Hobj. by repeat split.
Qed.

Lemma depth_mask_doc (t : doc) : depth (mask_doc t) <= depth t.
Proof.
  induction t as [|s|items IH|elems IH] using doc_ind'; try done.
  rewrite mask_doc_dict. simpl. apply le_n_S.
  induction IH as [|[k t] items Ht _ IHitems]; simpl; [done|].
  unfold mask_entry at 1. simpl in *.
  pose proof (depth_pos t).
  destruct t; simpl in *; try destruct (is_secret_key k); simpl; lia.
Qed.

(** ** Dumps *)

Section DumpFacts.
Context `{XmlLib}.

(** What [_dump_config] does to a config that reads as the document [t]:
    the objects that existed stay as they are, and the result stands for
    the document, masked if asked for. *)
Lemma dump_config_spec fuel (h : heap) config t (mask_secrets xml_format : bool) :
  read fuel h config = Some t -> wf_doc t = true ->
  let t' := if mask_secrets then mask_doc t else t in
  let run := _dump_config fuel config mask_secrets xml_format h in
  preserved h (snd run)
  /\ read fuel (snd run) config = Some t
  /\ (if xml_format
      then fst run = match xml_unparse t' with
                     | Some s => Return (DumpXml s)
                     | None => Raise UnparseError
                     end
      else exists r, fst run = Return (DumpTree r)
                     /\ read fuel (snd run) r = Some t').
Proof.
  intros Hread Hwf t' run.
  pose proof (read_depth _ _ _ _ Hread) as Hdepth.
  pose proof (deepcopy_alloc fuel h config t [] Hread) as Hcopy.
  rewrite app_nil_r in Hcopy.
  destruct (alloc t h) as [r h1] eqn:Ealloc.
  destruct (alloc_rep t _ _ _ Ealloc) as [[new ->] Hrep].
  assert (exists h2,
             (if mask_secrets then _mask_secrets fuel r else ret tt) (h ++ new)
             = (Return tt, h2)
             /\ preserved h h2 /\ read fuel h2 r = Some t') as (h2 & Hm & Hp & Hr).
  { destruct mask_secrets.
    - destruct (mask_rep fuel t r _ _ _ Hrep Hwf Hdepth)
        as (h2 & Hrun & Hrep2 & Hlen & Hfr).
      exists h2. split; [done|]. split.
      + intros a o Ha. rewrite Hfr.
        * by apply lookup_app_l_Some.
        * apply lookup_lt_Some in Ha. lia.
      + apply (proj1 (rep_read _) _ _ _ _ Hrep2).
        pose proof (depth_mask_doc t). lia.
    - exists (h ++ new). split; [done|]. split; [apply preserved_app|].
      by apply (proj1 (rep_read _) _ _ _ _ Hrep). }
  assert (run =
          (if xml_format
           then match xml_unparse t' with
                | Some s => Return (DumpXml s)
                | None => Raise UnparseError
                end
           else Return (DumpTree r), h2)) as Erun.
  { unfold run, _dump_config, bind. rewrite Hcopy, Hm.
    destruct xml_format; [|done]. rewrite Hr. by destruct (xml_unparse t'). }
  rewrite Erun. simpl. split; [done|].
  split; [by eapply read_preserved|].
  destruct xml_format; [done|]. by exists r.
Qed.

(** C3, amended: the masking pass of [dump] visits the root mapping and
    every mapping reached from it through mapping values; there, the value
    of a key named [password], [secret_access_key], [header] or [identity]
    becomes the mask token unless it is itself a mapping (which is visited
    instead); every other key and value stays as it is, and lists are not
    entered. *)
Theorem dump_masks_secrets fuel (h : heap) config t :
  read fuel h config = Some t -> wf_doc t = true ->
  (exists r h',
      _dump_config fuel config true false h = (Return (DumpTree r), h')
      /\ read fuel h' r = Some (mask_doc t))
  /\ fst (_dump_config fuel config true true h)
     = match xml_unparse (mask_doc t) with
       | Some s => Return (DumpXml s)
       | None => Raise UnparseError
       end
  /\ (forall items, mask_doc (DDict items) = DDict (map mask_entry items))
  /\ (forall k items,
        mask_entry (k, DDict items) = (k, mask_doc (DDict items)))
  /\ (forall k v, is_mapping v = false ->
        mask_entry (k, v) = if is_secret_key k then (k, DStr MASK) else (k, v))
  /\ (forall elems, mask_doc (DList elems) = DList elems)
  /\ (forall k, is_secret_key k = true <->
                In k ["password"; "secret_access_key"; "header"; "identity"]).
Proof.
  intros Hread Hwf. split; [|split; [|repeat split]].
  - destruct (dump_config_spec fuel h config t true false Hread Hwf)
      as (_ & _ & r & Hfst & Hr).
    destruct (_dump_config fuel config true false h) as [o h'] eqn:E.
    simpl in *. subst o. by exists r, h'.
  - by destruct (dump_config_spec fuel h config t true true Hread Hwf)
      as (_ & _ & Hfst).
  - intros k v Hv. unfold mask_entry. simpl. by destruct v.
  - unfold is_secret_key, SECRET_KEYS. simpl. intros Hk.
    repeat (apply orb_true_iff in Hk as [Hk|Hk];
            [apply String.eqb_eq in Hk; subst; tauto|]).
    done.
  - unfold is_secret_key, SECRET_KEYS. simpl.
    intros [<-|[<-|[<-|[<-|[]]]]]; reflexivity.
Qed.

(** C4: [dump] and [dump_xml] of the three views work on a deep copy:
    after the call every object that existed before is as it was, and the
    config of the view reads as the same document. *)
Theorem dump_leaves_config_unchanged fuel (h : heap) config t p path
    mask_secrets :
  read fuel h config = Some t -> wf_doc t = true ->
  let unchanged (call : M heap dump_result) :=
    preserved h (snd (call h)) /\ read fuel (snd (call h)) config = Some t in
  let server := {| cfg_config := config; preprocessed := p |} in
  let users := {| users_config := config |} in
  let keeper := {| keeper_config := config; keeper_config_path := path |} in
  unchanged (ClickhouseConfig_dump fuel server mask_secrets)
  /\ unchanged (ClickhouseConfig_dump_xml fuel server mask_secrets)
  /\ unchanged (ClickhouseUsersConfig_dump fuel users mask_secrets)
  /\ unchanged (ClickhouseUsersConfig_dump_xml fuel users mask_secrets)
  /\ unchanged (ClickhouseKeeperConfig_dump fuel keeper mask_secrets)
  /\ unchanged (ClickhouseKeeperConfig_dump_xml fuel keeper mask_secrets).
Proof.
  intros Hread Hwf unchanged server users keeper.
  assert (forall xml, unchanged (_dump_config fuel config mask_secrets xml))
    as Hall.
  { intros xml.
    destruct (dump_config_spec fuel h config t mask_secrets xml Hread Hwf)
      as (Hp & Hr & _).
    by split. }
  repeat split; apply Hall.
Qed.
End DumpFacts.

Lemma dump_masks_secrets_witness :
  let '(config, h) := alloc sample_config [] in
  exists r h',
    @_dump_config sample_xml 3 config true false h
    = (Return (DumpTree r), h')
    /\ read 3 h' r
       = Some (DDict [("clickhouse",
                       DDict [("password", DStr "*****");
                              ("tcp_port", DStr "9000")])]).
Proof.
  exact (proj1 (@dump_masks_secrets sample_xml 3
                  (snd (alloc sample_config [])) (fst (alloc sample_config []))
                  sample_config eq_refl eq_refl)).
Defined.

(** C3 as stated fails: a password inside a list of mappings is not
    masked, and a mapping under a secret key is entered, not replaced. *)
Lemma dump_leaves_secrets_in_lists :
  (let '(config, h) := alloc replicas_config [] in
   exists r h',
     @_dump_config sample_xml 4 config true false h
     = (Return (DumpTree r), h')
     /\ read 4 h' r = Some replicas_config)
  /\ mask_claimed replicas_config
     = DDict [("replica",
               DList [DDict [("host", DStr "a"); ("password", DStr "*****")];
                      DDict [("host", DStr "b"); ("password", DStr "*****")]])]
  /\ (let '(config, h) := alloc nested_header_config [] in
      exists r h',
        @_dump_config sample_xml 4 config true false h
        = (Return (DumpTree r), h')
        /\ read 4 h' r = Some nested_header_config)
  /\ mask_claimed nested_header_config = DDict [("header", DStr "*****")].
Proof.
  split; [|split; [reflexivity|split; [|reflexivity]]].
  - vm_compute. eexists _, _. split; reflexivity.
  - vm_compute. eexists _, _. split; reflexivity.
Qed.

Lemma dump_leaves_config_unchanged_witness :
  let '(config, h) := alloc sample_config [] in
  let server := {| cfg_config := config; preprocessed := false |} in
  preserved h (snd (@ClickhouseConfig_dump sample_xml 3 server true h))
  /\ read 3 (snd (@ClickhouseConfig_dump sample_xml 3 server true h)) config
     = Some sample_config.
Proof.
  exact (proj1 (@dump_leaves_config_unchanged sample_xml 3
                  (snd (alloc sample_config [])) (fst (alloc sample_config []))
                  sample_config false "" true eq_refl eq_refl)).
Defined.

(** ** Include resolution *)

Lemma include_step_other (h hc : heap) r key incl root_cur k v :
  other_ok h key incl (k, v) ->
  hc !! r = Some (ODict root_cur) -> NoDup (Dict.keys root_cur) ->
  (forall c, v = VRef c -> c <> r /\ hc !! c = h !! c) ->
  exists h' root',
    include_step r (k, v) hc = (Return tt, h')
    /\ h' !! r = Some (ODict root') /\ NoDup (Dict.keys root')
    /\ Dict.get key root' = Dict.get key root_cur
    /\ Dict.get incl root' = Dict.get incl root_cur
    /\ (forall x, x <> r -> (marker h v = None \/ v <> VRef x) ->
          h' !! x = hc !! x).
Proof.
  intros (Hk & Hattr & Hm) Hr Hnd Hv. simpl in Hk, Hattr, Hm.
  assert (exists h' root',
            (Return tt, hc) = (Return tt, h')
            /\ h' !! r = Some (ODict root') /\ NoDup (Dict.keys root')
            /\ Dict.get key root' = Dict.get key root_cur
            /\ Dict.get incl root' = Dict.get incl root_cur
            /\ (forall x, x <> r -> (marker h v = None \/ v <> VRef x) ->
                  h' !! x = hc !! x)) as Hnoop
    by (exists hc, root_cur; by repeat split).
  destruct v as [|s|c]; try exact Hnoop.
  destruct (Hv c eq_refl) as [Hcr Hc].
  unfold include_step. rewrite Hc.
  destruct (h !! c) as [[sec|l]|] eqn:Eo; try exact Hnoop.
  destruct (Dict.get "@incl" sec) as [inc|] eqn:Ei; try exact Hnoop.
  simpl in Hattr. rewrite Eo, Ei in Hattr.
  destruct inc as [|i|]; try discriminate. simpl truthy.
  destruct (String.eqb i "") eqn:Ee; try exact Hnoop. simpl negb.
  assert (marker h (VRef c) = Some i) as Hmark
    by (simpl; by rewrite Eo, Ei, Ee).
  destruct (Hm i Hmark) as (Hi1 & Hi2 & Hk2).
  assert (r < length hc) as Hrlen by (by eapply lookup_lt_Some).
  assert (c < length hc) as Hclen
    by (eapply lookup_lt_Some; by rewrite Hc).
  assert (Dict.mem "@incl" sec = true) as Hmem
    by (unfold Dict.mem; by rewrite Ei).
  (* the two ways the root section comes out of the round *)
  assert (forall h1 root1,
            h1 !! r = Some (ODict root1) -> NoDup (Dict.keys root1) ->
            Dict.get key root1 = Dict.get key root_cur ->
            Dict.get incl root1 = Dict.get incl root_cur ->
            length h1 = length hc ->
            (forall x, x <> r -> h1 !! x = hc !! x) ->
            exists h' root',
              (do section' <- load_dict c;
               if Dict.mem "@incl" section'
               then store_dict c (Dict.del "@incl" section')
               else raise (KeyError "@incl")) h1 = (Return tt, h')
              /\ h' !! r = Some (ODict root') /\ NoDup (Dict.keys root')
              /\ Dict.get key root' = Dict.get key root_cur
              /\ Dict.get incl root' = Dict.get incl root_cur
              /\ (forall x, x <> r ->
                    (marker h (VRef c) = None \/ VRef c <> VRef x) ->
                    h' !! x = hc !! x)) as Hstrip.
  { intros h1 root1 Hr1 Hnd1 Hkey1 Hincl1 Hlen1 Hfr1.
    exists (<[c := ODict (Dict.del "@incl" sec)]> h1), root1.
    unfold bind, load_dict. rewrite (Hfr1 c Hcr), Hc, Hmem.
    split; [done|].
    split; [by rewrite list_lookup_insert_ne|].
    repeat split; try done.
    intros x Hxr [Hx|Hx]; [congruence|].
    rewrite list_lookup_insert_ne by congruence. by apply Hfr1. }
  unfold bind at 1, load_dict at 1. rewrite Hr.
  destruct (String.eqb i k) eqn:Eik; simpl negb; cbv iota.
  - unfold bind at 1, ret at 1. cbv beta iota.
    apply (Hstrip hc root_cur); done.
  - apply String.eqb_neq in Eik.
    destruct (Dict.get i root_cur) as [tg|] eqn:Etg.
    + unfold bind at 1, store_dict at 1, modify at 1. cbv beta iota.
      apply (Hstrip _ (Dict.del i (Dict.set k tg root_cur))).
      * by apply list_lookup_insert_eq.
      * by apply DictFacts.NoDup_keys_del, DictFacts.NoDup_keys_set.
      * rewrite DictFacts.get_del_ne by done.
        by rewrite DictFacts.get_set_ne.
      * rewrite DictFacts.get_del_ne by done.
        by rewrite DictFacts.get_set_ne.
      * by rewrite length_insert.
      * intros x Hx. by rewrite list_lookup_insert_ne.
    + unfold bind at 1, ret at 1. cbv beta iota.
      apply (Hstrip hc root_cur); done.
Qed.

Lemma refs_cons k v (rest : list (string * val)) :
  refs ((k, v) :: rest) =
  match v with VRef c => [c] | _ => [] end ++ refs rest.
Proof. reflexivity. Qed.

Lemma refs_app (d1 d2 : list (string * val)) :
  refs (d1 ++ d2) = refs d1 ++ refs d2.
Proof. unfold refs. by rewrite flat_map_app. Qed.

Lemma refs_In k c (d : list (string * val)) :
  In (k, VRef c) d -> In c (refs d).
Proof.
  intros Hin. unfold refs. apply in_flat_map. exists (k, VRef c).
  split; [done | by left].
Qed.

Lemma In_refs c (d : list (string * val)) :
  In c (refs d) -> exists k, In (k, VRef c) d.
Proof.
  unfold refs. intros Hin. apply in_flat_map in Hin as ([k v] & Hin & Hc).
  simpl in Hc. destruct v; try done. destruct Hc as [->|[]]. by exists k.
Qed.

Lemma for_each_app {S A} (xs ys : list A) (body : A -> M S unit) s :
  for_each (xs ++ ys) body s =
  match for_each xs body s with
  | (Return _, s') => for_each ys body s'
  | (Raise e, s') => (Raise e, s')
  end.
Proof.
  revert s. induction xs as [|x xs IH]; intros s; [done|].
  simpl. unfold bind. destruct (body x s) as [[[]|e] s']; [apply IH | done].
Qed.

(** The rounds of the loop for entries that leave [key] and [incl] in
    peace. *)
Lemma include_loop_others (h : heap) r key incl :
  forall rest hc root_cur,
    Forall (other_ok h key incl) rest ->
    NoDup (refs rest) -> ~ In r (refs rest) ->
    hc !! r = Some (ODict root_cur) -> NoDup (Dict.keys root_cur) ->
    (forall c, In c (refs rest) -> hc !! c = h !! c) ->
    exists h' root',
      for_each rest (include_step r) hc = (Return tt, h')
      /\ h' !! r = Some (ODict root') /\ NoDup (Dict.keys root')
      /\ Dict.get key root' = Dict.get key root_cur
      /\ Dict.get incl root' = Dict.get incl root_cur
      /\ (forall x, x <> r ->
            (forall k, In (k, VRef x) rest -> marker h (VRef x) = None) ->
            h' !! x = hc !! x).
Proof.
  induction rest as [|[k v] rest IH];
    intros hc root_cur Hall Hnd Hr Hroot Hkeys Hsame.
  - exists hc, root_cur. by repeat split.
  - inversion Hall as [|? ? Hkv Hall']; subst.
    rewrite refs_cons in Hnd, Hr, Hsame.
    apply NoDup_app in Hnd as (Hnd1 & Hdisj & Hnd2).
    destruct (include_step_other h hc r key incl root_cur k v Hkv Hroot Hkeys)
      as (h1 & root1 & Hrun1 & Hroot1 & Hkeys1 & Hk1 & Hi1 & Hfr1).
    { intros c ->. split.
      - intros ->. apply Hr. by left.
      - apply Hsame. by left. }
    destruct (IH h1 root1 Hall' Hnd2) as
      (h' & root' & Hrun & Hroot' & Hkeys' & Hk' & Hi' & Hfr'); try done.
    { intros Hin. apply Hr. apply in_or_app. by right. }
    { intros c Hc. rewrite Hfr1.
      - apply Hsame. apply in_or_app. by right.
      - intros ->. apply Hr. apply in_or_app. by right.
      - right. intros ->. apply (Hdisj c); [|by apply list_elem_of_In].
        apply list_elem_of_In. by left. }
    exists h', root'. rewrite for_each_cons, Hrun1.
    split; [done|]. split; [done|]. split; [done|].
    split; [congruence|]. split; [congruence|].
    intros x Hx Hun. rewrite Hfr'.
    + apply Hfr1; [done|].
      destruct v as [| |c]; try (right; done).
      destruct (Nat.eq_dec c x) as [->|Hne]; [|right; congruence].
      left. apply (Hun k). by left.
    + done.
    + intros k' Hk''. apply (Hun k'). by right.
Qed.

(** The round of the loop for the section [key] itself. *)
Lemma include_step_key (hc : heap) r key incl a section root_cur :
  hc !! r = Some (ODict root_cur) -> NoDup (Dict.keys root_cur) ->
  a <> r -> hc !! a = Some (ODict section) ->
  Dict.get "@incl" section = Some (VStr incl) ->
  incl <> "" -> incl <> key ->
  exists h' root',
    include_step r (key, VRef a) hc = (Return tt, h')
    /\ h' !! r = Some (ODict root') /\ NoDup (Dict.keys root')
    /\ h' !! a = Some (ODict (Dict.del "@incl" section))
    /\ (forall x, x <> r -> x <> a -> h' !! x = hc !! x)
    /\ match Dict.get incl root_cur with
       | Some target =>
           Dict.get key root' = Some target /\ Dict.get incl root' = None
       | None => root' = root_cur
       end.
Proof.
  intros Hroot Hkeys Har Ha Hincl Hne Hnk.
  assert (r < length hc) as Hrlen by (by eapply lookup_lt_Some).
  assert (a < length hc) as Halen by (by eapply lookup_lt_Some).
  assert (Dict.mem "@incl" section = true) as Hmem
    by (unfold Dict.mem; by rewrite Hincl).
  unfold include_step. rewrite Ha, Hincl. simpl truthy.
  apply String.eqb_neq in Hne. rewrite Hne. simpl negb.
  apply String.eqb_neq in Hnk. rewrite Hnk. simpl negb.
  apply String.eqb_neq in Hnk.
  unfold bind at 1, load_dict at 1. rewrite Hroot.
  destruct (Dict.get incl root_cur) as [target|] eqn:Et.
  - unfold bind at 1, store_dict at 1, modify at 1. cbv beta iota.
    unfold bind, load_dict.
    rewrite list_lookup_insert_ne by done. rewrite Ha, Hmem.
    eexists _, _. split; [reflexivity|].
    split; [rewrite list_lookup_insert_ne by done;
            by apply list_lookup_insert_eq|].
    split; [by apply DictFacts.NoDup_keys_del, DictFacts.NoDup_keys_set|].
    split; [apply list_lookup_insert_eq; by rewrite length_insert|].
    split.
    + intros x Hxr Hxa. by rewrite !list_lookup_insert_ne.
    + split.
      * rewrite DictFacts.get_del_ne by done. apply DictFacts.get_set_eq.
      * apply DictFacts.get_del_eq. by apply DictFacts.NoDup_keys_set.
  - unfold bind at 1, ret at 1. cbv beta iota.
    unfold bind, load_dict. rewrite Ha, Hmem.
    eexists _, _. split; [reflexivity|].
    split; [by rewrite list_lookup_insert_ne|].
    split; [done|].
    split; [by apply list_lookup_insert_eq|].
    split; [|done].
    intros x Hxr Hxa. by rewrite list_lookup_insert_ne.
Qed.

Lemma get_split {V} (k : string) (v : V) (d : list (string * V)) :
  Dict.get k d = Some v ->
  exists pre post, d = pre ++ (k, v) :: post /\ ~ In k (Dict.keys pre).
Proof.
  induction d as [|[k0 v0] d IH]; simpl; [done|].
  destruct (String.eqb k0 k) eqn:E.
  - apply String.eqb_eq in E. subst k0. intros [= ->].
    exists [], d. split; [done|]. by intros [].
  - apply String.eqb_neq in E. intros Hg.
    destruct (IH Hg) as (pre & post & -> & Hn).
    exists ((k0, v0) :: pre), post. split; [done|]. simpl. tauto.
Qed.

Lemma get_In_NoDup {V} (k : string) (v : V) (d : list (string * V)) :
  NoDup (Dict.keys d) -> In (k, v) d -> Dict.get k d = Some v.
Proof.
  induction d as [|[k0 v0] d IH]; simpl; [done|].
  intros Hnd. apply NoDup_cons in Hnd as [Hnin Hnd].
  intros [[= -> ->]|Hin].
  - by rewrite String.eqb_refl.
  - destruct (String.eqb k0 k) eqn:E; [|by apply IH].
    apply String.eqb_eq in E. subst k0. exfalso. apply Hnin.
    apply list_elem_of_In. apply in_map_iff. by exists (k, v).
Qed.

Lemma nodup_addrs_NoDup (l : list nat) : nodup_addrs l = true -> NoDup l.
Proof.
  induction l as [|a l IH]; simpl; [constructor|].
  intros Hb. apply andb_true_iff in Hb as [Ha Hl].
  apply NoDup_cons. split; [|by apply IH].
  intros Hin. apply negb_true_iff in Ha.
  assert (existsb (Nat.eqb a) l = true) as Hex; [|congruence].
  apply existsb_exists. exists a. split; [by apply list_elem_of_In|].
  apply Nat.eqb_refl.
Qed.

Lemma has_no_marker_None (h : heap) v :
  has_no_marker h v = true -> marker h v = None.
Proof.
  destruct v as [| |b]; simpl; try done.
  destruct (h !! b) as [[sec|]|]; try done.
  unfold Dict.mem. by destruct (Dict.get "@incl" sec).
Qed.

Lemma refs_inj (d : list (string * val)) (x : nat) (k1 k2 : string) :
  NoDup (refs d) -> In (k1, VRef x) d -> In (k2, VRef x) d -> k1 = k2.
Proof.
  induction d as [|[k0 v0] d IH]; [done|].
  rewrite refs_cons. intros Hnd H1 H2.
  assert (v0 = VRef x -> ~ In x (refs d)) as Hhead.
  { intros ->. apply NoDup_cons in Hnd as [Hn _].
    by rewrite list_elem_of_In in Hn. }
  assert (NoDup (refs d)) as Hnd'
    by (by apply NoDup_app in Hnd as (_ & _ & Hnd)).
  destruct H1 as [E1|H1], H2 as [E2|H2].
  - congruence.
  - injection E1 as -> ->. destruct (Hhead eq_refl). by eapply refs_In.
  - injection E2 as -> ->. destruct (Hhead eq_refl). by eapply refs_In.
  - by apply IH.
Qed.

(** The pass over the whole root section, seen from one marked section
    that the other entries leave in peace. *)
Lemma include_pass_core (h : heap) r root key a section incl :
  h !! r = Some (ODict root) ->
  NoDup (Dict.keys root) -> NoDup (r :: refs root) ->
  Dict.get key root = Some (VRef a) -> h !! a = Some (ODict section) ->
  Dict.get "@incl" section = Some (VStr incl) ->
  incl <> "" -> incl <> key ->
  (forall k v, In (k, v) root -> k <> key -> other_ok h key incl (k, v)) ->
  exists h' root',
    for_each root (include_step r) h = (Return tt, h')
    /\ h' !! r = Some (ODict root')
    /\ h' !! a = Some (ODict (Dict.del "@incl" section))
    /\ match Dict.get incl root with
       | Some target =>
           Dict.get key root' = Some target /\ Dict.get incl root' = None
       | None => Dict.get key root' = Some (VRef a)
       end
    /\ (forall x, x <> r -> x <> a ->
          (forall k, In (k, VRef x) root -> marker h (VRef x) = None) ->
          h' !! x = h !! x).
Proof.
  intros Hroot Hkeys Haddrs Hkey Ha Hincl Hne Hnk Hothers.
  destruct (get_split _ _ _ Hkey) as (pre & post & -> & Hpre).
  apply NoDup_cons in Haddrs as [Hr Haddrs].
  rewrite list_elem_of_In in Hr.
  rewrite refs_app, refs_cons in Hr, Haddrs.
  apply NoDup_app in Haddrs as (Hnd1 & Hdisj1 & Hnd2).
  apply NoDup_app in Hnd2 as (_ & Hdisj2 & Hnd3).
  assert (~ In a (refs pre)) as Hapre.
  { intros Hin. apply (Hdisj1 a); [by apply list_elem_of_In|].
    apply list_elem_of_In. apply in_or_app. left. by left. }
  assert (~ In a (refs post)) as Hapost.
  { intros Hin. apply (Hdisj2 a); [apply list_elem_of_In; by left|].
    by apply list_elem_of_In. }
  assert (a <> r) as Har.
  { intros ->. apply Hr. apply in_or_app. right. by left. }
  assert (~ In key (Dict.keys post)) as Hpost.
  { unfold Dict.keys in *. rewrite map_app in Hkeys. simpl in Hkeys.
    apply NoDup_app in Hkeys as (_ & _ & Hk).
    apply NoDup_cons in Hk as [Hk _]. by rewrite list_elem_of_In in Hk. }
  assert (Forall (other_ok h key incl) pre) as Hallpre.
  { apply Forall_forall. intros [k v] Hin. apply list_elem_of_In in Hin.
    apply Hothers; [apply in_or_app; by left|].
    intros ->. apply Hpre. apply in_map_iff. by exists (key, v). }
  assert (Forall (other_ok h key incl) post) as Hallpost.
  { apply Forall_forall. intros [k v] Hin. apply list_elem_of_In in Hin.
    apply Hothers; [apply in_or_app; right; by right|].
    intros ->. apply Hpost. apply in_map_iff. by exists (key, v). }
  (* the entries before [key] *)
  destruct (include_loop_others h r key incl pre h
              (pre ++ (key, VRef a) :: post) Hallpre Hnd1)
    as (h1 & root1 & Hrun1 & Hroot1 & Hkeys1 & Hk1 & Hi1 & Hfr1); try done.
  { intros Hin. apply Hr. apply in_or_app. by left. }
  assert (h1 !! a = Some (ODict section)) as Ha1.
  { rewrite Hfr1; [done..|]. intros k Hin. destruct Hapre.
    by eapply refs_In. }
  (* [key] itself *)
  destruct (include_step_key h1 r key incl a section root1)
    as (h2 & root2 & Hrun2 & Hroot2 & Hkeys2 & Ha2 & Hfr2 & Hres2);
    try done.
  (* the entries after it *)
  destruct (include_loop_others h r key incl post h2 root2 Hallpost Hnd3)
    as (h3 & root3 & Hrun3 & Hroot3 & Hkeys3 & Hk3 & Hi3 & Hfr3); try done.
  { intros Hin. apply Hr. apply in_or_app. right. by right. }
  { intros c Hc.
    assert (c <> r) as Hcr
      by (intros ->; apply Hr; apply in_or_app; right; by right).
    rewrite Hfr2; [|done|congruence].
    apply Hfr1; [done|]. intros k Hin. exfalso.
    apply (Hdisj1 c); [apply list_elem_of_In; by eapply refs_In|].
    apply list_elem_of_In. apply in_or_app. by right. }
  exists h3, root3. split; [|split; [done|split; [|split]]].
  - rewrite for_each_app, Hrun1, for_each_cons, Hrun2. exact Hrun3.
  - rewrite Hfr3; [done..|]. intros k Hin. destruct Hapost.
    by eapply refs_In.
  - rewrite Hi1 in Hres2.
    destruct (Dict.get incl (pre ++ (key, VRef a) :: post)) as [target|].
    + destruct Hres2 as [Hres2 Hres2']. split; congruence.
    + subst root2. rewrite Hk3, Hk1. done.
  - intros x Hxr Hxa Hun.
    rewrite Hfr3; [|done|]; [rewrite Hfr2 by done; apply Hfr1; [done|]|].
    + intros k Hin. apply (Hun k). apply in_or_app. by left.
    + intros k Hin. apply (Hun k). apply in_or_app. right. by right.
Qed.

(** C1, amended: take a child section [key] of the root that is a mapping
    with a non-empty [@incl] marker [incl] different from [key], in a root
    where no other section's marker names [incl] or [key].  If a sibling
    [incl] exists and carries no marker itself, then after the pass [key]
    maps to that sibling's value (the same object, untouched), the key
    [incl] is gone and no marker is present; if no sibling [incl] exists,
    the section is as before but for its marker, which is removed. *)
Theorem include_pass_spec (h : heap) c root_key others r root key a section
    incl :
  h !! c = Some (ODict ((root_key, VRef r) :: others)) ->
  h !! r = Some (ODict root) ->
  wf_sections h r root = true ->
  Dict.get key root = Some (VRef a) -> h !! a = Some (ODict section) ->
  Dict.get "@incl" section = Some (VStr incl) ->
  incl <> "" -> incl <> key ->
  (forall k v, In (k, v) root -> k <> key ->
     marker h v <> Some incl /\ marker h v <> Some key) ->
  (forall target, Dict.get incl root = Some target ->
     has_no_marker h target = true) ->
  exists h' root',
    process_includes (VRef c) h = (Return tt, h')
    /\ h' !! r = Some (ODict root')
    /\ match Dict.get incl root with
       | Some target =>
           Dict.get key root' = Some target
           /\ Dict.get incl root' = None
           /\ has_no_marker h' target = true
           /\ (forall b, target = VRef b -> h' !! b = h !! b)
       | None =>
           Dict.get key root' = Some (VRef a)
           /\ h' !! a = Some (ODict (Dict.del "@incl" section))
           /\ (NoDup (Dict.keys section) ->
               Dict.get "@incl" (Dict.del "@incl" section) = None)
       end.
Proof.
  intros Hc Hroot Hwf Hkey Ha Hincl Hne Hnk Hothers Htarget.
  unfold wf_sections in Hwf.
  apply andb_true_iff in Hwf as [Hwf Hattr].
  apply andb_true_iff in Hwf as [Hkeys Haddrs].
  apply nodup_keys_NoDup in Hkeys. apply nodup_addrs_NoDup in Haddrs.
  assert (forall k v, In (k, v) root -> k <> key ->
            other_ok h key incl (k, v)) as Hok.
  { intros k v Hin Hk. split; [done|]. split.
    - apply (proj1 (forallb_forall _ _) Hattr (k, v) Hin).
    - simpl. intros m Hm. destruct (Hothers k v Hin Hk) as [H1 H2].
      split; [congruence|]. split; [congruence|].
      intros ->. pose proof (get_In_NoDup _ _ _ Hkeys Hin) as Hg.
      apply Htarget, has_no_marker_None in Hg. congruence. }
  destruct (include_pass_core h r root key a section incl
              Hroot Hkeys Haddrs Hkey Ha Hincl Hne Hnk Hok)
    as (h' & root' & Hrun & Hroot' & Ha' & Hres & Hfr).
  exists h', root'. split; [|split; [done|]].
  - unfold process_includes, bind at 1, load_dict at 1. rewrite Hc.
    unfold bind, load_dict. rewrite Hroot. exact Hrun.
  - destruct (Dict.get incl root) as [target|] eqn:Et.
    + destruct Hres as [Hres1 Hres2]. split; [done|]. split; [done|].
      assert (forall b, target = VRef b -> h' !! b = h !! b) as Hsame.
      { intros b ->.
        destruct (get_split _ _ _ Et) as (pre & post & Hsplit & _).
        assert (In (incl, VRef b) root) as Hin
          by (rewrite Hsplit; apply in_or_app; right; by left).
        apply NoDup_cons in Haddrs as [Hr Haddrs].
        rewrite list_elem_of_In in Hr.
        destruct (get_split _ _ _ Hkey) as (pre' & post' & Hsplit' & _).
        assert (In (key, VRef a) root) as Hina
          by (rewrite Hsplit'; apply in_or_app; right; by left).
        apply Hfr.
        - intros ->. apply Hr. by eapply refs_In.
        - intros ->. apply Hnk. by apply (refs_inj root a).
        - intros k Hk. apply has_no_marker_None. by apply Htarget. }
      split; [|done].
      specialize (Htarget target eq_refl).
      destruct target as [| |b]; try done. simpl in *.
      by rewrite (Hsame b eq_refl).
    + split; [done|]. split; [done|]. apply DictFacts.get_del_eq.
Qed.

Lemma include_pass_spec_witness :
  let '(config, h) := alloc include_config [] in
  exists h' root',
    process_includes config h = (Return tt, h')
    /\ h' !! 2 = Some (ODict root')
    /\ Dict.get "foo" root' = Some (VRef 1)
    /\ Dict.get "bar" root' = None
    /\ has_no_marker h' (VRef 1) = true
    /\ (forall b, VRef 1 = VRef b -> h' !! b = (snd (alloc include_config [])) !! b).
Proof.
  exact (@include_pass_spec (snd (alloc include_config [])) 3 "clickhouse" []
           2 [("foo", VRef 0); ("bar", VRef 1); ("baz", VStr "text")]
           "foo" 0 [("@incl", VStr "bar"); ("y", VStr "2")] "bar"
           eq_refl eq_refl eq_refl eq_refl eq_refl eq_refl
           ltac:(discriminate) ltac:(discriminate)
           ltac:(intros k v [E|[E|[E|[]]]]; injection E as <- <-;
                 intros Hk; try congruence; split; vm_compute; discriminate)
           ltac:(intros target [= <-]; reflexivity)).
Defined.

(** C1 as stated fails where two sections name the same sibling: the
    first takes its contents and removes it, the second finds it gone and
    is left with its marker stripped, empty. *)
Lemma include_second_section_left_empty :
  let '(config, h) := alloc shared_include_config [] in
  exists h',
    process_includes config h = (Return tt, h')
    /\ read 4 h' config
       = Some (DDict [("clickhouse",
                       DDict [("a", DDict [("x", DStr "1")]);
                              ("b", DDict [])])]).
Proof. vm_compute. eexists. split; reflexivity. Qed.

(** * Further properties of the code *)

(** ** Stripping and splitting *)

Module PyStrMore.
Import PyStr.

Lemma lstrip_head (s : string) : head_space (lstrip s) = false.
Proof.
  induction s as [|c s IH]; simpl; [done|].
  destruct (isspace c) eqn:E; [done|]. simpl. done.
Qed.

Lemma rstrip_last (s : string) : last_space (rstrip s) = false.
Proof.
  induction s as [|c s IH]; simpl; [done|].
  destruct (rstrip s) as [|d r] eqn:E.
  - destruct (isspace c) eqn:Ec; simpl; done.
  - simpl in *. done.
Qed.

Lemma rstrip_head (s : string) :
  head_space s = false -> head_space (rstrip s) = false.
Proof.
  destruct s as [|c s]; simpl; [done|]. intros Hc.
  destruct (rstrip s); simpl; by rewrite ?Hc.
Qed.

Lemma lstrip_id (s : string) : head_space s = false -> lstrip s = s.
Proof. destruct s as [|c s]; simpl; [done|]. by intros ->. Qed.

Lemma rstrip_id (s : string) : last_space s = false -> rstrip s = s.
Proof.
  induction s as [|c s IH]; simpl; [done|].
  destruct s as [|d s].
  - simpl. by intros ->.
  - intros Hl. rewrite IH by done. done.
Qed.

(** What [strip] returns neither starts nor ends with whitespace, and
    stripping it again changes nothing. *)
Lemma strip_stripped (s : string) :
  head_space (strip s) = false /\ last_space (strip s) = false
  /\ strip (strip s) = strip s.
Proof.
  assert (head_space (strip s) = false) as Hh
    by (apply rstrip_head, lstrip_head).
  assert (last_space (strip s) = false) as Hl by apply rstrip_last.
  split; [done|]. split; [done|].
  unfold strip at 1. rewrite (lstrip_id _ Hh). by apply rstrip_id.
Qed.

(** A split has one piece more than the string has separators. *)
Lemma split_length (c : ascii) (s : string) :
  length (split c s) = S (count_char c s).
Proof.
  unfold count_char, chars. induction s as [|d s IH]; simpl; [done|].
  destruct (Ascii.eqb d c) eqn:E.
  - apply Ascii.eqb_eq in E. subst d. simpl.
    destruct (ascii_dec c c); [|done]. by rewrite IH.
  - apply Ascii.eqb_neq in E.
    destruct (ascii_dec d c); [done|].
    destruct (split c s); simpl in *; [done | by rewrite <- IH].
Qed.

End PyStrMore.

(** X1: for a value that holds commas, [_format_str_match] lists one
    quoted item more than there are commas (so a trailing comma adds an
    empty item), and no item starts or ends with whitespace. *)
Theorem format_str_match_items (v : string) :
  In ","%char (PyStr.chars v) ->
  exists items,
    _format_str_match (Some v)
    = Some ("IN (" ++
            PyStr.join "," (map (fun i => "'" ++ i ++ "'")%string items)
            ++ ")")%string
    /\ length items = S (count_char "," v)
    /\ Forall (fun i => head_space i = false /\ last_space i = false) items.
Proof.
  intros Hv. exists (map PyStr.strip (PyStr.split "," v)).
  split; [|split].
  - unfold _format_str_match.
    destruct (PyStr.find "," v <? 0)%Z eqn:E.
    + apply Z.ltb_lt, PyStrFacts.find_neg_iff in E. done.
    + by rewrite map_map.
  - rewrite length_map. apply PyStrMore.split_length.
  - apply Forall_forall. intros i Hi. apply list_elem_of_In in Hi.
    apply in_map_iff in Hi as (p & <- & _).
    destruct (PyStrMore.strip_stripped p) as (Hh & Hl & _). by split.
Qed.

Lemma format_str_match_items_witness :
  exists items,
    _format_str_match (Some " a ,b,")
    = Some ("IN (" ++
            PyStr.join "," (map (fun i => "'" ++ i ++ "'")%string items)
            ++ ")")%string
    /\ length items = 3
    /\ Forall (fun i => head_space i = false /\ last_space i = false) items.
Proof.
  apply (format_str_match_items " a ,b,"). vm_compute. tauto.
Defined.

(** ** What [query] returns and sends *)

Section QueryShape.
Context `{Net}.

Lemma query_body_return render q args fmt pd t echo dry st r :
  fst (query_body render q args fmt pd t echo dry st) = Return r ->
  match r with
  | QNone => dry = true
  | QJson _ => dry = false /\ is_json_format fmt = true
  | QText s =>
      dry = false /\ is_json_format fmt = false
      /\ head_space s = false /\ last_space s = false
  end.
Proof.
  unfold query_body, bind at 1.
  destruct (render_args render q args st) as [[q1|e] st1]; [|done].
  unfold bind at 1.
  destruct ((if echo then print _ else ret tt) st1) as [[[]|e] st2];
    [|done].
  destruct dry; [by intros [= <-]|].
  unfold bind at 1, get_state. unfold bind, session_post.
  destruct (transport _ _) as [e|resp]; [done|]. simpl fst.
  unfold handle_response. destruct (is_http_error resp); [done|].
  destruct (PyStrMore.strip_stripped (text resp)) as (Hh & Hl & _).
  destruct fmt as [f|]; simpl is_json_format.
  - destruct (String.eqb f "JSON" || String.eqb f "JSONCompact").
    + destruct (json_loads (text resp)); [|done]. by intros [= <-].
    + by intros [= <-].
  - by intros [= <-].
Qed.

(** X2: what [query] returns, when it returns, follows from how it was
    called: a dry run gives [None]; otherwise, with the format JSON or
    JSONCompact, the document parsed from a response body; and with any
    other format or none, a text that neither starts nor ends with
    whitespace. *)
Theorem query_result_shape q args fmt pd t echo (dry : bool) st r :
  fst (query q args fmt pd t echo dry st) = Return r ->
  if dry then r = QNone
  else if is_json_format fmt then exists d, r = QJson d
  else exists s,
      r = QText s /\ head_space s = false /\ last_space s = false.
Proof.
  unfold query, query_with, retry, retry_stats. intros Hr.
  apply retry_loop_return in Hr as [st0 Hr].
  apply query_body_return in Hr.
  destruct r as [|s|d].
  - by rewrite Hr.
  - destruct Hr as (-> & -> & Hh & Hl). by exists s.
  - destruct Hr as (-> & ->). by exists d.
Qed.
End QueryShape.

Lemma query_result_shape_witness :
  fst (@query flaky_net "SELECT 1" None None None None false false
         fresh_state) = Return (QText "ok")
  /\ exists s, QText "ok" = QText s
               /\ head_space s = false /\ last_space s = false.
Proof.
  split; [reflexivity|].
  exact (@query_result_shape flaky_net "SELECT 1" None None None None false
           false fresh_state (QText "ok") eq_refl).
Defined.

(** ** Retrying *)

Lemma retry_stats_single {A} (ex : exn -> bool) (n : nat) (mi : Q)
    (f : M cstate A) (st : cstate) :
  n <= 1 \/ attempt_final ex mi f st 0 ->
  retry_stats ex n mi f st = (f st, 1).
Proof.
  intros [Hn|Hfin].
  - unfold retry_stats. replace (n - 1) with 0 by lia. simpl.
    destruct (f st) as [[a|e] st']; [done|]. by destruct (ex e).
  - unfold retry_stats, attempt_final in *. simpl in Hfin.
    destruct (n - 1); simpl; destruct (f st) as [[a|e] st'];
      simpl in *; try rewrite Hfin; done.
Qed.

(** X3: [retry] makes exactly one attempt, and gives its outcome as it
    is, when at most one attempt is allowed (zero allowed attempts still
    mean one call) or when the first attempt returns or raises an
    exception that is not of the retried kind. *)
Theorem retry_single_attempt {A} (ex : exn -> bool) (n : nat) (mi : Q)
    (f : M cstate A) (st : cstate) :
  n <= 1 \/ attempt_final ex mi f st 0 ->
  retry_stats ex n mi f st = (f st, 1) /\ retry ex n mi f st = f st.
Proof.
  intros Hcase. pose proof (retry_stats_single ex n mi f st Hcase) as E.
  split; [done|]. unfold retry. by rewrite E.
Qed.

Lemma retry_single_attempt_witness :
  retry_stats is_connection_error 0 5
    (@session_post down_net
       (@make_request fresh_state.(client) "SELECT 1" None None))
    fresh_state
  = (@session_post down_net
       (@make_request fresh_state.(client) "SELECT 1" None None)
       fresh_state, 1).
Proof.
  apply (retry_single_attempt is_connection_error 0 5). left. lia.
Defined.

Section PlainQuery.
Context `{Net}.

(** A function that, whatever it returns, posts one request made from the
    client, prints [out] and leaves the client alone. *)
Lemma retry_loop_trace {A} (f : M cstate A) (rqf : ClickhouseClient -> request)
    (out : list string) ex mi :
  (forall st, client (snd (f st)) = client st
              /\ posts (snd (f st)) = posts st ++ [rqf (client st)]
              /\ stdout (snd (f st)) = stdout st ++ out
              /\ waits (snd (f st)) = waits st) ->
  forall more n st,
    let run := retry_loop ex mi more n f st in
    let made := snd run in
    let st' := snd (fst run) in
    n <= made
    /\ client st' = client st
    /\ posts st' = posts st ++ replicate (S (made - n)) (rqf (client st))
    /\ stdout st' = stdout st ++ concat (replicate (S (made - n)) out)
    /\ waits st' = waits st ++ map (wait_high mi) (seq n (made - n)).
Proof.
  intros Hf. induction more as [|more IH]; intros n st; simpl.
  - destruct (Hf st) as (Hc & Hp & Ho & Hw).
    destruct (f st) as [[a|e] st1]; simpl in *.
    + rewrite Nat.sub_diag. simpl. by rewrite !app_nil_r.
    + destruct (ex e); simpl; rewrite Nat.sub_diag; simpl;
        by rewrite !app_nil_r.
  - destruct (Hf st) as (Hc & Hp & Ho & Hw).
    destruct (f st) as [[a|e] st1]; simpl in *.
    + rewrite Nat.sub_diag. simpl. by rewrite !app_nil_r.
    + destruct (ex e); simpl.
      * specialize (IH (S n) (log_wait (wait_high mi n) st1)).
        simpl in IH. destruct IH as (Hn & Hc' & Hp' & Ho' & Hw').
        split; [lia|]. split; [congruence|].
        replace (snd (retry_loop ex mi more (S n) f
                        (log_wait (wait_high mi n) st1)) - n)
          with (S (snd (retry_loop ex mi more (S n) f
                          (log_wait (wait_high mi n) st1)) - S n)) by lia.
        split; [|split].
        -- rewrite Hp', Hp, Hc. simpl. by rewrite <- app_assoc.
        -- rewrite Ho', Ho. simpl. by rewrite <- app_assoc.
        -- rewrite Hw', Hw. simpl. by rewrite <- app_assoc.
      * rewrite Nat.sub_diag. simpl. by rewrite !app_nil_r.
Qed.

Lemma query_body_plain_state render q fmt pd t (echo : bool) st :
  let st' := snd (query_body render q None fmt pd t echo false st) in
  client st' = client st
  /\ posts st' = posts st ++ [make_request (client st) (with_format q fmt) pd t]
  /\ stdout st' = stdout st
                  ++ (if echo then [echo_line (with_format q fmt)] else [])
  /\ waits st' = waits st.
Proof.
  unfold query_body, bind. simpl.
  destruct echo; simpl; unfold session_post; simpl;
    destruct (transport _ _) as [e|resp]; simpl;
    try (unfold handle_response; destruct (is_http_error resp); simpl;
         try destruct fmt as [f|]; simpl;
         try destruct (String.eqb f "JSON" || String.eqb f "JSONCompact");
         try destruct (json_loads (text resp)); simpl);
    by rewrite ?app_nil_r.
Qed.

Lemma Qsum_waits_bound (k : nat) :
  k <= 4 -> (Qsum (map (wait_high 5) (seq 1 k)) <= 15 # 2)%Q.
Proof.
  intros Hk.
  destruct k as [|[|[|[|[|k]]]]]; try lia; vm_compute; discriminate.
Qed.

(** X4: a call to [query] without arguments posts one request per attempt,
    always the same one; with [echo] the query is printed once per attempt;
    the client object is not changed; between attempts [k] and [k+1] the
    wait is drawn from below the back-off bound of attempt [k], and all
    waits of a call add up to 7.5 seconds at most. *)
Theorem query_plain_trace q fmt pd t echo st :
  let st' := snd (query q None fmt pd t echo false st) in
  let made := query_attempts q None fmt pd t echo false st in
  let rq := make_request (client st) (with_format q fmt) pd t in
  client st' = client st
  /\ posts st' = posts st ++ replicate made rq
  /\ stdout st' = stdout st
       ++ (if echo then replicate made (echo_line (with_format q fmt))
           else [])
  /\ waits st' = waits st ++ map (wait_high 5) (seq 1 (made - 1))
  /\ (Qsum (map (wait_high 5) (seq 1 (made - 1))) <= 15 # 2)%Q.
Proof.
  intros st' made rq.
  pose proof (retry_loop_trace
                (query_body render_query q None fmt pd t echo false)
                (fun c => make_request c (with_format q fmt) pd t)
                (if echo then [echo_line (with_format q fmt)] else [])
                is_connection_error 5
                (fun st0 => query_body_plain_state render_query q fmt pd t
                              echo st0) 4 1 st) as Htrace.
  pose proof (retry_loop_attempts is_connection_error 5
                (query_body render_query q None fmt pd t echo false) st 4 1)
    as Hmade.
  assert (made = snd (retry_loop is_connection_error 5 4 1
                        (query_body render_query q None fmt pd t echo false)
                        st)) as Emade by reflexivity.
  assert (st' = snd (fst (retry_loop is_connection_error 5 4 1
                        (query_body render_query q None fmt pd t echo false)
                        st))) as Est by reflexivity.
  cbv zeta in Htrace. rewrite <- Emade, <- Est in Htrace.
  rewrite <- Emade in Hmade. clearbody made st'.
  destruct Htrace as (Hn & Hc & Hp & Ho & Hw).
  replace (S (made - 1)) with made in * by lia.
  split; [done|]. split; [done|]. split; [|split; [done|]].
  - rewrite Ho. f_equal. destruct echo; simpl.
    + clear. induction made as [|m IH]; simpl; [done | by rewrite IH].
    + clear. induction made as [|m IH]; simpl; done.
  - apply Qsum_waits_bound. lia.
Qed.
End PlainQuery.

Section DryRun.
Context `{Net}.

Lemma keeps_version_query_only d : keeps d is_version_request version_query.
Proof.
  unfold version_query, query_with. apply keeps_retry.
  apply keeps_query_body.
  - intros a. apply keeps_ret.
  - intros self q1 _ Hq. rewrite (Hq eq_refl).
    unfold is_version_request. simpl. apply DictFacts.get_set_eq.
Qed.

Lemma keeps_get_clickhouse_version_only d :
  keeps d is_version_request get_clickhouse_version.
Proof.
  intros st Hd. unfold get_clickhouse_version, bind at 1, get_state.
  cbv beta iota.
  destruct (_ch_version (client st)); try apply extends_refl.
  revert st Hd. apply keeps_bind; [apply keeps_version_query_only|].
  intros v. apply keeps_bind; [apply keeps_set_ch_version|].
  intros _. apply keeps_ret.
Qed.

Lemma keeps_run_template_only d (tm : tmpl) :
  keeps d is_version_request (run_template tm).
Proof.
  induction tm as [s|msg|v k IH|v k IH|v k IH]; simpl.
  - apply keeps_ret.
  - apply keeps_raise.
  - apply keeps_bind; [apply keeps_get_clickhouse_version_only|].
    intros cur. apply IH.
  - apply IH.
  - apply IH.
Qed.

Lemma keeps_query_body_dry d P render q args fmt pd t echo :
  (forall a, keeps d P (render q a)) ->
  keeps d P (query_body render q args fmt pd t echo true).
Proof.
  intros Hr. unfold query_body. apply keeps_bind.
  - unfold render_args. destruct args as [[|a args]|]; try apply keeps_ret.
    apply Hr.
  - intros q1. apply keeps_bind.
    + destruct echo; [apply keeps_print | apply keeps_ret].
    + intros _. apply keeps_ret.
Qed.

(** X5: a dry run does not send the query.  The only requests it can post
    are version queries made while rendering the template; when it
    returns, it returns [None]; without arguments it posts nothing at all
    and ends after one attempt. *)
Theorem query_dry_run q args fmt pd t echo st :
  let run := query q args fmt pd t echo true st in
  (exists ps, posts (snd run) = posts st ++ ps
              /\ Forall is_version_request ps)
  /\ (forall r, fst run = Return r -> r = QNone)
  /\ (args = None ->
      fst run = Return QNone /\ posts (snd run) = posts st
      /\ query_attempts q args fmt pd t echo true st = 1).
Proof.
  intros run. split; [|split].
  - assert (keeps (_timeout (client st)) is_version_request
              (query q args fmt pd t echo true)) as Hk.
    { unfold query, query_with. apply keeps_retry.
      apply keeps_query_body_dry. intros a. apply keeps_run_template_only. }
    by destruct (Hk st eq_refl) as (_ & Hps & _).
  - intros r Hr. unfold run, query, query_with, retry, retry_stats in Hr.
    apply retry_loop_return in Hr as [st0 Hr].
    apply query_body_return in Hr.
    destruct r; [done | by destruct Hr | by destruct Hr].
  - intros ->.
    assert (retry_stats is_connection_error 5 5
              (query_body render_query q None fmt pd t echo true) st
            = (query_body render_query q None fmt pd t echo true st, 1))
      as Estats.
    { apply retry_stats_single. right. unfold attempt_final. simpl.
      unfold query_body, bind. simpl. by destruct echo. }
    unfold run, query, query_with, query_attempts, retry.
    rewrite Estats. unfold query_body, bind. simpl.
    by destruct echo.
Qed.
End DryRun.

Lemma query_dry_run_witness :
  fst (@query down_net "SELECT 1" None (Some "JSON") None None true true
         fresh_state) = Return QNone
  /\ posts (snd (@query down_net "SELECT 1" None (Some "JSON") None None
                   true true fresh_state)) = []
  /\ @query_attempts down_net "SELECT 1" None (Some "JSON") None None true
       true fresh_state = 1.
Proof.
  destruct (@query_dry_run down_net "SELECT 1" None (Some "JSON") None None
              true fresh_state) as (_ & _ & Hplain).
  exact (Hplain eq_refl).
Defined.

(** ** Loading configs *)

Lemma alloc_read (t : doc) (h : heap) v h' :
  alloc t h = (v, h') ->
  read (depth t) h' v = Some t /\ preserved h h'.
Proof.
  intros Ha. destruct (alloc_rep t _ _ _ Ha) as [[new ->] Hrep]. split.
  - by apply (proj1 (rep_read _) _ _ _ _ Hrep).
  - apply preserved_app.
Qed.

Section LoadFacts.
Context `{XmlLib}.

(** X6: [ClickhouseKeeperConfig.load] reads the dedicated keeper config
    when that file exists and the preprocessed server config otherwise;
    the view holds the parsed file as it is, [separated] tells which of
    the two it was, and an error of reading or parsing is raised as it
    is. *)
Theorem keeper_load_spec fs (h : heap) :
  let config_path :=
    if fs_exists fs CLICKHOUSE_KEEPER_CONFIG_PATH
    then CLICKHOUSE_KEEPER_CONFIG_PATH
    else CLICKHOUSE_SERVER_PREPROCESSED_CONFIG_PATH in
  match _load_config fs config_path with
  | Raise e => ClickhouseKeeperConfig_load fs h = (Raise e, h)
  | Return d =>
      exists self h',
        ClickhouseKeeperConfig_load fs h = (Return self, h')
        /\ keeper_config_path self = config_path
        /\ separated self = fs_exists fs CLICKHOUSE_KEEPER_CONFIG_PATH
        /\ read (depth (DDict d)) h' (keeper_config self) = Some (DDict d)
        /\ preserved h h'
  end.
Proof.
  intros config_path. unfold ClickhouseKeeperConfig_load. fold config_path.
  unfold bind at 1, lift_outcome.
  destruct (_load_config fs config_path) as [d|e]; [|done].
  unfold bind, alloc_m, ret.
  destruct (alloc (DDict d) h) as [v h'] eqn:Ea.
  destruct (alloc_read _ _ _ _ Ea) as [Hread Hp].
  eexists _, _. split; [reflexivity|]. simpl.
  split; [done|]. split; [|by split].
  unfold separated, config_path. simpl.
  by destruct (fs_exists fs CLICKHOUSE_KEEPER_CONFIG_PATH).
Qed.

(** X7: [ClickhouseConfig.load] with a preprocessed config present returns
    that file as parsed, whatever the other config files hold: nothing is
    merged and include markers are left unresolved.  Whenever [load]
    returns, [preprocessed] tells whether the preprocessed file existed. *)
Theorem config_load_preprocessed fs (h : heap) :
  (forall self h', ClickhouseConfig_load fs h = (Return self, h') ->
     preprocessed self
     = fs_exists fs CLICKHOUSE_SERVER_PREPROCESSED_CONFIG_PATH)
  /\ (forall d,
        fs_exists fs CLICKHOUSE_SERVER_PREPROCESSED_CONFIG_PATH = true ->
        _load_config fs CLICKHOUSE_SERVER_PREPROCESSED_CONFIG_PATH
        = Return d ->
        exists self h',
          ClickhouseConfig_load fs h = (Return self, h')
          /\ preprocessed self = true
          /\ read (depth (DDict d)) h' (cfg_config self) = Some (DDict d)
          /\ preserved h h').
Proof.
  split.
  - intros self h'. unfold ClickhouseConfig_load.
    destruct (fs_exists fs CLICKHOUSE_SERVER_PREPROCESSED_CONFIG_PATH).
    + unfold bind at 1, lift_outcome.
      destruct (_load_config fs _) as [d|e]; [|done].
      unfold bind, alloc_m, ret. destruct (alloc (DDict d) h).
      by intros [= <- <-].
    + unfold bind at 1, lift_outcome.
      destruct (assemble fs) as [d|e]; [|done].
      unfold bind at 1, alloc_m. destruct (alloc (DDict d) h) as [v h1].
      unfold bind, ret. destruct (process_includes v h1) as [[[]|e] h2];
        [|done].
      by intros [= <- <-].
  - intros d Hex Hload. unfold ClickhouseConfig_load. rewrite Hex.
    unfold bind at 1, lift_outcome. rewrite Hload.
    unfold bind, alloc_m, ret.
    destruct (alloc (DDict d) h) as [v h'] eqn:Ea.
    destruct (alloc_read _ _ _ _ Ea) as [Hread Hp].
    by eexists _, _.
Qed.

(** X8: without a preprocessed config, a merged config whose root element
    is not a mapping (an empty element, plain text, or a repeated element)
    makes [load] fail with [AttributeError] in the include pass. *)
Theorem config_load_root_not_mapping fs (h : heap) root_key t rest :
  fs_exists fs CLICKHOUSE_SERVER_PREPROCESSED_CONFIG_PATH = false ->
  assemble fs = Return ((root_key, t) :: rest) ->
  is_mapping t = false ->
  fst (ClickhouseConfig_load fs h) = Raise AttributeError.
Proof.
  intros Hex Hasm Ht. unfold ClickhouseConfig_load. rewrite Hex.
  unfold bind at 1, lift_outcome. rewrite Hasm.
  unfold bind at 1, alloc_m.
  destruct (alloc (DDict ((root_key, t) :: rest)) h) as [v h1] eqn:Ea.
  destruct (alloc_rep _ _ _ _ Ea) as [_ Hrep].
  inversion Hrep as [| |items vs lo c hi Hrs Hc Hobj|]; subst.
  inversion Hrs as [|? ? v0 ? vs' ? mid ? Hr0 Hrest]; subst.
  unfold bind at 1, process_includes, bind at 1, load_dict at 1.
  rewrite Hobj.
  inversion Hr0; subst; try done.
  unfold bind, load_dict. by rewrite H2.
Qed.
End LoadFacts.

Lemma config_load_preprocessed_witness :
  exists self h',
    @ClickhouseConfig_load sample_xml
      {| fs_exists := fun _ => true;
         fs_read := fun _ => Some "<clickhouse><x>a</x></clickhouse>";
         fs_listdir := fun _ => None |} [] = (Return self, h')
    /\ preprocessed self = true
    /\ read 3 h' (cfg_config self)
       = Some (DDict [("clickhouse", DDict [("x", DStr "a")])])
    /\ preserved [] h'.
Proof.
  exact (proj2 (@config_load_preprocessed sample_xml
                  {| fs_exists := fun _ => true;
                     fs_read := fun _ =>
                       Some "<clickhouse><x>a</x></clickhouse>";
                     fs_listdir := fun _ => None |} [])
           [("clickhouse", DDict [("x", DStr "a")])] eq_refl eq_refl).
Defined.

Lemma config_load_root_not_mapping_witness :
  fst (@ClickhouseConfig_load
         {| xml_parse := fun _ => Some [("clickhouse", DNone)];
            xml_unparse := fun _ => None |}
         {| fs_exists := fun _ => false;
            fs_read := fun _ => Some "<clickhouse/>";
            fs_listdir := fun _ => Some [] |} [])
  = Raise AttributeError.
Proof.
  exact (@config_load_root_not_mapping
           {| xml_parse := fun _ => Some [("clickhouse", DNone)];
              xml_unparse := fun _ => None |}
           {| fs_exists := fun _ => false;
              fs_read := fun _ => Some "<clickhouse/>";
              fs_listdir := fun _ => Some [] |} []
           "clickhouse" DNone [] eq_refl eq_refl eq_refl).
Defined.

(** ** The include pass as a whole *)

Lemma keys_set_sub {V} k (v : V) k' (d : list (string * V)) :
  In k' (Dict.keys (Dict.set k v d)) -> In k' (Dict.keys d) \/ k' = k.
Proof.
  induction d as [|[k0 v0] d IH]; simpl.
  - intros [<-|[]]. by right.
  - destruct (String.eqb k0 k); simpl; [tauto|].
    intros [<-|Hin]; [tauto|]. destruct (IH Hin); tauto.
Qed.

Lemma In_set {V} k (v : V) k' v' (d : list (string * V)) :
  In (k', v') (Dict.set k v d) -> In (k', v') d \/ v' = v.
Proof.
  induction d as [|[k0 v0] d IH]; simpl.
  - intros [[= <- <-]|[]]. by right.
  - destruct (String.eqb k0 k); simpl.
    + intros [[= <- <-]|Hin]; tauto.
    + intros [E|Hin]; [tauto|]. destruct (IH Hin); tauto.
Qed.

Lemma In_del {V} k k' (v' : V) (d : list (string * V)) :
  In (k', v') (Dict.del k d) -> In (k', v') d.
Proof.
  induction d as [|[k0 v0] d IH]; simpl; [done|].
  destruct (String.eqb k0 k); simpl; tauto.
Qed.

Lemma get_In {V} k (v : V) (d : list (string * V)) :
  Dict.get k d = Some v -> In (k, v) d.
Proof.
  induction d as [|[k0 v0] d IH]; simpl; [done|].
  destruct (String.eqb k0 k) eqn:E.
  - apply String.eqb_eq in E. subst. intros [= ->]. by left.
  - intros Hg. right. by apply IH.
Qed.

(** One round of the loop on a well-formed root: it never raises, keeps
    the root a dict with unique keys, adds no key but its own, moves
    values without making new ones, strips the marker of a marked section
    and touches no other object. *)
Lemma include_step_total (h hc : heap) r root_cur k v :
  attr_ok h v = true ->
  hc !! r = Some (ODict root_cur) -> NoDup (Dict.keys root_cur) ->
  (forall c, v = VRef c -> c <> r /\ hc !! c = h !! c) ->
  exists h' root',
    include_step r (k, v) hc = (Return tt, h')
    /\ h' !! r = Some (ODict root') /\ NoDup (Dict.keys root')
    /\ length h' = length hc
    /\ (forall k', In k' (Dict.keys root') ->
          In k' (Dict.keys root_cur) \/ k' = k)
    /\ (forall k' v', In (k', v') root' -> exists k0, In (k0, v') root_cur)
    /\ (forall x, x <> r -> (marker h v = None \/ v <> VRef x) ->
          h' !! x = hc !! x)
    /\ (forall c, v = VRef c -> marker h v <> None ->
          exists sec, h !! c = Some (ODict sec)
                      /\ h' !! c = Some (ODict (Dict.del "@incl" sec))).
Proof.
  intros Hattr Hr Hnd Hv.
  assert (marker h v = None ->
          exists h' root',
            (Return tt, hc) = (Return tt, h')
            /\ h' !! r = Some (ODict root') /\ NoDup (Dict.keys root')
            /\ length h' = length hc
            /\ (forall k', In k' (Dict.keys root') ->
                  In k' (Dict.keys root_cur) \/ k' = k)
            /\ (forall k' v', In (k', v') root' ->
                  exists k0, In (k0, v') root_cur)
            /\ (forall x, x <> r -> (marker h v = None \/ v <> VRef x) ->
                  h' !! x = hc !! x)
            /\ (forall c, v = VRef c -> marker h v <> None ->
                  exists sec, h !! c = Some (ODict sec)
                    /\ h' !! c = Some (ODict (Dict.del "@incl" sec))))
    as Hnoop.
  { intros Hm. exists hc, root_cur. repeat split; try done.
    - intros k' Hk. by left.
    - intros k' v' Hin. by exists k'. }
  destruct v as [|s|c]; try (by apply Hnoop).
  destruct (Hv c eq_refl) as [Hcr Hc].
  unfold include_step. rewrite Hc.
  destruct (h !! c) as [[sec|l]|] eqn:Eo;
    try (apply Hnoop; simpl; by rewrite Eo).
  destruct (Dict.get "@incl" sec) as [inc|] eqn:Ei;
    try (apply Hnoop; simpl; by rewrite Eo, Ei).
  simpl in Hattr. rewrite Eo, Ei in Hattr.
  destruct inc as [|i|]; try discriminate. simpl truthy.
  destruct (String.eqb i "") eqn:Ee;
    try (apply Hnoop; simpl; by rewrite Eo, Ei, Ee).
  simpl negb.
  assert (r < length hc) as Hrlen by (by eapply lookup_lt_Some).
  assert (c < length hc) as Hclen by (by eapply lookup_lt_Some).
  assert (Dict.mem "@incl" sec = true) as Hmem
    by (unfold Dict.mem; by rewrite Ei).
  assert (forall h1 root1,
            h1 !! r = Some (ODict root1) -> NoDup (Dict.keys root1) ->
            length h1 = length hc ->
            (forall k', In k' (Dict.keys root1) ->
               In k' (Dict.keys root_cur) \/ k' = k) ->
            (forall k' v', In (k', v') root1 ->
               exists k0, In (k0, v') root_cur) ->
            (forall x, x <> r -> h1 !! x = hc !! x) ->
            exists h' root',
              (do section' <- load_dict c;
               if Dict.mem "@incl" section'
               then store_dict c (Dict.del "@incl" section')
               else raise (KeyError "@incl")) h1 = (Return tt, h')
              /\ h' !! r = Some (ODict root') /\ NoDup (Dict.keys root')
              /\ length h' = length hc
              /\ (forall k', In k' (Dict.keys root') ->
                    In k' (Dict.keys root_cur) \/ k' = k)
              /\ (forall k' v', In (k', v') root' ->
                    exists k0, In (k0, v') root_cur)
              /\ (forall x, x <> r ->
                    (marker h (VRef c) = None \/ VRef c <> VRef x) ->
                    h' !! x = hc !! x)
              /\ (forall c', VRef c = VRef c' -> marker h (VRef c) <> None ->
                    exists sec', h !! c' = Some (ODict sec')
                      /\ h' !! c' = Some (ODict (Dict.del "@incl" sec'))))
    as Hstrip.
  { intros h1 root1 Hr1 Hnd1 Hlen1 Hk1 Hv1 Hfr1.
    exists (<[c := ODict (Dict.del "@incl" sec)]> h1), root1.
    unfold bind, load_dict. rewrite (Hfr1 c Hcr), Hc, Hmem.
    split; [done|].
    split; [by rewrite list_lookup_insert_ne|].
    split; [done|]. split; [rewrite length_insert; lia|].
    split; [done|]. split; [done|]. split.
    - intros x Hxr [Hx|Hx].
      + simpl in Hx. by rewrite Eo, Ei, Ee in Hx.
      + rewrite list_lookup_insert_ne by congruence. by apply Hfr1.
    - intros c' [= <-] _. exists sec. split; [done|].
      apply list_lookup_insert_eq. lia. }
  unfold bind at 1, load_dict at 1. rewrite Hr.
  destruct (String.eqb i k) eqn:Eik; simpl negb; cbv iota.
  - unfold bind at 1, ret at 1. cbv beta iota.
    apply (Hstrip hc root_cur); try done.
    + intros k' Hk'. by left.
    + intros k' v' Hin. by exists k'.
  - destruct (Dict.get i root_cur) as [tg|] eqn:Etg.
    + unfold bind at 1, store_dict at 1, modify at 1. cbv beta iota.
      apply (Hstrip _ (Dict.del i (Dict.set k tg root_cur))).
      * by apply list_lookup_insert_eq.
      * by apply DictFacts.NoDup_keys_del, DictFacts.NoDup_keys_set.
      * by rewrite length_insert.
      * intros k' Hk'. apply DictFacts.keys_del_sub in Hk'.
        by apply keys_set_sub in Hk'.
      * intros k' v' Hin. apply In_del, In_set in Hin as [Hin| ->].
        -- by exists k'.
        -- exists i. by apply get_In.
      * intros x Hx. by rewrite list_lookup_insert_ne.
    + unfold bind at 1, ret at 1. cbv beta iota.
      apply (Hstrip hc root_cur); try done.
      * intros k' Hk'. by left.
      * intros k' v' Hin. by exists k'.
Qed.

Lemma include_loop_total (h : heap) r :
  forall rest hc root_cur,
    Forall (fun kv => attr_ok h kv.2 = true) rest ->
    NoDup (refs rest) -> ~ In r (refs rest) ->
    hc !! r = Some (ODict root_cur) -> NoDup (Dict.keys root_cur) ->
    (forall c, In c (refs rest) -> hc !! c = h !! c) ->
    exists h' root',
      for_each rest (include_step r) hc = (Return tt, h')
      /\ h' !! r = Some (ODict root') /\ NoDup (Dict.keys root')
      /\ length h' = length hc
      /\ (forall k', In k' (Dict.keys root') ->
            In k' (Dict.keys root_cur) \/ In k' (Dict.keys rest))
      /\ (forall k' v', In (k', v') root' -> exists k0, In (k0, v') root_cur)
      /\ (forall x, x <> r ->
            (forall k, In (k, VRef x) rest -> marker h (VRef x) = None) ->
            h' !! x = hc !! x)
      /\ (forall k c, In (k, VRef c) rest -> marker h (VRef c) <> None ->
            exists sec, h !! c = Some (ODict sec)
                        /\ h' !! c = Some (ODict (Dict.del "@incl" sec))).
Proof.
  induction rest as [|[k v] rest IH];
    intros hc root_cur Hall Hnd Hr Hroot Hkeys Hsame.
  - exists hc, root_cur. repeat split; try done.
    + intros k' Hk. by left.
    + intros k' v' Hin. by exists k'.
  - inversion Hall as [|? ? Hkv Hall']; subst. simpl in Hkv.
    rewrite refs_cons in Hnd, Hr, Hsame.
    apply NoDup_app in Hnd as (Hnd1 & Hdisj & Hnd2).
    destruct (include_step_total h hc r root_cur k v Hkv Hroot Hkeys)
      as (h1 & root1 & Hrun1 & Hroot1 & Hkeys1 & Hlen1 & Hsub1 & Hval1
          & Hfr1 & Hstrip1).
    { intros c ->. split.
      - intros ->. apply Hr. by left.
      - apply Hsame. by left. }
    assert (forall c, In c (refs rest) -> c <> r /\ v <> VRef c) as Hrest.
    { intros c Hc. split.
      - intros ->. apply Hr. apply in_or_app. by right.
      - intros ->. apply (Hdisj c); [|by apply list_elem_of_In].
        apply list_elem_of_In. by left. }
    destruct (IH h1 root1 Hall' Hnd2) as
      (h' & root' & Hrun & Hroot' & Hkeys' & Hlen' & Hsub' & Hval' & Hfr'
       & Hstrip'); try done.
    { intros Hin. apply Hr. apply in_or_app. by right. }
    { intros c Hc. destruct (Hrest c Hc) as [Hcr Hcv].
      rewrite Hfr1; [|done|by right]. apply Hsame. apply in_or_app. by right. }
    exists h', root'. rewrite for_each_cons, Hrun1.
    split; [done|]. split; [done|]. split; [done|]. split; [lia|].
    split; [|split; [|split]].
    + intros k' Hk'. destruct (Hsub' k' Hk') as [Hk1|Hk1].
      * destruct (Hsub1 k' Hk1) as [?| ->]; [by left|]. right. by left.
      * right. by right.
    + intros k' v' Hin. destruct (Hval' k' v' Hin) as [k0 Hin0].
      by apply (Hval1 k0).
    + intros x Hx Hun. rewrite Hfr'.
      * apply Hfr1; [done|].
        destruct v as [| |c]; try (right; done).
        destruct (Nat.eq_dec c x) as [->|Hne]; [|right; congruence].
        left. apply (Hun k). by left.
      * done.
      * intros k' Hk''. apply (Hun k'). by right.
    + intros k' c [[= -> ->]|Hin] Hm.
      * destruct (Hstrip1 c eq_refl Hm) as (sec & Hsec & Hsec').
        exists sec. split; [done|]. rewrite Hfr'; [done| |].
        -- intros ->. apply Hr. by left.
        -- intros k0 Hin0. exfalso.
           apply (Hdisj c); [apply list_elem_of_In; by left|].
           apply list_elem_of_In. by eapply refs_In.
      * by apply (Hstrip' k').
Qed.

(** X9: on a root section as the parser leaves it (unique keys, child
    objects of their own, string attributes) the include pass never
    raises.  It creates no object and no key: the root keeps unique keys
    taken from the keys it had, its values are values it had, so it has no
    more entries than before.  Every section with a marker loses the
    marker, and no object other than the root and the marked sections is
    touched. *)
Theorem include_pass_total (h : heap) c root_key others r root :
  h !! c = Some (ODict ((root_key, VRef r) :: others)) ->
  h !! r = Some (ODict root) ->
  wf_sections h r root = true ->
  exists h' root',
    process_includes (VRef c) h = (Return tt, h')
    /\ h' !! r = Some (ODict root')
    /\ length h' = length h
    /\ NoDup (Dict.keys root')
    /\ (forall k, In k (Dict.keys root') -> In k (Dict.keys root))
    /\ (forall k v, In (k, v) root' -> exists k0, In (k0, v) root)
    /\ length root' <= length root
    /\ (forall k a, In (k, VRef a) root -> marker h (VRef a) <> None ->
          exists sec, h !! a = Some (ODict sec)
                      /\ h' !! a = Some (ODict (Dict.del "@incl" sec)))
    /\ (forall x, x <> r ->
          (forall k, In (k, VRef x) root -> marker h (VRef x) = None) ->
          h' !! x = h !! x).
Proof.
  intros Hc Hroot Hwf. unfold wf_sections in Hwf.
  apply andb_true_iff in Hwf as [Hwf Hattr].
  apply andb_true_iff in Hwf as [Hkeys Haddrs].
  apply nodup_keys_NoDup in Hkeys. apply nodup_addrs_NoDup in Haddrs.
  apply NoDup_cons in Haddrs as [Hr Haddrs]. rewrite list_elem_of_In in Hr.
  destruct (include_loop_total h r root h root)
    as (h' & root' & Hrun & Hroot' & Hkeys' & Hlen & Hsub & Hval & Hfr
        & Hstrip); try done.
  { apply Forall_forall. intros kv Hin. apply list_elem_of_In in Hin.
    apply (proj1 (forallb_forall _ _) Hattr kv Hin). }
  exists h', root'.
  split; [|split; [done|split; [done|split; [done|split;
    [|split; [done|split; [|split; [done|done]]]]]]]].
  - unfold process_includes, bind at 1, load_dict at 1. rewrite Hc.
    unfold bind, load_dict. rewrite Hroot. exact Hrun.
  - intros k Hk. by destruct (Hsub k Hk).
  - rewrite <- (length_map fst root'), <- (length_map fst root).
    apply NoDup_incl_length; [by apply NoDup_ListNoDup|].
    intros k Hk. by destruct (Hsub k Hk).
Qed.

Lemma include_pass_total_witness :
  let '(config, h) := alloc shared_include_config [] in
  exists h' root',
    process_includes config h = (Return tt, h')
    /\ h' !! 3 = Some (ODict root')
    /\ length h' = length h
    /\ NoDup (Dict.keys root')
    /\ (forall k, In k (Dict.keys root') -> In k ["a"; "b"; "c"])
    /\ length root' <= 3.
Proof.
  destruct (@include_pass_total (snd (alloc shared_include_config [])) 4
              "clickhouse" [] 3
              [("a", VRef 0); ("b", VRef 1); ("c", VRef 2)]
              eq_refl eq_refl eq_refl)
    as (h' & root' & H1 & H2 & H3 & H4 & H5 & _ & H7 & _).
  exists h', root'. by repeat split.
Defined.

(** ** More on dumps *)

Lemma mask_entry_key (kt : string * doc) : (mask_entry kt).1 = kt.1.
Proof.
  destruct kt as [k t]. unfold mask_entry. simpl.
  destruct t; simpl; try destruct (is_secret_key k); done.
Qed.

Lemma mask_doc_idem (t : doc) : mask_doc (mask_doc t) = mask_doc t.
Proof.
  induction t as [|s|items IH|elems IH] using doc_ind'; try done.
  rewrite !mask_doc_dict. f_equal. rewrite map_map.
  induction IH as [|[k t] items Ht _ IHitems]; simpl; [done|].
  f_equal; [|exact IHitems].
  simpl in Ht. destruct t as [|s|sub|elems].
  - unfold mask_entry. simpl.
    destruct (is_secret_key k) eqn:Ek; simpl; by rewrite ?Ek.
  - unfold mask_entry. simpl.
    destruct (is_secret_key k) eqn:Ek; simpl; by rewrite ?Ek.
  - change (mask_entry (k, DDict sub)) with (k, mask_doc (DDict sub)).
    rewrite mask_doc_dict.
    change (mask_entry (k, DDict (map mask_entry sub)))
      with (k, mask_doc (DDict (map mask_entry sub))).
    rewrite <- mask_doc_dict. by rewrite Ht.
  - unfold mask_entry. simpl.
    destruct (is_secret_key k) eqn:Ek; simpl; by rewrite ?Ek.
Qed.

Lemma wf_mask_doc (t : doc) : wf_doc t = true -> wf_doc (mask_doc t) = true.
Proof.
  induction t as [|s|items IH|elems IH] using doc_ind'; try done.
  rewrite mask_doc_dict. simpl. intros Hwf.
  apply andb_true_iff in Hwf as [Hk Hall]. apply andb_true_iff. split.
  - rewrite map_map.
    rewrite (map_ext _ fst mask_entry_key). done.
  - clear Hk. induction IH as [|[k t] items Ht _ IHitems]; simpl; [done|].
    simpl in Hall. apply andb_true_iff in Hall as [H1 H2].
    apply andb_true_iff. split; [|by apply IHitems].
    simpl in Ht, H1. destruct t as [|s|sub|elems].
    + unfold mask_entry. simpl. by destruct (is_secret_key k).
    + unfold mask_entry. simpl. by destruct (is_secret_key k).
    + change (mask_entry (k, DDict sub)) with (k, mask_doc (DDict sub)).
      by apply Ht.
    + unfold mask_entry. simpl. by destruct (is_secret_key k).
Qed.

Section DumpMore.
Context `{XmlLib}.

(** X10: masking is idempotent.  Dumping with masking the tree that a
    masked dump returned gives a tree that reads the same. *)
Theorem dump_twice fuel (h : heap) config t r h1 :
  read fuel h config = Some t -> wf_doc t = true ->
  _dump_config fuel config true false h = (Return (DumpTree r), h1) ->
  exists r2 h2,
    _dump_config fuel r true false h1 = (Return (DumpTree r2), h2)
    /\ read fuel h2 r2 = Some (mask_doc t)
    /\ read fuel h2 r = Some (mask_doc t).
Proof.
  intros Hread Hwf Hdump.
  destruct (dump_config_spec fuel h config t true false Hread Hwf)
    as (_ & _ & r' & Hfst & Hr).
  rewrite Hdump in Hfst, Hr. simpl in Hfst, Hr. injection Hfst as <-.
  destruct (dump_config_spec fuel h1 r (mask_doc t) true false Hr
              (wf_mask_doc t Hwf)) as (_ & Hsame & r2 & Hfst2 & Hr2).
  destruct (_dump_config fuel r true false h1) as [o h2].
  simpl in *. subst o. exists r2, h2.
  split; [done|]. split; [|done]. by rewrite <- (mask_doc_idem t).
Qed.

(** X11: the tree a dump returns is made of new objects only: it stands
    for the (masked) document with all its objects at addresses that did
    not exist before the call, so it shares nothing with the config. *)
Theorem dump_result_fresh fuel (h : heap) config t (mask_secrets : bool) :
  read fuel h config = Some t -> wf_doc t = true ->
  exists r h',
    _dump_config fuel config mask_secrets false h = (Return (DumpTree r), h')
    /\ length h <= length h'
    /\ rep h' (if mask_secrets then mask_doc t else t) r
         (length h) (length h').
Proof.
  intros Hread Hwf.
  pose proof (read_depth _ _ _ _ Hread) as Hdepth.
  pose proof (deepcopy_alloc fuel h config t [] Hread) as Hcopy.
  rewrite app_nil_r in Hcopy.
  destruct (alloc t h) as [r h1] eqn:Ealloc.
  destruct (alloc_rep t _ _ _ Ealloc) as [[new ->] Hrep].
  unfold _dump_config, bind. rewrite Hcopy.
  destruct mask_secrets.
  - destruct (mask_rep fuel t r _ _ _ Hrep Hwf Hdepth)
      as (h2 & Hrun & Hrep2 & Hlen & Hfr).
    rewrite Hrun. exists r, h2. split; [done|].
    rewrite Hlen. split; [rewrite length_app; lia | done].
  - exists r, (h ++ new). split; [done|].
    split; [rewrite length_app; lia | done].
Qed.
End DumpMore.

Lemma dump_twice_witness :
  let '(config, h) := alloc sample_config [] in
  forall r h1,
    @_dump_config sample_xml 3 config true false h
    = (Return (DumpTree r), h1) ->
    exists r2 h2,
      @_dump_config sample_xml 3 r true false h1 = (Return (DumpTree r2), h2)
      /\ read 3 h2 r2 = Some (mask_doc sample_config)
      /\ read 3 h2 r = Some (mask_doc sample_config).
Proof.
  exact (fun r h1 =>
           @dump_twice sample_xml 3 (snd (alloc sample_config []))
             (fst (alloc sample_config [])) sample_config r h1
             eq_refl eq_refl).
Defined.

Lemma dump_result_fresh_witness :
  let '(config, h) := alloc sample_config [] in
  exists r h',
    @_dump_config sample_xml 3 config false false h
    = (Return (DumpTree r), h')
    /\ 2 <= length h'
    /\ rep h' sample_config r 2 (length h').
Proof.
  exact (@dump_result_fresh sample_xml 3 (snd (alloc sample_config []))
           (fst (alloc sample_config [])) sample_config false
           eq_refl eq_refl).
Defined.

(** ** Accessors at the edges *)

(** X12: the ZooKeeper accessors of a config whose root is a mapping.
    Without a [zookeeper] section [nodes] raises [KeyError], while [root]
    and [identity] are [None]; with a section, [nodes] is always a list:
    the elements of a repeated [node], or the single [node] alone; an
    empty [<zookeeper/>] element makes [nodes] raise [TypeError] and
    [root] raise [AttributeError]. *)
Theorem zookeeper_spec (h : heap) self root items :
  _config_root h self = Return root ->
  section_items h root = Return items ->
  (Dict.get "zookeeper" items = None ->
     exists z, zookeeper h self = Return z
       /\ zk_nodes h z = Raise (KeyError "node")
       /\ zk_root h z = Return VNone /\ zk_identity h z = Return VNone)
  /\ (forall a zk v,
        Dict.get "zookeeper" items = Some (VRef a) ->
        h !! a = Some (ODict zk) -> Dict.get "node" zk = Some v ->
        exists z, zookeeper h self = Return z
          /\ (forall b elems, v = VRef b -> h !! b = Some (OList elems) ->
                zk_nodes h z = Return elems)
          /\ (is_dict h v = true \/ (forall b, v <> VRef b) ->
                zk_nodes h z = Return [v])
          /\ zk_root h z
             = Return (match Dict.get "root" zk with
                       | Some x => x
                       | None => VNone
                       end))
  /\ (Dict.get "zookeeper" items = Some VNone ->
        exists z, zookeeper h self = Return z
          /\ zk_nodes h z = Raise TypeError
          /\ zk_root h z = Raise AttributeError).
Proof.
  intros Hroot Hitems. unfold zookeeper, section_get.
  rewrite Hroot, Hitems. split; [|split].
  - intros ->. by eexists.
  - intros a zk v -> Ha Hv. eexists. split; [done|].
    unfold zk_nodes, zk_root, section_get_value. simpl.
    rewrite Ha, Hv. split; [|split; [|done]].
    + intros b elems -> Hb. by rewrite Hb.
    + intros [Hd|Hd].
      * destruct v as [| |b]; try done. simpl in Hd.
        by destruct (h !! b) as [[|]|].
      * destruct v as [| |b]; try done. by destruct (Hd b).
  - intros ->. by eexists.
Qed.

Lemma zookeeper_spec_witness :
  let '(h, self) :=
    view_of (DDict [("clickhouse",
               DDict [("zookeeper",
                 DDict [("node", DDict [("host", DStr "zk1")])])])]) in
  exists z, zookeeper h self = Return z
            /\ zk_nodes h z = Return [VRef 0].
Proof.
  pose (hs := view_of (DDict [("clickhouse",
               DDict [("zookeeper",
                 DDict [("node", DDict [("host", DStr "zk1")])])])])).
  destruct (zookeeper_spec (fst hs) (snd hs) (Found (VRef 2))
              [("zookeeper", VRef 1)] eq_refl eq_refl) as (_ & Hsome & _).
  destruct (Hsome 1 [("node", VRef 0)] (VRef 0) eq_refl eq_refl eq_refl)
    as (z & Hz & _ & Hsingle & _).
  exists z. split; [exact Hz|]. apply Hsingle. by left.
Defined.

(** X13: [has_disk] of a config whose root is a mapping: [False] when the
    storage configuration or its [disks] section is missing; membership
    among the keys when [disks] is a mapping; [TypeError] for an empty
    [<disks/>] element; and a substring test when [disks] is plain text. *)
Theorem has_disk_spec (h : heap) self root items name :
  _config_root h self = Return root ->
  section_items h root = Return items ->
  (Dict.get "storage_configuration" items = None ->
     has_disk h self name = Return false)
  /\ (forall a sc,
        Dict.get "storage_configuration" items = Some (VRef a) ->
        h !! a = Some (ODict sc) ->
        (Dict.get "disks" sc = None -> has_disk h self name = Return false)
        /\ (forall b disks,
              Dict.get "disks" sc = Some (VRef b) ->
              h !! b = Some (ODict disks) ->
              has_disk h self name = Return (Dict.mem name disks))
        /\ (Dict.get "disks" sc = Some VNone ->
              has_disk h self name = Raise TypeError)
        /\ (forall s, Dict.get "disks" sc = Some (VStr s) ->
              has_disk h self name = Return (is_substring name s))).
Proof.
  intros Hroot Hitems. unfold has_disk, section_get.
  rewrite Hroot, Hitems. split.
  - by intros ->.
  - intros a sc -> Ha. simpl. rewrite Ha. repeat split.
    + by intros ->.
    + intros b disks -> Hb. simpl. by rewrite Hb.
    + by intros ->.
    + by intros s ->.
Qed.

Lemma has_disk_spec_witness :
  let '(h, self) :=
    view_of (DDict [("clickhouse",
               DDict [("storage_configuration",
                 DDict [("disks",
                   DDict [("object_storage", DDict [])])])])]) in
  has_disk h self "object_storage" = Return true
  /\ has_disk h self "default" = Return false.
Proof.
  pose (hs := view_of (DDict [("clickhouse",
               DDict [("storage_configuration",
                 DDict [("disks",
                   DDict [("object_storage", DDict [])])])])])).
  split.
  - destruct (has_disk_spec (fst hs) (snd hs) (Found (VRef 3))
                [("storage_configuration", VRef 2)] "object_storage"
                eq_refl eq_refl) as [_ Hsome].
    destruct (Hsome 2 [("disks", VRef 1)] eq_refl eq_refl)
      as (_ & Hmap & _).
    exact (Hmap 1 [("object_storage", VRef 0)] eq_refl eq_refl).
  - destruct (has_disk_spec (fst hs) (snd hs) (Found (VRef 3))
                [("storage_configuration", VRef 2)] "default"
                eq_refl eq_refl) as [_ Hsome].
    destruct (Hsome 2 [("disks", VRef 1)] eq_refl eq_refl)
      as (_ & Hmap & _).
    exact (Hmap 1 [("object_storage", VRef 0)] eq_refl eq_refl).
Defined.

(** ** Files of the override directory *)

Section OverrideFiles.
Context `{XmlLib}.

(** X14: every entry that [os.listdir] reports for the override directory
    is loaded, whatever its name; the first one that cannot be read or
    parsed makes the assembly fail with that error, and the entries after
    it are not looked at. *)
Theorem assemble_bad_file fs main cluster before bad after docs e :
  _load_config fs CLICKHOUSE_SERVER_MAIN_CONFIG_PATH = Return main ->
  _load_config fs CLICKHOUSE_SERVER_CLUSTER_CONFIG_PATH = Return cluster ->
  fs_listdir fs CLICKHOUSE_SERVER_CONFIGD_PATH
  = Some (before ++ bad :: after) ->
  Forall2 (fun f d =>
             _load_config fs (path_join CLICKHOUSE_SERVER_CONFIGD_PATH f)
             = Return d) before docs ->
  _load_config fs (path_join CLICKHOUSE_SERVER_CONFIGD_PATH bad) = Raise e ->
  assemble fs = Raise e.
Proof.
  intros Hmain Hcluster Hlist Hbefore Hbad.
  unfold assemble. rewrite Hmain, Hcluster, Hlist. clear Hlist.
  generalize (deep_merge main cluster) as config.
  induction Hbefore as [|f d before docs Hf _ IH]; intros config;
    rewrite ?app_nil_l, <- ?app_comm_cons.
  - change (merge_files fs config (bad :: after)) with
      (match _load_config fs (path_join CLICKHOUSE_SERVER_CONFIGD_PATH bad)
       with
       | Raise e0 => Raise e0
       | Return d => merge_files fs (deep_merge config d) after
       end).
    by rewrite Hbad.
  - change (merge_files fs config (f :: before ++ bad :: after)) with
      (match _load_config fs (path_join CLICKHOUSE_SERVER_CONFIGD_PATH f)
       with
       | Raise e0 => Raise e0
       | Return d0 =>
           merge_files fs (deep_merge config d0) (before ++ bad :: after)
       end).
    rewrite Hf. apply IH.
Qed.
End OverrideFiles.

Lemma assemble_bad_file_witness :
  @assemble sample_xml notes_fs
  = Raise (ParseError (path_join CLICKHOUSE_SERVER_CONFIGD_PATH "NOTES")).
Proof.
  exact (@assemble_bad_file sample_xml notes_fs
           [("clickhouse", DDict [("x", DStr "0")])]
           [("clickhouse", DDict [("y", DStr "1")])]
           ["a.xml"] "NOTES" ["b.xml"]
           [[("clickhouse", DDict [("x", DStr "a")])]]
           (ParseError (path_join CLICKHOUSE_SERVER_CONFIGD_PATH "NOTES"))
           eq_refl eq_refl eq_refl
           ltac:(repeat constructor) eq_refl).
Defined.

(** X16: [port], [snapshots_dir] and [storage_dir] of a keeper config.
    The root is the value under [clickhouse] when that key is present,
    else the one under [yandex].  With no root, or a root without
    [keeper_server], the accessor gives [None]; with a [keeper_server]
    mapping it gives the value under its key, or [None]; an empty root
    element or an empty [<keeper_server/>] element makes it raise
    [AttributeError]. *)
Theorem keeper_accessors_spec (h : heap) self a top acc key :
  In (acc, key) keeper_accessors ->
  keeper_config self = VRef a -> h !! a = Some (ODict top) ->
  (root_value top = None -> acc h self = Return VNone)
  /\ (root_value top = Some VNone -> acc h self = Raise AttributeError)
  /\ (forall r items,
        root_value top = Some (VRef r) -> h !! r = Some (ODict items) ->
        (Dict.get "keeper_server" items = None -> acc h self = Return VNone)
        /\ (Dict.get "keeper_server" items = Some VNone ->
              acc h self = Raise AttributeError)
        /\ (forall k ks,
              Dict.get "keeper_server" items = Some (VRef k) ->
              h !! k = Some (ODict ks) ->
              acc h self = Return match Dict.get key ks with
                                  | Some v => v
                                  | None => VNone
                                  end)).
Proof.
  intros Hin Hself Ha.
  assert (acc h self = keeper_server_value h self key) as ->.
  { destruct Hin as [[= <- <-]|[[= <- <-]|[[= <- <-]|[]]]]; reflexivity. }
  unfold keeper_server_value, _clickhouse, config_root, section_get,
    section_get_value, root_value.
  rewrite Hself. simpl. rewrite Ha.
  destruct (Dict.get "clickhouse" top) as [c|] eqn:Ec.
  - split; [done|]. split.
    + by intros [= ->].
    + intros r items [= ->] Hr. simpl. rewrite Hr. split; [|split].
      * by intros ->.
      * by intros ->.
      * intros k ks -> Hk. simpl. by rewrite Hk.
  - destruct (Dict.get "yandex" top) as [y|] eqn:Ey.
    + split; [done|]. split.
      * by intros [= ->].
      * intros r items [= ->] Hr. simpl. rewrite Hr. split; [|split].
        -- by intros ->.
        -- by intros ->.
        -- intros k ks -> Hk. simpl. by rewrite Hk.
    + split; [done|]. split; [done|]. by intros r items [=].
Qed.

Lemma keeper_accessors_spec_witness :
  let '(v, h) :=
    alloc (DDict [("clickhouse", DDict [("keeper_server", DNone)])]) [] in
  keeper_port h {| keeper_config := v;
                   keeper_config_path := CLICKHOUSE_KEEPER_CONFIG_PATH |}
  = Raise AttributeError.
Proof.
  pose (vh := alloc (DDict [("clickhouse",
                             DDict [("keeper_server", DNone)])]) []).
  destruct (keeper_accessors_spec (snd vh)
              {| keeper_config := fst vh;
                 keeper_config_path := CLICKHOUSE_KEEPER_CONFIG_PATH |}
              1 [("clickhouse", VRef 0)] keeper_port "tcp_port"
              ltac:(left; reflexivity) eq_refl eq_refl) as (_ & _ & Hroot).
  destruct (Hroot 0 [("keeper_server", VNone)] eq_refl eq_refl)
    as (_ & Hempty & _).
  exact (Hempty eq_refl).
Defined.
